(** * Acronym Expander: a shallow embedding of the content script and of the
    isolated expansion frame, with the properties of its scanning and caching
    core.

    Strings are JavaScript strings restricted to the code units 0..255
    ([Ascii.ascii]); every character test of the source ([A-Z], [a-z], \d,
    \b, [trim], [toLowerCase]) is written out on those code units. *)

From Stdlib Require Import Ascii String.
From stdpp Require Import gmap strings list fin_maps.

(** ** JavaScript strings *)

Module JsString.

Definition chars (s : string) : list ascii := list_ascii_of_string s.
Definition of_chars (l : list ascii) : string := string_of_list_ascii l.

Definition code (c : ascii) : nat := nat_of_ascii c.

Definition between (lo hi : nat) (c : ascii) : bool :=
  (lo <=? code c)%nat && (code c <=? hi)%nat.

(** [A-Z], [a-z], \d and the word characters of \b (A-Z a-z 0-9 _). *)
Definition isUpper : ascii -> bool := between 65 90.
Definition isLower : ascii -> bool := between 97 122.
Definition isDigit : ascii -> bool := between 48 57.
Definition isWordChar (c : ascii) : bool :=
  isUpper c || isLower c || isDigit c || (code c =? 95)%nat.

(** White space and line terminators removed by [String.prototype.trim]:
    TAB, LF, VT, FF, CR, SP and NBSP. *)
Definition isSpace (c : ascii) : bool :=
  between 9 13 c || (code c =? 32)%nat || (code c =? 160)%nat.

(** [s.length] *)
Definition length (s : string) : nat := List.length (chars s).

(** [s.slice(from, to)] for non-negative arguments. *)
Definition slice_chars (l : list ascii) (from to : nat) : list ascii :=
  take (to - from) (drop from l).
Definition slice (s : string) (from to : nat) : string :=
  of_chars (slice_chars (chars s) from to).
(** [s.slice(from)] *)
Definition slice_from (s : string) (from : nat) : string :=
  of_chars (drop from (chars s)).

Fixpoint trimStart_chars (l : list ascii) : list ascii :=
  match l with
  | c :: l' => if isSpace c then trimStart_chars l' else l
  | [] => []
  end.
Definition trim_chars (l : list ascii) : list ascii :=
  rev (trimStart_chars (rev (trimStart_chars l))).
(** [s.trim()] *)
Definition trim (s : string) : string := of_chars (trim_chars (chars s)).

(** [toLowerCase] on one code unit: A-Z, and the Latin-1 capitals
    U+00C0..U+00DE except the multiplication sign U+00D7. *)
Definition lowerChar (c : ascii) : ascii :=
  if isUpper c || (between 192 222 c && negb (code c =? 215)%nat)
  then ascii_of_nat (code c + 32) else c.
Definition toLowerCase (s : string) : string :=
  of_chars (map lowerChar (chars s)).

Fixpoint startsWith_chars (p l : list ascii) : bool :=
  match p, l with
  | [], _ => true
  | a :: p', b :: l' => Ascii.eqb a b && startsWith_chars p' l'
  | _ :: _, [] => false
  end.
Fixpoint includes_chars (l p : list ascii) : bool :=
  startsWith_chars p l ||
  match l with
  | [] => false
  | _ :: l' => includes_chars l' p
  end.
(** [s.includes(p)] *)
Definition includes (s p : string) : bool :=
  includes_chars (chars s) (chars p).

(** Truthiness of a string: only the empty string is falsy. *)
Definition truthy (s : string) : bool := negb (String.eqb s "").

End JsString.

(** ** Regular expressions: the backtracking matcher of ECMAScript

    Only the constructs of [acronymPattern] are modelled.  A cursor is a
    position in the input: the characters before it (nearest first) and the
    characters after it. *)

Module Regex.
Import JsString.

Record cursor := Cursor { before : list ascii; after : list ascii }.

Definition endIndex (x : cursor) : nat := List.length (before x).

Definition cursor_at (l : list ascii) (i : nat) : cursor :=
  Cursor (rev (take i l)) (drop i l).

Definition input (x : cursor) : list ascii := rev (before x) ++ after x.

Inductive regex :=
| Eps
| Chr (p : ascii -> bool)
| Seq (r1 r2 : regex)
| Alt (r1 r2 : regex)
| Star (r : regex)
| WordBoundary.

Definition wordBefore (x : cursor) : bool :=
  match before x with c :: _ => isWordChar c | [] => false end.
Definition wordAfter (x : cursor) : bool :=
  match after x with c :: _ => isWordChar c | [] => false end.
(** \b holds where exactly one side is a word character. *)
Definition isBoundary (x : cursor) : bool := xorb (wordBefore x) (wordAfter x).

Definition advance (x : cursor) : option (ascii * cursor) :=
  match after x with
  | c :: rest => Some (c, Cursor (c :: before x) rest)
  | [] => None
  end.

Definition orElse {A} (a b : option A) : option A :=
  match a with Some _ => a | None => b end.

(** The greedy star of RepeatMatcher around a matcher [m] for the
    repeated expression: try one more iteration, then the continuation.
    An iteration that consumes nothing is rejected ("if min = 0 and y's
    endIndex = x's endIndex, return failure"), so every iteration consumes
    a character and [length (after x)] iterations always suffice. *)
Definition repeatMatcher
    (m : cursor -> (cursor -> option cursor) -> option cursor)
    (k : cursor -> option cursor) : nat -> cursor -> option cursor :=
  fix repeat (fuel : nat) (x : cursor) : option cursor :=
    match fuel with
    | O => k x
    | S fuel' =>
        orElse
          (m x (fun y =>
             if (endIndex y =? endIndex x)%nat then None
             else repeat fuel' y))
          (k x)
    end.

(** [run r x k]: match [r] at [x], then the continuation [k]; alternatives
    are tried in order and a failing continuation backtracks. *)
Fixpoint run (r : regex) (x : cursor) (k : cursor -> option cursor)
  : option cursor :=
  match r with
  | Eps => k x
  | Chr p =>
      match advance x with
      | Some (c, y) => if p c then k y else None
      | None => None
      end
  | Seq r1 r2 => run r1 x (fun y => run r2 y k)
  | Alt r1 r2 => orElse (run r1 x k) (run r2 x k)
  | Star r1 => repeatMatcher (run r1) k (List.length (after x)) x
  | WordBoundary => if isBoundary x then k x else None
  end.

(** Derived forms. *)
Definition lit_chars (l : list ascii) : regex :=
  foldr (fun c r => Seq (Chr (Ascii.eqb c)) r) Eps l.
Definition lit (s : string) : regex := lit_chars (chars s).
(** [r?], greedy, for an [r] that cannot match the empty string. *)
Definition opt (r : regex) : regex := Alt r Eps.
(** [r+] *)
Definition plus (r : regex) : regex := Seq r (Star r).
(** [r{2,}] *)
Definition atLeast2 (r : regex) : regex := Seq r (Seq r (Star r)).

(** A match attempt at one position: the cursor at the end of the match. *)
Definition matchAt (r : regex) (x : cursor) : option cursor := run r x Some.

(** The scan of [RegExpBuiltinExec] for a global, non-sticky expression:
    try the position, on failure move one character to the right; past the
    end of the input the search fails. *)
Fixpoint search (r : regex) (bef aft : list ascii) : option (cursor * cursor) :=
  match matchAt r (Cursor bef aft) with
  | Some e => Some (Cursor bef aft, e)
  | None =>
      match aft with
      | c :: aft' => search r (c :: bef) aft'
      | [] => None
      end
  end.

Record match_result := MatchResult { index : nat; matched : string }.

(** [re.exec(text)] with [re.lastIndex = lastIndex]: the match (its index
    and [match[0]]) and the new [lastIndex], or [None] for [null] (which
    resets [lastIndex] to 0). *)
Definition exec (r : regex) (text : string) (lastIndex : nat)
  : option (match_result * nat) :=
  let l := chars text in
  if (List.length l <? lastIndex)%nat then None
  else
    match search r (rev (take lastIndex l)) (drop lastIndex l) with
    | Some (s, e) =>
        Some (MatchResult (endIndex s)
                (of_chars (slice_chars l (endIndex s) (endIndex e))),
              endIndex e)
    | None => None
    end.

(** *** The matches of an expression, declaratively

    [matches r x y]: some path of the matcher for [r] leads from [x] to
    [y].  [consumed x w y]: [y] is [x] moved right over the word [w]. *)
Definition consumed (x : cursor) (w : list ascii) (y : cursor) : Prop :=
  after x = w ++ after y /\ before y = rev w ++ before x.

Inductive matches : regex -> cursor -> cursor -> Prop :=
| M_eps x : matches Eps x x
| M_chr p c x y :
    advance x = Some (c, y) -> p c = true -> matches (Chr p) x y
| M_seq r1 r2 x y z :
    matches r1 x y -> matches r2 y z -> matches (Seq r1 r2) x z
| M_alt_l r1 r2 x y : matches r1 x y -> matches (Alt r1 r2) x y
| M_alt_r r1 r2 x y : matches r2 x y -> matches (Alt r1 r2) x y
| M_star_stop r x : matches (Star r) x x
| M_star_step r x y z :
    matches r x y -> endIndex y <> endIndex x ->
    matches (Star r) y z -> matches (Star r) x z
| M_boundary x : isBoundary x = true -> matches WordBoundary x x.

(** The least number of characters a match consumes. *)
Fixpoint minLen (r : regex) : nat :=
  match r with
  | Eps | Star _ | WordBoundary => 0
  | Chr _ => 1
  | Seq r1 r2 => minLen r1 + minLen r2
  | Alt r1 r2 => Nat.min (minLen r1) (minLen r2)
  end.

(** Every character class of [r] lies inside [P]. *)
Fixpoint classesWithin (P : ascii -> bool) (r : regex) : Prop :=
  match r with
  | Eps | WordBoundary => True
  | Chr p => forall c, p c = true -> P c = true
  | Seq r1 r2 | Alt r1 r2 => classesWithin P r1 /\ classesWithin P r2
  | Star r1 => classesWithin P r1
  end.

End Regex.

(** ** The page: DOM nodes *)

Module Dom.

#[local] Unset Elimination Schemes.

(** A text node, or an element with its tag name, class list, the value of
    [dataset.acronym] (the only data attribute the script uses) and its
    children. *)
Inductive node :=
| Text (textContent : string)
| Element (tagName : string) (classList : list string)
    (dataset_acronym : option string) (children : list node).

(** [document.createElement("span")] in an HTML document. *)
Definition createSpan (classList : list string) (acronym : option string)
    (children : list node) : node :=
  Element "SPAN" classList acronym children.

(** [classList.contains(cls)] *)
Definition classList_contains (classList : list string) (cls : string) : bool :=
  bool_decide (cls ∈ classList).

(** [classList.remove(cls)] *)
Definition classList_remove (classList : list string) (cls : string) : list string :=
  filter (fun c => c ≠ cls) classList.

End Dom.

(** ** The content script: class AcronymExpander *)

Module AcronymExpander.
Import JsString Regex Dom.

Definition markerClass : string := "acronym-expander".

(** The expression of [processTextNode] (flag g), one alternative a line:
<<
    \b (?: [A-Z]{2,} (?: \d* [A-Z]* )*
         | i [A-Z] [a-z]+
         | e [A-Z] [a-z]+
         | (?:Node|Web|React|Vue|Next) \.? (?:js|JS)? ) \b
>> *)
Definition acronymPattern : regex :=
  Seq WordBoundary
    (Seq
       (Alt (Seq (atLeast2 (Chr isUpper))
               (Star (Seq (Star (Chr isDigit)) (Star (Chr isUpper)))))
       (Alt (Seq (lit "i") (Seq (Chr isUpper) (plus (Chr isLower))))
       (Alt (Seq (lit "e") (Seq (Chr isUpper) (plus (Chr isLower))))
            (Seq (Alt (lit "Node") (Alt (lit "Web") (Alt (lit "React")
                    (Alt (lit "Vue") (lit "Next")))))
               (Seq (opt (lit "."))
                    (opt (Alt (lit "js") (lit "JS"))))))))
       WordBoundary).

Definition nonTechWords : gset string :=
  list_to_set
    ["USA"; "UK"; "EU"; "UN"; "Mr"; "Mrs"; "Ms"; "Dr"; "AM"; "PM"].

Definition shouldSkipAcronym (acronym : string) : bool :=
  bool_decide (acronym ∈ nonTechWords) || (12 <? JsString.length acronym)%nat.

(** A marked span: class, text and data attribute all set from the term. *)
Definition markSpan (acronym : string) : node :=
  createSpan [markerClass] (Some acronym) [Text acronym].

(** [Set.prototype.add], keeping insertion order. *)
Definition set_add (x : string) (s : list string) : list string :=
  if bool_decide (x ∈ s) then s else s ++ [x].

(** The variables the scanning loop of [processTextNode] updates. *)
Record loop_state := LoopState {
  lastIndex : nat;
  fragments : list node;
  termsFound : list string;
  contextText : string
}.

(** The loop body after the [continue] test. *)
Definition accept_match (text : string) (m : match_result) (st : loop_state)
  : loop_state :=
  let acronym := matched m in
  {| lastIndex := index m + JsString.length acronym;
     fragments :=
       (if (lastIndex st <? index m)%nat
        then fragments st ++ [Text (slice text (lastIndex st) (index m))]
        else fragments st) ++ [markSpan acronym];
     termsFound := set_add acronym (termsFound st);
     contextText :=
       slice text (Nat.max 0 (index m - 50))
         (Nat.min (JsString.length text) (index m + JsString.length acronym + 50)) |}.

(** [while ((match = acronymPattern.exec(text)) !== null)], with the
    expression's own [lastIndex] threaded as [reIndex].  [None] only when
    the fuel runs out. *)
Fixpoint scan_loop (fuel : nat) (text : string) (reIndex : nat)
    (st : loop_state) : option loop_state :=
  match fuel with
  | O => None
  | S fuel' =>
      match exec acronymPattern text reIndex with
      | None => Some st
      | Some (m, reIndex') =>
          if shouldSkipAcronym (matched m)
          then scan_loop fuel' text reIndex' st
          else scan_loop fuel' text reIndex' (accept_match text m st)
      end
  end.

Definition scan_fuel (text : string) : nat := S (S (JsString.length text)).

(** What [processTextNode] returns, together with what stands in the
    tree at the node's place afterwards. *)
Record text_result := TextResult {
  replacement : option node;
  terms : list string;
  context : string
}.

Definition finish (text : string) (st : loop_state) : text_result :=
  let fragments' :=
    if (lastIndex st <? JsString.length text)%nat
    then fragments st ++ [Text (slice_from text (lastIndex st))]
    else fragments st in
  {| replacement :=
       if (1 <? List.length fragments')%nat
       then Some (createSpan [] None fragments') else None;
     terms := termsFound st;
     context := contextText st |}.

Definition processTextNode_fuel (fuel : nat) (text : string)
  : option text_result :=
  if (JsString.length text <? 2)%nat
  then Some (TextResult None [] "")
  else
    match scan_loop fuel text 0 (LoopState 0 [] [] "") with
    | Some st => Some (finish text st)
    | None => None
    end.

Definition processTextNode (text : string) : option text_result :=
  processTextNode_fuel (scan_fuel text) text.

(** *** processPage: the filtered traversal *)

Definition opaqueTags : list string := ["script"; "style"; "code"; "pre"].

(** The [acceptNode] filter of the tree walker, for a text node whose
    parent element has the given tag name and class list. *)
Definition acceptNode (parentTag : string) (parentClasses : list string) : bool :=
  if classList_contains parentClasses markerClass
     || bool_decide (toLowerCase parentTag ∈ opaqueTags)
  then false else true.

(** The walker visits every text node below the root (elements are not
    shown but are descended into); each accepted text node is handed to
    [processTextNode], which may replace it in place.  [processBelow] is
    the resulting tree for one child of an element. *)
Fixpoint processBelow (parentTag : string) (parentClasses : list string)
    (n : node) : option node :=
  match n with
  | Text text =>
      if acceptNode parentTag parentClasses
      then r ← processTextNode text; Some (default n (replacement r))
      else Some n
  | Element tag classes acronym children =>
      children' ← mapM (processBelow tag classes) children;
      Some (Element tag classes acronym children')
  end.

(** [processPage(root)] for an element root, as the tree it leaves. *)
Definition processPage (root : node) : option node :=
  match root with
  | Text _ => Some root
  | Element tag classes acronym children =>
      children' ← mapM (processBelow tag classes) children;
      Some (Element tag classes acronym children')
  end.

(** [document.querySelectorAll(".acronym-expander").forEach(el =>
    el.classList.remove("acronym-expander"))] *)
Fixpoint unmarkAll (n : node) : node :=
  match n with
  | Text _ => n
  | Element tag classes acronym children =>
      Element tag (classList_remove classes markerClass) acronym
        (map unmarkAll children)
  end.

(** *** The expander's state and its event handlers *)

(** Messages of the two [window.postMessage] channels. *)
Inductive message :=
| EXPAND_ACRONYM (acronym : string)
| EXPANSION_RESULT (acronym expansion : string).

(** The tooltip element, [div#acronym-tooltip], by what the handlers set
    on it: its [textContent], [style.display], and the numbers written
    into [style.left] and [style.top] (followed there by [px]).
    Coordinates are CSS pixels taken as integers: for integers below
    2^53 in size the addition of doubles in [rect.bottom + 5] is the
    addition of integers; fractional coordinates are left out. *)
Record tooltip := Tooltip {
  tip_text : string;
  tip_display : string;
  tip_left : Z;
  tip_top : Z
}.

Record TooltipState := {
  element : option tooltip;
  hideTimeout : option nat
}.

(** [expansions] is a Map from term to expansion; [pending] holds, for a
    term, the [resolve] function of the promise created for it (named by
    the promise's number). *)
Record AcronymCache := {
  expansions : gmap string string;
  pending : gmap string nat
}.

(** [getBoundingClientRect()], the two sides the script reads. *)
Record rect := Rect { rect_left : Z; rect_bottom : Z }.

(** An event target: a node of the page and its bounding rectangle. *)
Record target := Target { target_node : node; target_rect : rect }.

Inductive log_entry :=
| MouseoverError (tgt : target).

(** The page-side state: the fields of the class, the document body, and
    the parts of the environment the handlers act on.  [body] is the
    content of [document.body] apart from the tooltip element, which
    [showTooltip] appends there on its first call and which is kept in
    [tooltipState].  The mutation observer is not among the events of
    this state: its callback is described on its own, after the scan of
    the page.  The other parts: whether
    [this.#iframe?.contentWindow] is a window, the messages posted to it
    (oldest first), the activations of [handleMouseOver] suspended at
    [await] with the promise each waits for, the running timers and the
    errors written to the console. *)
Record state := State {
  tooltipState : TooltipState;
  cache : AcronymCache;
  body : node;
  contentWindow : bool;
  posted : list message;
  awaiting : list (nat * target);
  nextPromise : nat;
  timers : list nat;
  nextTimer : nat;
  console : list log_entry
}.

Definition set_tooltipState (f : TooltipState -> TooltipState) (s : state) : state :=
  State (f (tooltipState s)) (cache s) (body s) (contentWindow s) (posted s)
    (awaiting s) (nextPromise s) (timers s) (nextTimer s) (console s).
Definition set_cache (f : AcronymCache -> AcronymCache) (s : state) : state :=
  State (tooltipState s) (f (cache s)) (body s) (contentWindow s) (posted s)
    (awaiting s) (nextPromise s) (timers s) (nextTimer s) (console s).
Definition set_body (d : node) (s : state) : state :=
  State (tooltipState s) (cache s) d (contentWindow s) (posted s)
    (awaiting s) (nextPromise s) (timers s) (nextTimer s) (console s).
Definition set_posted (f : list message -> list message) (s : state) : state :=
  State (tooltipState s) (cache s) (body s) (contentWindow s) (f (posted s))
    (awaiting s) (nextPromise s) (timers s) (nextTimer s) (console s).
Definition set_awaiting (f : list (nat * target) -> list (nat * target))
    (s : state) : state :=
  State (tooltipState s) (cache s) (body s) (contentWindow s) (posted s)
    (f (awaiting s)) (nextPromise s) (timers s) (nextTimer s) (console s).
Definition set_timers (f : list nat -> list nat) (s : state) : state :=
  State (tooltipState s) (cache s) (body s) (contentWindow s) (posted s)
    (awaiting s) (nextPromise s) (f (timers s)) (nextTimer s) (console s).
Definition log (e : log_entry) (s : state) : state :=
  State (tooltipState s) (cache s) (body s) (contentWindow s) (posted s)
    (awaiting s) (nextPromise s) (timers s) (nextTimer s) (console s ++ [e]).

(** [showTooltip(text, target)].  The first call creates the element and
    appends it to [document.body]; here the element lives in
    [tooltipState] only, by its text, display and position, and [body]
    stands for the rest of the page. *)
Definition showTooltip (text : string) (tgt : target) (s : state) : state :=
  set_tooltipState (fun ts =>
    {| element :=
         Some (Tooltip text "block" (rect_left (target_rect tgt))
                 (rect_bottom (target_rect tgt) + 5));
       hideTimeout := hideTimeout ts |}) s.

(** [clearTimeout(id)] *)
Definition clearTimeout (id : option nat) (s : state) : state :=
  match id with
  | Some i => set_timers (filter (fun j => j ≠ i)) s
  | None => s
  end.

(** The rest of [handleMouseOver] after [expansion = await pending] has
    delivered a string: show it unless it is empty or blank. *)
Definition afterAwait (expansion : string) (tgt : target) (s : state) : state :=
  if truthy expansion && truthy (trim expansion)
  then showTooltip expansion tgt s else s.

(** [new Promise((resolve) => { postMessage(...); pending.set(acronym,
    resolve) })] followed by [await]: the request is posted when the
    frame's window is there ([this.#iframe?.contentWindow?.postMessage]),
    the promise's [resolve] function is stored under the term, and the
    activation is suspended on the promise. *)
Definition requestExpansion (acronym : string) (tgt : target) (s : state) : state :=
  let p := nextPromise s in
  State (tooltipState s)
    {| expansions := expansions (cache s);
       pending := <[acronym := p]> (pending (cache s)) |}
    (body s) (contentWindow s)
    (if contentWindow s then posted s ++ [EXPAND_ACRONYM acronym] else posted s)
    (awaiting s ++ [(p, tgt)]) (S p)
    (timers s) (nextTimer s) (console s).

(** The branch [if (!expansion)] of [handleMouseOver].  With a pending
    entry the activation awaits the stored value, which is a [resolve]
    function and no promise: [await] hands the function back at once,
    [expansion.trim] is undefined on it, the call throws a TypeError, and
    the [catch] logs it. *)
Definition onMiss (acronym : string) (tgt : target) (s : state) : state :=
  match pending (cache s) !! acronym with
  | Some _ => log (MouseoverError tgt) s
  | None => requestExpansion acronym tgt s
  end.

(** [handleMouseOver(event)] *)
Definition handleMouseOver (tgt : target) (s : state) : state :=
  match target_node tgt with
  | Text _ => s
  | Element _ classes acronym _ =>
      if negb (classList_contains classes markerClass) then s
      else
        match acronym with
        | None => s
        | Some acronym =>
            if negb (truthy acronym) then s
            else
              let s := clearTimeout (hideTimeout (tooltipState s)) s in
              match expansions (cache s) !! acronym with
              | None => onMiss acronym tgt s
              | Some expansion =>
                  if negb (truthy expansion) then onMiss acronym tgt s
                  else if truthy (trim expansion)
                       then showTooltip expansion tgt s
                       else s
              end
        end
  end.

(** Settling promise [p] with [expansion] resumes, in order, the
    activations waiting for it. *)
Definition resume (p : nat) (expansion : string) (s : state) : state :=
  let waiting := filter (fun a => a.1 = p) (awaiting s) in
  let s := set_awaiting (filter (fun a => a.1 ≠ p)) s in
  foldl (fun s a => afterAwait expansion a.2 s) s waiting.

(** Windows a message event can come from; [event.source] is one of
    them or null. *)
Inductive window := FrameWindow | OtherWindow.

(** [this.#iframe?.contentWindow] *)
Definition frameWindow (s : state) : option window :=
  if contentWindow s then Some FrameWindow else None.

Definition window_eqb (a b : option window) : bool :=
  match a, b with
  | None, None | Some FrameWindow, Some FrameWindow
  | Some OtherWindow, Some OtherWindow => true
  | _, _ => false
  end.

(** The listener of [setupMessageHandling] for a message event with the
    given [event.source] and [event.data]. *)
Definition onWindowMessage (source : option window) (msg : message)
    (s : state) : state :=
  if negb (window_eqb source (frameWindow s)) then s
  else
    match msg with
    | EXPANSION_RESULT acronym expansion =>
        let s := set_cache (fun c =>
                   {| expansions := <[acronym := expansion]> (expansions c);
                      pending := pending c |}) s in
        match pending (cache s) !! acronym with
        | Some resolver =>
            let s := set_cache (fun c =>
                       {| expansions := expansions c;
                          pending := delete acronym (pending c) |}) s in
            resume resolver expansion s
        | None => s
        end
    | EXPAND_ACRONYM _ => s
    end.

(** [handleMouseOut()] *)
Definition handleMouseOut (s : state) : state :=
  match element (tooltipState s) with
  | Some _ =>
      let id := nextTimer s in
      State {| element := element (tooltipState s); hideTimeout := Some id |}
        (cache s) (body s) (contentWindow s) (posted s) (awaiting s)
        (nextPromise s) (timers s ++ [id]) (S id) (console s)
  | None => s
  end.

(** The callback scheduled by [handleMouseOut], when timer [id] elapses. *)
Definition onTimeout (id : nat) (s : state) : state :=
  if bool_decide (id ∈ timers s) then
    let s := set_timers (filter (fun j => j ≠ id)) s in
    set_tooltipState (fun ts =>
      {| element :=
           match element ts with
           | Some t => Some (Tooltip (tip_text t) "none" (tip_left t) (tip_top t))
           | None => None
           end;
         hideTimeout := hideTimeout ts |}) s
  else s.

(** [handleSettingsChange(settings)]; [None] only when the scan of
    [processPage] runs out of fuel. *)
Definition handleSettingsChange (extensionEnabled : bool) (s : state)
  : option state :=
  if negb extensionEnabled then Some (set_body (unmarkAll (body s)) s)
  else d ← processPage (body s); Some (set_body d s).

Inductive event :=
| MouseOver (tgt : target)
| MouseOut
| WindowMessage (source : option window) (msg : message)
| Timeout (id : nat)
| SETTINGS_CHANGED (extensionEnabled : bool).

Definition handle (e : event) (s : state) : option state :=
  match e with
  | MouseOver tgt => Some (handleMouseOver tgt s)
  | MouseOut => Some (handleMouseOut s)
  | WindowMessage source msg => Some (onWindowMessage source msg s)
  | Timeout id => Some (onTimeout id s)
  | SETTINGS_CHANGED enabled => handleSettingsChange enabled s
  end.

Fixpoint handleAll (es : list event) (s : state) : option state :=
  match es with
  | [] => Some s
  | e :: es' => s' ← handle e s; handleAll es' s'
  end.

(** The expander after [initialize] on a page with the given body. *)
Definition initial (d : node) : state :=
  State {| element := None; hideTimeout := None |}
    {| expansions := ∅; pending := ∅ |}
    d true [] [] 0 [] 0 [].

End AcronymExpander.

(** ** The isolated frame: the listener that asks the language model *)

Module ExpansionFrame.
Import JsString AcronymExpander.

(** What an awaited call into the language model does: its promise is
    rejected ([await] throws), is fulfilled with a value, or never settles,
    and then the listener stays suspended at its [await] for good. *)
Inductive outcome (A : Type) := Throws | Returns (a : A) | NeverSettles.
Arguments Throws {A}.
Arguments Returns {A} a.
Arguments NeverSettles {A}.

(** The model as the listener sees it for one request: whether
    [languageModel.create] succeeds (asked only when no session exists)
    and what [aiSession.prompt] does. *)
Record model := Model {
  create : outcome unit;
  prompt : outcome string
}.

(** [sendExpansionResult(acronym, expansion)] *)
Definition sendExpansionResult (acronym expansion : string) : message :=
  EXPANSION_RESULT acronym (trim expansion).

(** The listener: the new value of [aiSession] (is there a session) and
    the messages posted to the parent window. *)
Definition onMessage (fromParent : bool) (msg : message) (ai : model)
    (aiSession : bool) : bool * list message :=
  if negb fromParent then (aiSession, [])
  else
    match msg with
    | EXPAND_ACRONYM acronym =>
        if negb (truthy acronym) then (aiSession, [])
        else
          match (if aiSession then Returns () else create ai) with
          | Throws => (aiSession, [sendExpansionResult acronym ""])
          | NeverSettles => (aiSession, [])
          | Returns _ =>
              match prompt ai with
              | Throws => (true, [sendExpansionResult acronym ""])
              | NeverSettles => (true, [])
              | Returns response =>
                  let result := trim response in
                  if includes (toLowerCase result) "not a tech term"
                  then (true, [sendExpansionResult acronym ""])
                  else (true, [sendExpansionResult acronym result])
              end
          end
    | EXPANSION_RESULT _ _ => (aiSession, [])
    end.

End ExpansionFrame.

(** ** Notions used to state the properties *)

Module Notions.
Import JsString Regex Dom AcronymExpander ExpansionFrame.

(** Is the first character of [l] a word character. *)
Definition headWord (l : list ascii) : bool :=
  match l with c :: _ => isWordChar c | [] => false end.

(** Word characters only. *)
Definition allWord (w : list ascii) : bool := forallb isWordChar w.

(** The names and suffixes of the last alternative of the expression. *)
Definition frameworkNames : list (list ascii) :=
  map chars ["Node"; "Web"; "React"; "Vue"; "Next"].
Definition jsSuffixes : list (list ascii) := [[]; chars "js"; chars "JS"].

(** The matches that contain the literal dot. *)
Definition dotted (w : list ascii) : Prop :=
  exists name sfx, name ∈ frameworkNames /\ sfx ∈ jsSuffixes
                   /\ w = name ++ chars "." ++ sfx.

(** Is there a word character at index [i] of [l]. *)
Definition wordAt (l : list ascii) (i : nat) : bool :=
  from_option isWordChar false (l !! i).

(** At index [k] of [l] the expression matches nothing the scan would
    accept. *)
Definition rejectedAt (l : list ascii) (k : nat) : Prop :=
  forall e w,
    matchAt acronymPattern (cursor_at l k) = Some e ->
    consumed (cursor_at l k) w e ->
    shouldSkipAcronym (of_chars w) = true.

Definition quiet (l : list ascii) (p q : nat) : Prop :=
  forall k, p <= k < q -> rejectedAt l k.

(** A word character before index [p] is not followed by one. *)
Definition leftClosed (l : list ascii) (p : nat) : Prop :=
  wordBefore (cursor_at l p) = true -> wordAt l p = false.

(** Index [q] is the end of the text or the start of a word. *)
Definition rightClosed (l : list ascii) (q : nat) : Prop :=
  q = List.length l
  \/ (wordAt l q = true /\ wordBefore (cursor_at l q) = false).

(** The text of a node: [textContent], as characters. *)
Fixpoint textChars (n : node) : list ascii :=
  match n with
  | Text t => chars t
  | Element _ _ _ children => concat (map textChars children)
  end.

(** A text node that [processTextNode] leaves in place. *)
Definition inert (f : string) : Prop :=
  exists r, processTextNode f = Some r /\ replacement r = None.

(** The two kinds of fragment the loop builds. *)
Inductive goodFragment : node -> Prop :=
| good_text f : inert f -> goodFragment (Text f)
| good_span a : goodFragment (markSpan a).

(** What holds of the loop's variables each time round: the accepted
    matches so far end at [lastIndex]; nothing between [lastIndex] and the
    expression's own index [i] is acceptable; the fragments built so far
    spell the text up to [lastIndex], and each is a marked span or a text
    that a later scan leaves alone. *)
Record loopInv (l : list ascii) (i : nat) (st : loop_state) : Prop := {
  inv_range : lastIndex st <= i <= List.length l;
  inv_left : leftClosed l (lastIndex st);
  inv_quiet : quiet l (lastIndex st) i;
  inv_good : Forall goodFragment (fragments st);
  inv_text : concat (map textChars (fragments st)) = take (lastIndex st) l
}.

(** The successive results of [exec] in the loop of [processTextNode],
    and those among them that pass the exclusion test. *)
Fixpoint execAll (fuel : nat) (text : string) (reIndex : nat)
  : option (list match_result) :=
  match fuel with
  | O => None
  | S fuel' =>
      match exec acronymPattern text reIndex with
      | None => Some []
      | Some (m, reIndex') => ms ← execAll fuel' text reIndex'; Some (m :: ms)
      end
  end.

Definition rawMatches (text : string) : option (list match_result) :=
  execAll (scan_fuel text) text 0.

Definition accepted (ms : list match_result) : list match_result :=
  filter (fun m => shouldSkipAcronym (matched m) = false) ms.

(** The exclusion rule in the words of the specification, to be compared
    with [shouldSkipAcronym] and with what the loop does: the token is in
    the fixed skip-set or is longer than 12 characters. *)
Definition excludedBySpec (token : string) : Prop :=
  token ∈ ["USA"; "UK"; "EU"; "UN"; "Mr"; "Mrs"; "Ms"; "Dr"; "AM"; "PM"]
  \/ 12 < JsString.length token.

Definition acceptedMatches (text : string) : option (list match_result) :=
  accepted <$> rawMatches text.

(** [within e root]: [e] is [root] or a node below it. *)
Inductive within (e : node) : node -> Prop :=
| within_here : within e e
| within_child tag classes acronym children c :
    c ∈ children -> within e c ->
    within e (Element tag classes acronym children).

(** The tree without its class lists, and the class lists of its elements
    in document order. *)
Fixpoint eraseClasses (n : node) : node :=
  match n with
  | Text _ => n
  | Element tag _ acronym children =>
      Element tag [] acronym (map eraseClasses children)
  end.

Fixpoint classLists (n : node) : list (list string) :=
  match n with
  | Text _ => []
  | Element _ classes _ children =>
      classes :: concat (map classLists children)
  end.

(** Is the event a response of the frame for [term]. *)
Definition answers (term : string) (e : event) : bool :=
  match e with
  | WindowMessage _ (EXPANSION_RESULT acronym _) => String.eqb acronym term
  | _ => false
  end.

(** The activations of [handleMouseOver] waiting for promise [p]. *)
Definition waitingFor (p : nat) (s : state) : list target :=
  snd <$> filter (fun a => a.1 = p) (awaiting s).

(** [term] is being resolved: nothing is cached for it, its pending entry
    holds the [resolve] function of promise [p], the hover on [tgt] waits
    for [p], and no other term's entry names [p]. *)
Definition inFlight (term : string) (p : nat) (tgt : target) (s : state) : Prop :=
  expansions (cache s) !! term = None
  /\ pending (cache s) !! term = Some p
  /\ (p, tgt) ∈ awaiting s
  /\ p < nextPromise s
  /\ forall t q, pending (cache s) !! t = Some q -> t ≠ term -> q ≠ p.

(** The target is a marked span carrying [acronym]. *)
Definition marked (tgt : target) (acronym : string) : Prop :=
  exists tag classes children,
    target_node tgt = Element tag classes (Some acronym) children
    /\ markerClass ∈ classes /\ acronym ≠ "".

(** Does the frame's call into the language model throw: creating the
    session (when there is none) or prompting it. *)
Definition modelThrows (ai : model) (aiSession : bool) : bool :=
  match (if aiSession then Returns () else create ai) with
  | Throws => true
  | Returns _ =>
      match prompt ai with
      | Throws => true
      | Returns _ | NeverSettles => false
      end
  | NeverSettles => false
  end.

(** Do the frame's calls into the language model settle: the creation of
    the session (when there is none) throws, or it returns and the prompt
    throws or returns. *)
Definition modelSettles (ai : model) (aiSession : bool) : bool :=
  match (if aiSession then Returns () else create ai) with
  | Throws => true
  | Returns _ =>
      match prompt ai with
      | Throws | Returns _ => true
      | NeverSettles => false
      end
  | NeverSettles => false
  end.

(** The model answers [response]: there is a session or one is created,
    and the prompt returns [response]. *)
Definition modelAnswers (ai : model) (aiSession : bool) (response : string)
  : Prop :=
  (if aiSession then Returns () else create ai) = Returns ()
  /\ prompt ai = Returns response.

(** The two outcomes of a hover.  [noRequest]: nothing is posted, and the
    cache, the waiters and the promises stay as they are.  [newRequest]:
    a promise is created for a term that has no pending entry and no
    non-empty expansion, and the request is posted when the frame's window
    is there. *)
Definition noRequest (s s' : state) : Prop :=
  cache s' = cache s /\ awaiting s' = awaiting s
  /\ nextPromise s' = nextPromise s /\ posted s' = posted s
  /\ body s' = body s.

Definition newRequest (tgt : target) (acronym : string) (s s' : state) : Prop :=
  marked tgt acronym
  /\ pending (cache s) !! acronym = None
  /\ (expansions (cache s) !! acronym = None
      \/ expansions (cache s) !! acronym = Some "")
  /\ cache s' = {| expansions := expansions (cache s);
                   pending := <[acronym := nextPromise s]> (pending (cache s)) |}
  /\ awaiting s' = awaiting s ++ [(nextPromise s, tgt)]
  /\ nextPromise s' = S (nextPromise s)
  /\ posted s' = (if contentWindow s
                  then posted s ++ [EXPAND_ACRONYM acronym]
                  else posted s)
  /\ body s' = body s.

End Notions.

(** ** Sample pages, targets and answers *)

Module Samples.
Import Dom AcronymExpander ExpansionFrame.

Definition paragraph : node :=
  Element "P" [] None [Text "Check the GPU and HDR settings"].

Definition tableCell : node := Element "TD" [] None [Text "API"].

(** Two marked spans for the term GPU, at different places of the page. *)
Definition gpuA : target := Target (markSpan "GPU") (Rect 10 20).
Definition gpuB : target := Target (markSpan "GPU") (Rect 30 40).
Definition xyz : target := Target (markSpan "XYZ") (Rect 50 60).

Definition fromFrame (msg : message) : event :=
  WindowMessage (Some FrameWindow) msg.

(** The page after one hover over GPU, the request not yet answered. *)
Definition hovered : state := handleMouseOver gpuA (initial paragraph).

(** The page when the frame's window is missing. *)
Definition frameless : state :=
  State {| element := None; hideTimeout := None |}
    {| expansions := ∅; pending := ∅ |}
    paragraph false [] [] 0 [] 0 [].

(** A model whose [prompt] throws. *)
Definition broken : model := Model (Returns ()) Throws.

(** Two answers of the language model. *)
Definition notTech : model := Model (Returns ()) (Returns "  NOT a Tech Term ").
Definition tech : model :=
  Model (Returns ()) (Returns "XYZ: Example Zone: a made-up term").

End Samples.

(** ** processPage: the text nodes it collects, its batches and its report *)

Module PageReport.
Import JsString Dom AcronymExpander.

(** The [nextNode] loop of the tree walker: the text of every accepted
    text node below an element, in document order. *)
Fixpoint textNodesBelow (parentTag : string) (parentClasses : list string)
    (n : node) : list string :=
  match n with
  | Text text => if acceptNode parentTag parentClasses then [text] else []
  | Element tag classes _ children =>
      concat (map (textNodesBelow tag classes) children)
  end.

(** The walker never returns its root. *)
Definition textNodes (root : node) : list string :=
  match root with
  | Text _ => []
  | Element tag classes _ children =>
      concat (map (textNodesBelow tag classes) children)
  end.

Definition BATCH_SIZE : nat := 50.

(** [array.slice(from, to)] for [from <= to]. *)
Definition array_slice {A} (l : list A) (from to : nat) : list A :=
  take (to - from) (drop from l).

(** [for (let i = 0; i < textNodes.length; i += BATCH_SIZE)] with
    [batch = textNodes.slice(i, i + BATCH_SIZE)]: the batches from index
    [i] on.  The loop runs at most once per text node. *)
Fixpoint batchesFrom {A} (fuel i : nat) (textNodes : list A) : list (list A) :=
  match fuel with
  | O => []
  | S fuel' =>
      if (i <? List.length textNodes)%nat
      then array_slice textNodes i (i + BATCH_SIZE)
           :: batchesFrom fuel' (i + BATCH_SIZE) textNodes
      else []
  end.

Definition batches {A} (textNodes : list A) : list (list A) :=
  batchesFrom (List.length textNodes) 0 textNodes.

(** What [processPage] writes to the console. *)
Inductive page_log :=
| FoundTerms (terms : list string)
| GroupStart
| TotalUniqueTerms (size : nat)
| TermLine (term context : string)
| GroupEnd.

(** [allTermsFound] is a Map; its entries are kept in insertion order. *)
Record report := Report {
  allTermsFound : list (string * string);
  debugLog : list page_log
}.

(** [if (!allTermsFound.has(term)) allTermsFound.set(term, context)] *)
Definition noteTerm (context : string) (found : list (string * string))
    (term : string) : list (string * string) :=
  if bool_decide (term ∈ found.*1) then found else found ++ [(term, context)].

(** The callback of [batch.map] after its [await]. *)
Definition noteResult (st : report) (r : text_result) : report :=
  if (0 <? List.length (terms r))%nat
  then {| allTermsFound :=
            foldl (noteTerm (context r)) (allTermsFound st) (terms r);
          debugLog := debugLog st ++ [FoundTerms (terms r)] |}
  else st.

(** [await Promise.all(batch.map(...))]: every node of the batch is
    scanned, then the callbacks continue in the order of the nodes. *)
Definition processBatch (st : report) (batch : list string) : option report :=
  results ← mapM processTextNode batch;
  Some (foldl noteResult st results).

Fixpoint processBatches (bs : list (list string)) (st : report)
  : option report :=
  match bs with
  | [] => Some st
  | batch :: bs' => st' ← processBatch st batch; processBatches bs' st'
  end.

(** The consolidated log at the end; each context is printed trimmed. *)
Definition summary (found : list (string * string)) : list page_log :=
  if (0 <? List.length found)%nat
  then [GroupStart; TotalUniqueTerms (List.length found)]
       ++ map (fun entry => TermLine entry.1 (trim entry.2)) found
       ++ [GroupEnd]
  else [].

(** The terms [processPage(root)] has collected when it ends. *)
Definition termsOnPage (root : node) : option (list (string * string)) :=
  st ← processBatches (batches (textNodes root)) (Report [] []);
  Some (allTermsFound st).

(** Everything [processPage(root)] writes to the console. *)
Definition processPage_console (root : node) : option (list page_log) :=
  st ← processBatches (batches (textNodes root)) (Report [] []);
  Some (debugLog st ++ summary (allTermsFound st)).

(** *** The mutation observer

    The callback runs [processPage] on every added element.  Elements are
    added by the page's own scripts and by this script: the containers of
    [processTextNode] and the tooltip element of [showTooltip]. *)

Inductive mutation :=
| ChildList (addedNodes : list node)
| Attributes
| CharacterData.

Definition isElement (n : node) : bool :=
  match n with Element _ _ _ _ => true | Text _ => false end.

(** The observer's callback: the nodes it hands to [processPage], in
    order. *)
Definition observed (mutations : list mutation) : list node :=
  concat (map (fun mu =>
                 match mu with
                 | ChildList addedNodes => filter (fun n => isElement n = true) addedNodes
                 | _ => []
                 end) mutations).

(** The tooltip element as the first call of [showTooltip] leaves it:
    [div#acronym-tooltip], appended to [document.body], with the text set
    through [textContent] as its only child. *)
Definition tooltipElement (text : string) : node :=
  Element "DIV" [] None [Text text].

(** The records the observer receives after [showTooltip]: on the first
    call the appended element and the text node put into it, on every
    later call the new text node only. *)
Definition firstShowRecords (text : string) : list mutation :=
  [ChildList [tooltipElement text]; ChildList [Text text]].

Definition laterShowRecords (text : string) : list mutation :=
  [ChildList [Text text]].

End PageReport.

(** ** Notions for the invariants of the scan and of the handlers *)

Module Invariants.
Import JsString Regex Dom AcronymExpander ExpansionFrame Notions PageReport.

(** A text the scan passes over: the node stays, no term is found and
    the context stays empty. *)
Definition silent (f : string) : Prop :=
  processTextNode f = Some (TextResult None [] "").

(** The children of a container as the loop builds them. *)
Inductive builtFragment : node -> Prop :=
| built_text f : f ≠ "" -> silent f -> builtFragment (Text f)
| built_span a :
    shouldSkipAcronym a = false -> 2 <= JsString.length a <= 12 ->
    builtFragment (markSpan a).

(** The elements among the children of a container. *)
Definition spans (frs : list node) : list node :=
  filter (fun n => isElement n = true) frs.

(** The values of a list in the order of their first occurrence. *)
Definition firstOccurrences (l : list string) : list string :=
  rev (remove_dups (rev l)).

(** The matches lie in the text one after the other from index [i] on,
    each at least two characters long and equal to the text at its
    index. *)
Fixpoint apart (text : string) (i : nat) (ms : list match_result) : Prop :=
  match ms with
  | [] => True
  | m :: ms' =>
      i <= index m
      /\ 2 <= JsString.length (matched m)
      /\ index m + JsString.length (matched m) <= JsString.length text
      /\ slice text (index m) (index m + JsString.length (matched m)) = matched m
      /\ apart text (index m + JsString.length (matched m)) ms'
  end.

(** The elements of a tree in document order: tag name, class list and
    data attribute. *)
Fixpoint elements (n : node) : list (string * list string * option string) :=
  match n with
  | Text _ => []
  | Element tag classes acronym children =>
      (tag, classes, acronym) :: concat (map elements children)
  end.

(** The two kinds of element the scan creates: the container and the
    marked span of a term that passes the exclusion test. *)
Definition createdSpan (e : string * list string * option string) : Prop :=
  e = ("SPAN", [], None)
  \/ exists a, shouldSkipAcronym a = false /\ e = ("SPAN", [markerClass], Some a).

(** Requests and suspended hovers correspond one to one: every waiting
    activation waits for the promise stored under the term of its target,
    every pending entry has its waiter, no two waiters share a promise,
    and each promise has posted one request. *)
Record coherent (s : state) : Prop := {
  coh_nodup : NoDup (awaiting s).*1;
  coh_waiter : forall p tgt, (p, tgt) ∈ awaiting s ->
    p < nextPromise s
    /\ exists a, marked tgt a /\ pending (cache s) !! a = Some p;
  coh_pending : forall a p, pending (cache s) !! a = Some p ->
    exists tgt, (p, tgt) ∈ awaiting s /\ marked tgt a;
  coh_posted : contentWindow s = true -> List.length (posted s) = nextPromise s
}.

(** A word of capitals and digits that begins with two capitals: what the
    first alternative of the expression is written for. *)
Definition capitals (w : list ascii) : Prop :=
  exists a b rest,
    w = a :: b :: rest /\ isUpper a = true /\ isUpper b = true
    /\ Forall (fun c => isUpper c = true \/ isDigit c = true) rest.

(** The character before the word, if there is one, is neither a word
    character nor a dot. *)
Definition openBefore (pre : list ascii) : Prop :=
  match last pre with
  | Some c => isWordChar c = false /\ c <> "."%char
  | None => True
  end.

(** The requests for [term] among the messages posted to the frame, and
    the frame's answers for [term] among the events. *)
Definition isRequestFor (term : string) (msg : message) : bool :=
  match msg with
  | EXPAND_ACRONYM a => String.eqb a term
  | EXPANSION_RESULT _ _ => false
  end.

Definition requestsFor (term : string) (msgs : list message) : nat :=
  List.length (filter (fun msg => isRequestFor term msg = true) msgs).

Definition isFrameAnswerFor (term : string) (e : event) : bool :=
  match e with
  | WindowMessage (Some FrameWindow) (EXPANSION_RESULT a _) => String.eqb a term
  | _ => false
  end.

Definition answersFor (term : string) (es : list event) : nat :=
  List.length (filter (fun e => isFrameAnswerFor term e = true) es).

(** One when a request for [term] is waiting for its answer. *)
Definition inFlightFor (term : string) (s : state) : nat :=
  match pending (cache s) !! term with Some _ => 1 | None => 0 end.

(** The first character, if there is one, is no white space. *)
Definition headSolid (l : list ascii) : Prop :=
  match l with c :: _ => isSpace c = false | [] => True end.

(** The tooltip, when there is one, carries a text that is not blank and
    is shown or hidden. *)
Definition tooltipOk (s : state) : Prop :=
  forall t, element (tooltipState s) = Some t ->
    truthy (trim (tip_text t)) = true
    /\ (tip_display t = "block" \/ tip_display t = "none").

End Invariants.

(** ** A sample state with an answered request *)

Module MoreSamples.
Import Dom AcronymExpander ExpansionFrame Samples.

(** The page after the hover over GPU has been answered: the expansion is
    cached and the tooltip is shown. *)
Definition answered : state :=
  onWindowMessage (Some FrameWindow)
    (EXPANSION_RESULT "GPU" "Graphics Processing Unit") hovered.

(** A model whose [prompt] is never settled. *)
Definition silentModel : model := Model (Returns ()) NeverSettles.

End MoreSamples.

(** * Properties *)

(** ** The matcher against its declarative reading *)

Module RegexFacts.
Import JsString Regex Notions.

Lemma consumed_refl x : consumed x [] x.
Proof. by split. Qed.

Lemma consumed_trans x y z w1 w2 :
  consumed x w1 y -> consumed y w2 z -> consumed x (w1 ++ w2) z.
Proof.
  intros [H1 H2] [H3 H4]. split.
  - by rewrite H1, H3, app_assoc.
  - by rewrite H4, H2, rev_app_distr, app_assoc.
Qed.

Lemma consumed_length x w y :
  consumed x w y ->
  List.length (after x) = List.length w + List.length (after y)
  /\ endIndex y = List.length w + endIndex x.
Proof.
  intros [H1 H2]. unfold endIndex.
  rewrite H1, H2, !length_app, length_rev. done.
Qed.

Lemma consumed_inj x w1 w2 y : consumed x w1 y -> consumed x w2 y -> w1 = w2.
Proof.
  intros [H1 _] [H2 _]. rewrite H1 in H2.
  by apply app_inv_tail in H2.
Qed.

Lemma consumed_self x w : consumed x w x -> w = [].
Proof. intros H. by apply (consumed_inj x w [] x). Qed.

Lemma consumed_cursor x w y :
  consumed x w y -> y = Cursor (rev w ++ before x) (drop (List.length w) (after x)).
Proof.
  intros [H1 H2]. destruct y as [b a]; simpl in *. subst b.
  by rewrite H1, drop_app_length.
Qed.

Lemma advance_consumed x c y : advance x = Some (c, y) -> consumed x [c] y.
Proof.
  unfold advance. destruct x as [b [|c' a]]; simpl; [done|].
  intros [= <- <-]. by split.
Qed.

(** A match moves the cursor right, over at least [minLen r] characters,
    all of them from the classes of [r]. *)
Lemma matches_consumed r x y :
  matches r x y ->
  exists w, consumed x w y /\ minLen r <= List.length w
            /\ forall P, classesWithin P r -> Forall (fun c => P c = true) w.
Proof.
  induction 1 as
    [x|p c x y Hadv Hp|r1 r2 x y z _ IH1 _ IH2|r1 r2 x y _ IH|r1 r2 x y _ IH
    |r x|r x y z _ IH1 Hne _ IH2|x Hb]; simpl.
  - exists []. split; [apply consumed_refl|]. split; [done|]. by constructor.
  - exists [c]. split; [by apply advance_consumed|]. split; [done|].
    intros P HP. constructor; [by apply HP|constructor].
  - destruct IH1 as (w1 & C1 & L1 & F1), IH2 as (w2 & C2 & L2 & F2).
    exists (w1 ++ w2). split; [by eapply consumed_trans|].
    split; [rewrite length_app; lia|].
    intros P [HP1 HP2]. apply Forall_app; auto.
  - destruct IH as (w & C & L & F). exists w. split; [done|].
    split; [lia|]. intros P [HP _]; auto.
  - destruct IH as (w & C & L & F). exists w. split; [done|].
    split; [lia|]. intros P [_ HP]; auto.
  - exists []. split; [apply consumed_refl|]. split; [done|]. by constructor.
  - destruct IH1 as (w1 & C1 & L1 & F1), IH2 as (w2 & C2 & L2 & F2).
    exists (w1 ++ w2). split; [by eapply consumed_trans|].
    split; [lia|]. intros P HP. apply Forall_app; auto.
  - exists []. split; [apply consumed_refl|]. split; [done|]. by constructor.
Qed.

Lemma orElse_Some {A} (a b : option A) z :
  orElse a b = Some z -> a = Some z \/ (a = None /\ b = Some z).
Proof. destruct a; simpl; auto. Qed.

Lemma orElse_is_Some {A} (a b : option A) :
  is_Some a \/ is_Some b -> is_Some (orElse a b).
Proof. destruct a; simpl; [eauto|]. intros [[? [=]]|?]; done. Qed.

Section Soundness.
Variable r : regex.
Variable k : cursor -> option cursor.
Hypothesis IH : forall x k z,
  run r x k = Some z -> exists y, matches r x y /\ k y = Some z.

Lemma repeat_sound fuel : forall x z,
  repeatMatcher (run r) k fuel x = Some z ->
  exists y, matches (Star r) x y /\ k y = Some z.
Proof.
  induction fuel as [|fuel IHf]; intros x z; simpl.
  - intros Hk. exists x. split; [constructor|done].
  - intros [H|[_ H]]%orElse_Some.
    + apply IH in H as (y & My & Hy).
      destruct (endIndex y =? endIndex x)%nat eqn:E; [done|].
      apply Nat.eqb_neq in E.
      apply IHf in Hy as (y' & My' & Hy').
      exists y'. split; [|done]. by eapply M_star_step.
    + exists x. split; [constructor|done].
Qed.
End Soundness.

(** Whatever the matcher returns comes from a declared match followed by
    the continuation. *)
Lemma run_sound r : forall x k z,
  run r x k = Some z -> exists y, matches r x y /\ k y = Some z.
Proof.
  induction r as [|p|r1 IH1 r2 IH2|r1 IH1 r2 IH2|r IH|]; intros x k z; simpl.
  - intros H. exists x. split; [constructor|done].
  - destruct (advance x) as [[c y]|] eqn:E; [|done].
    destruct (p c) eqn:Ep; [|done].
    intros H. exists y. split; [by econstructor|done].
  - intros H. apply IH1 in H as (y & My & H).
    apply IH2 in H as (y' & My' & H).
    exists y'. split; [by econstructor|done].
  - intros [H|[_ H]]%orElse_Some.
    + apply IH1 in H as (y & My & H). exists y. split; [by apply M_alt_l|done].
    + apply IH2 in H as (y & My & H). exists y. split; [by apply M_alt_r|done].
  - by apply repeat_sound.
  - destruct (isBoundary x) eqn:E; [|done].
    intros H. exists x. split; [by constructor|done].
Qed.

(** Every declared match whose continuation succeeds makes the matcher
    succeed (on that path or on one tried before it). *)
Lemma run_complete_strong r x y :
  matches r x y ->
  forall k, is_Some (k y) ->
    is_Some (run r x k)
    /\ match r with
       | Star r1 => forall fuel, List.length (after x) <= fuel ->
                      is_Some (repeatMatcher (run r1) k fuel x)
       | _ => True
       end.
Proof.
  induction 1 as
    [x|p c x y Hadv Hp|r1 r2 x y z _ IH1 _ IH2|r1 r2 x y _ IH|r1 r2 x y _ IH
    |r x|r x y z M1 IH1 Hne _ IH2|x Hb]; intros k Hk; simpl.
  - done.
  - by rewrite Hadv, Hp.
  - split; [|done]. apply IH1. by apply IH2.
  - split; [|done]. apply orElse_is_Some. left. by apply IH.
  - split; [|done]. apply orElse_is_Some. right. by apply IH.
  - assert (forall fuel, is_Some (repeatMatcher (run r) k fuel x)) as Hf.
    { intros [|fuel]; simpl; [done|]. apply orElse_is_Some. by right. }
    split; [apply Hf|]. intros fuel _. apply Hf.
  - assert (forall fuel, List.length (after x) <= fuel ->
              is_Some (repeatMatcher (run r) k fuel x)) as Hf.
    { intros fuel Hfuel.
      apply matches_consumed in M1 as (w & C & _ & _).
      apply consumed_length in C as [C1 C2].
      destruct fuel as [|fuel]; [lia|]. simpl.
      apply orElse_is_Some. left. apply IH1.
      destruct (endIndex y =? endIndex x)%nat eqn:E.
      { apply Nat.eqb_eq in E. done. }
      apply IH2; [done|]. lia. }
    split; [by apply Hf|done].
  - by rewrite Hb.
Qed.

Lemma run_complete r x y k :
  matches r x y -> is_Some (k y) -> is_Some (run r x k).
Proof. intros M Hk. by apply (run_complete_strong r x y M k Hk). Qed.

Lemma matchAt_sound r x e : matchAt r x = Some e -> matches r x e.
Proof.
  intros H. apply run_sound in H as (y & M & [= ->]). done.
Qed.

Lemma matchAt_complete r x y : matches r x y -> is_Some (matchAt r x).
Proof. intros M. by apply (run_complete r x y). Qed.

(** *** The fuel of the star never runs out

    The matcher asks its continuation only about cursors to the right of
    where it started, so a star given more fuel than characters left does
    what it does with exactly that many. *)

Lemma run_ext r : forall x k k',
  (forall y w, consumed x w y -> k y = k' y) ->
  run r x k = run r x k'.
Proof.
  induction r as [|p|r1 IH1 r2 IH2|r1 IH1 r2 IH2|r IH|]; intros x k k' H; simpl.
  - apply (H x []), consumed_refl.
  - destruct (advance x) as [[c y]|] eqn:E; [|done].
    destruct (p c); [|done]. apply (H y [c]). by apply advance_consumed.
  - apply IH1. intros y w C. apply IH2. intros z w' C'.
    apply (H z (w ++ w')). by eapply consumed_trans.
  - by rewrite (IH1 x k k'), (IH2 x k k').
  - generalize (List.length (after x)). intros fuel. revert x H.
    induction fuel as [|fuel IHf]; intros x H; simpl.
    + apply (H x []), consumed_refl.
    + rewrite (H x [] (consumed_refl x)). f_equal.
      apply IH. intros y w C. destruct (endIndex y =? endIndex x)%nat; [done|].
      apply IHf. intros z w' C'. apply (H z (w ++ w')). by eapply consumed_trans.
  - destruct (isBoundary x); [|done]. apply (H x []), consumed_refl.
Qed.

Lemma repeat_more_fuel r k : forall fuel x,
  List.length (after x) <= fuel ->
  repeatMatcher (run r) k (S fuel) x = repeatMatcher (run r) k fuel x.
Proof.
  induction fuel as [|fuel IH]; intros x Hx.
  - cbn [repeatMatcher].
    destruct (run r x _) as [z|] eqn:E; [|done]. exfalso.
    apply run_sound in E as (y & M & Hy).
    apply matches_consumed in M as (w & C & _).
    apply consumed_length in C as [C1 C2].
    assert (endIndex y = endIndex x) as Heq by lia.
    apply Nat.eqb_eq in Heq. by rewrite Heq in Hy.
  - change (repeatMatcher (run r) k (S (S fuel)) x)
      with (orElse (run r x (fun y =>
                      if (endIndex y =? endIndex x)%nat then None
                      else repeatMatcher (run r) k (S fuel) y)) (k x)).
    change (repeatMatcher (run r) k (S fuel) x)
      with (orElse (run r x (fun y =>
                      if (endIndex y =? endIndex x)%nat then None
                      else repeatMatcher (run r) k fuel y)) (k x)).
    f_equal. apply run_ext. intros y w C.
    destruct (endIndex y =? endIndex x)%nat eqn:E; [done|].
    apply Nat.eqb_neq in E. apply consumed_length in C as [C1 C2].
    apply IH. lia.
Qed.

Lemma star_fuel r k x fuel :
  List.length (after x) <= fuel ->
  repeatMatcher (run r) k fuel x = run (Star r) x k.
Proof.
  simpl. induction 1 as [|fuel Hle IH]; [done|].
  by rewrite repeat_more_fuel.
Qed.

(** *** A match only looks at its own characters and one neighbour on
    each side *)

Lemma headWord_app w a b :
  headWord a = headWord b -> headWord (w ++ a) = headWord (w ++ b).
Proof. by destruct w. Qed.

Lemma consumed_nil x y : consumed x [] y -> y = x.
Proof. intros C. apply consumed_cursor in C. by destruct x. Qed.

Lemma consumed_split x w1 w2 z :
  consumed x (w1 ++ w2) z ->
  consumed x w1 (Cursor (rev w1 ++ before x) (w2 ++ after z))
  /\ consumed (Cursor (rev w1 ++ before x) (w2 ++ after z)) w2 z.
Proof.
  intros [H1 H2]. repeat split; simpl.
  - by rewrite H1, app_assoc.
  - by rewrite H2, rev_app_distr, app_assoc.
Qed.

Lemma matches_transport r x y :
  matches r x y ->
  forall w x' y',
    consumed x w y -> consumed x' w y' ->
    wordBefore x' = wordBefore x -> wordAfter y' = wordAfter y ->
    matches r x' y'.
Proof.
  induction 1 as
    [x|p c x y Hadv Hp|r1 r2 x y z M1 IH1 M2 IH2|r1 r2 x y _ IH|r1 r2 x y _ IH
    |r x|r x y z M1 IH1 Hne M2 IH2|x Hb]; intros w x' y' C C' HB HA.
  - apply consumed_self in C as ->. apply consumed_nil in C' as ->. constructor.
  - pose proof (consumed_inj _ _ _ _ C (advance_consumed _ _ _ Hadv)) as ->.
    destruct C' as [C1 C2]. apply M_chr with c; [|done].
    unfold advance. rewrite C1. simpl. destruct y' as [b a]; simpl in *.
    by rewrite C2.
  - destruct (matches_consumed _ _ _ M1) as (w1 & C1 & _).
    destruct (matches_consumed _ _ _ M2) as (w2 & C2 & _).
    pose proof (consumed_inj _ _ _ _ C (consumed_trans _ _ _ _ _ C1 C2)) as ->.
    destruct (consumed_split _ _ _ _ C') as [C1' C2'].
    eapply M_seq.
    + eapply IH1; [exact C1|exact C1'|done|].
      unfold wordAfter. simpl. destruct C2 as [-> _].
      by apply headWord_app.
    + eapply IH2; [exact C2|exact C2'| |done].
      unfold wordBefore. simpl. destruct C1 as [_ ->].
      by apply headWord_app.
  - apply M_alt_l. by eapply IH.
  - apply M_alt_r. by eapply IH.
  - apply consumed_self in C as ->. apply consumed_nil in C' as ->. constructor.
  - destruct (matches_consumed _ _ _ M1) as (w1 & C1 & _).
    destruct (matches_consumed _ _ _ M2) as (w2 & C2 & _).
    pose proof (consumed_inj _ _ _ _ C (consumed_trans _ _ _ _ _ C1 C2)) as ->.
    destruct (consumed_split _ _ _ _ C') as [C1' C2'].
    eapply M_star_step.
    + eapply IH1; [exact C1|exact C1'|done|].
      unfold wordAfter. simpl. destruct C2 as [-> _].
      by apply headWord_app.
    + apply consumed_length in C1 as [_ E1].
      apply consumed_length in C1' as [_ E1']. lia.
    + eapply IH2; [exact C2|exact C2'| |done].
      unfold wordBefore. simpl. destruct C1 as [_ ->].
      by apply headWord_app.
  - apply consumed_self in C as ->. apply consumed_nil in C' as ->.
    constructor. unfold isBoundary in *. by rewrite HB, HA.
Qed.

(** A literal matches exactly its characters. *)
Lemma matches_lit_chars l x y : matches (lit_chars l) x y -> consumed x l y.
Proof.
  revert x. induction l as [|c l IH]; intros x; simpl.
  - inversion 1; subst. apply consumed_refl.
  - inversion 1 as [| |? ? ? ym ? M1 M2| | | | |]; subst.
    inversion M1 as [|? c' ? ? Hadv Hc| | | | | |]; subst.
    apply Ascii.eqb_eq in Hc as <-.
    apply (consumed_trans x ym y [c] l); [by apply advance_consumed|by apply IH].
Qed.

End RegexFacts.

(** ** What the acronym expression can match *)

Module PatternFacts.
Import JsString Regex AcronymExpander Notions RegexFacts.

Lemma matches_seq_inv r1 r2 x z :
  matches (Seq r1 r2) x z -> exists y, matches r1 x y /\ matches r2 y z.
Proof. inversion 1; subst; eauto. Qed.

Lemma matches_alt_inv r1 r2 x y :
  matches (Alt r1 r2) x y -> matches r1 x y \/ matches r2 x y.
Proof. inversion 1; subst; eauto. Qed.

Lemma matches_eps_inv x y : matches Eps x y -> y = x.
Proof. by inversion 1. Qed.

Lemma matches_boundary_inv x y :
  matches WordBoundary x y -> y = x /\ isBoundary x = true.
Proof. by inversion 1. Qed.

Lemma matches_lit s x y : matches (lit s) x y -> consumed x (chars s) y.
Proof. apply matches_lit_chars. Qed.

Lemma Forall_allWord w :
  Forall (fun c => isWordChar c = true) w -> allWord w = true.
Proof. induction 1; simpl; [done|]. by apply andb_true_intro. Qed.

Lemma upper_word c : isUpper c = true -> isWordChar c = true.
Proof. unfold isWordChar. by intros ->. Qed.
Lemma lower_word c : isLower c = true -> isWordChar c = true.
Proof. unfold isWordChar. intros ->. by rewrite orb_true_r. Qed.
Lemma digit_word c : isDigit c = true -> isWordChar c = true.
Proof. unfold isWordChar. intros ->. by rewrite !orb_true_r. Qed.
Lemma letter_word a c :
  isWordChar a = true -> Ascii.eqb a c = true -> isWordChar c = true.
Proof. intros Ha E. by apply Ascii.eqb_eq in E as <-. Qed.

Lemma lit_within s :
  allWord (chars s) = true -> classesWithin isWordChar (lit s).
Proof.
  unfold lit. induction (chars s) as [|a l IH]; simpl; [done|].
  intros [Ha Hl]%andb_prop. split; [|by apply IH].
  intros c. by apply letter_word.
Qed.

(** Membership in, and case analysis on, a list written out. *)
Ltac member := apply list_elem_of_In; vm_compute; tauto.
Ltac cases H :=
  apply list_elem_of_In in H; vm_compute in H;
  repeat (destruct H as [H|H]; [symmetry in H; subst|]); [..|destruct H].

Ltac within_word :=
  unfold atLeast2, plus; cbn [classesWithin];
  repeat split;
  try (apply lit_within; by vm_compute);
  try (intros c; apply letter_word; by vm_compute);
  auto using upper_word, lower_word, digit_word.

(** The shape of every match of [acronymPattern]: between two word
    boundaries, at least two characters, and either made of word
    characters only or a framework name with its dot. *)
Lemma pattern_matches x y :
  matches acronymPattern x y ->
  isBoundary x = true /\ isBoundary y = true
  /\ exists w, consumed x w y /\ 2 <= List.length w
               /\ (allWord w = true \/ dotted w).
Proof.
  intros M. pose proof (matches_consumed _ _ _ M) as (w & C & L & _).
  change (minLen acronymPattern) with 2 in L.
  apply matches_seq_inv in M as (x1 & [-> Bx]%matches_boundary_inv & M).
  apply matches_seq_inv in M as (y1 & M & [E By]%matches_boundary_inv).
  subst y1.
  split; [done|]. split; [done|]. exists w. split; [done|]. split; [done|].
  assert (forall r, matches r x y -> classesWithin isWordChar r ->
                    allWord w = true) as word.
  { intros r Mr Hr. apply matches_consumed in Mr as (w' & C' & _ & F).
    pose proof (consumed_inj _ _ _ _ C C') as ->.
    apply Forall_allWord. by apply F. }
  apply matches_alt_inv in M as [M|M].
  { left. apply (word _ M). within_word. }
  apply matches_alt_inv in M as [M|M].
  { left. apply (word _ M). within_word. }
  apply matches_alt_inv in M as [M|M].
  { left. apply (word _ M). within_word. }
  apply matches_seq_inv in M as (y2 & Mn & M).
  apply matches_seq_inv in M as (y3 & Md & Ms).
  assert (exists name, name ∈ frameworkNames /\ consumed x name y2)
    as (name & Hname & Cn).
  { repeat (apply matches_alt_inv in Mn as [Mn|Mn];
            [apply matches_lit in Mn; eexists; split; [|exact Mn]; member|]).
    apply matches_lit in Mn. eexists. split; [|exact Mn]. member. }
  assert (exists sfx, sfx ∈ jsSuffixes /\ consumed y3 sfx y) as (sfx & Hsfx & Cs).
  { apply matches_alt_inv in Ms as [Ms|Ms].
    - apply matches_alt_inv in Ms as [Ms|Ms];
        apply matches_lit in Ms; eexists; (split; [|exact Ms]); member.
    - apply matches_eps_inv in Ms as ->. exists []. split; [member|].
      apply consumed_refl. }
  apply matches_alt_inv in Md as [Md|Md].
  - right. apply matches_lit in Md. exists name, sfx.
    split; [done|]. split; [done|].
    apply (consumed_inj x _ _ y); [done|].
    eapply consumed_trans; [exact Cn|]. eapply consumed_trans; [exact Md|done].
  - left. apply matches_eps_inv in Md as ->.
    pose proof (consumed_inj _ _ _ _ C (consumed_trans _ _ _ _ _ Cn Cs)) as ->.
    unfold allWord. rewrite forallb_app.
    apply andb_true_intro. split.
    + cases Hname; by vm_compute.
    + cases Hsfx; by vm_compute.
Qed.

(** *** Two matches at one position *)

Lemma headWord_rev_allWord w rest :
  w <> [] -> allWord w = true -> headWord (rev w ++ rest) = true.
Proof.
  intros Hne Hw. destruct (exists_last Hne) as (w' & c & ->).
  unfold allWord in Hw. rewrite forallb_app in Hw.
  apply andb_prop in Hw as [_ Hc]. simpl in Hc.
  rewrite rev_app_distr. simpl. by destruct (isWordChar c).
Qed.

Lemma wordBefore_consumed x w y :
  consumed x w y -> w <> [] -> allWord w = true -> wordBefore y = true.
Proof.
  intros [_ H] Hne Hw. change (headWord (before y) = true). rewrite H.
  by apply headWord_rev_allWord.
Qed.

(** A run of word characters that ends at a word boundary cannot be
    continued by a word character. *)
Lemma word_run_maximal x w y c l :
  consumed x w y -> w <> [] -> allWord w = true -> isBoundary y = true ->
  after y = c :: l -> isWordChar c = false.
Proof.
  intros C Hne Hw By Ha.
  pose proof (wordBefore_consumed _ _ _ C Hne Hw) as Hb.
  unfold isBoundary in By. rewrite Hb in By.
  unfold wordAfter in By. rewrite Ha in By.
  by destruct (isWordChar c).
Qed.

Lemma word_run_unique x w1 y1 w2 y2 :
  consumed x w1 y1 -> consumed x w2 y2 ->
  w1 <> [] -> w2 <> [] -> allWord w1 = true -> allWord w2 = true ->
  isBoundary y1 = true -> isBoundary y2 = true ->
  w1 = w2.
Proof.
  intros C1 C2 N1 N2 W1 W2 B1 B2.
  pose proof (proj1 C1) as E1. pose proof (proj1 C2) as E2.
  rewrite E1 in E2. apply app_eq_app in E2 as (m & [[-> E]|[-> E]]).
  - destruct m as [|c m]; [by rewrite app_nil_r|].
    pose proof (word_run_maximal _ _ _ c (m ++ after y1) C2 N2 W2 B2 E) as Hc.
    unfold allWord in W1. rewrite forallb_app in W1. simpl in W1.
    rewrite Hc in W1. by rewrite andb_false_r in W1.
  - destruct m as [|c m]; [by rewrite app_nil_r|].
    pose proof (word_run_maximal _ _ _ c (m ++ after y2) C1 N1 W1 B1 E) as Hc.
    unfold allWord in W2. rewrite forallb_app in W2. simpl in W2.
    rewrite Hc in W2. by rewrite andb_false_r in W2.
Qed.

Lemma dotted_not_skipped w : dotted w -> shouldSkipAcronym (of_chars w) = false.
Proof.
  intros (name & sfx & Hn & Hs & ->).
  cases Hn; cases Hs; by vm_compute.
Qed.

Lemma name_not_skipped name :
  name ∈ frameworkNames ->
  shouldSkipAcronym (of_chars name) = false
  /\ allWord name = true /\ name <> [].
Proof. intros Hn. cases Hn; by vm_compute. Qed.

(** Next to a dotted match, the only run of word characters that can
    match at the same place is the bare framework name. *)
Lemma word_match_beside_dotted x w y w' y' :
  consumed x w y -> w <> [] -> allWord w = true -> isBoundary y = true ->
  consumed x w' y' -> dotted w' ->
  w ∈ frameworkNames.
Proof.
  intros C N W B C' (name & sfx & Hn & _ & ->).
  destruct (name_not_skipped _ Hn) as (_ & Wn & Nn).
  destruct (consumed_split _ _ _ _ C') as [Cn _].
  assert (w = name) as ->; [|done].
  eapply word_run_unique; [exact C|exact Cn|done..|].
  change (xorb (headWord (rev name ++ before x))
            (headWord ((chars "." ++ sfx) ++ after y')) = true).
  rewrite headWord_rev_allWord by done. reflexivity.
Qed.

(** A match that the exclusion test rejects is the only match at its
    position. *)
Lemma skipped_match_unique x w1 y1 w2 y2 :
  matches acronymPattern x y1 -> consumed x w1 y1 ->
  matches acronymPattern x y2 -> consumed x w2 y2 ->
  shouldSkipAcronym (of_chars w1) = true ->
  w2 = w1.
Proof.
  intros M1 C1 M2 C2 Hskip.
  apply pattern_matches in M1 as (_ & B1 & w1' & C1' & L1 & S1).
  apply pattern_matches in M2 as (_ & B2 & w2' & C2' & L2 & S2).
  pose proof (consumed_inj _ _ _ _ C1 C1') as <-.
  pose proof (consumed_inj _ _ _ _ C2 C2') as <-.
  assert (w1 <> []) as N1 by (intros ->; simpl in L1; lia).
  assert (w2 <> []) as N2 by (intros ->; simpl in L2; lia).
  destruct S1 as [W1|D1];
    [|by rewrite (dotted_not_skipped _ D1) in Hskip].
  destruct S2 as [W2|D2].
  - symmetry. by eapply word_run_unique.
  - pose proof (word_match_beside_dotted _ _ _ _ _ C1 N1 W1 B1 C2 D2) as Hn.
    apply name_not_skipped in Hn as (Hn & _). by rewrite Hn in Hskip.
Qed.

Lemma skipped_match_allWord x w y :
  matches acronymPattern x y -> consumed x w y ->
  shouldSkipAcronym (of_chars w) = true -> allWord w = true.
Proof.
  intros M C Hskip.
  apply pattern_matches in M as (_ & _ & w' & C' & _ & S).
  pose proof (consumed_inj _ _ _ _ C C') as <-.
  destruct S as [W|D]; [done|].
  by rewrite (dotted_not_skipped _ D) in Hskip.
Qed.

(** Every match starts with a word character. *)
Lemma match_starts_with_word x y :
  matches acronymPattern x y -> wordAfter x = true /\ wordBefore x = false.
Proof.
  intros M. apply pattern_matches in M as (Bx & _ & w & [C _] & L & S).
  assert (wordAfter x = true) as Ha.
  { unfold wordAfter. rewrite C. destruct S as [W|(name & sfx & Hn & _ & ->)].
    - destruct w as [|c w]; [simpl in L; lia|]. simpl in *.
      by apply andb_prop in W as [-> _].
    - cases Hn; by vm_compute. }
  split; [done|]. unfold isBoundary in Bx. rewrite Ha in Bx.
  by destruct (wordBefore x).
Qed.

End PatternFacts.

(** ** Cursors as indices into the text, and what [exec] returns *)

Module ScanFacts.
Import JsString Regex AcronymExpander Notions RegexFacts PatternFacts.

Lemma chars_of_chars l : chars (of_chars l) = l.
Proof. apply list_ascii_of_string_of_list_ascii. Qed.

Lemma of_chars_chars s : of_chars (chars s) = s.
Proof. apply string_of_list_ascii_of_string. Qed.

Lemma length_of_chars l : JsString.length (of_chars l) = List.length l.
Proof. unfold JsString.length. by rewrite chars_of_chars. Qed.

Lemma cursor_at_input l bef aft :
  rev bef ++ aft = l -> cursor_at l (List.length bef) = Cursor bef aft.
Proof.
  intros <-. unfold cursor_at.
  rewrite <- (length_rev bef) at 1 2.
  by rewrite take_app_length, drop_app_length, rev_involutive.
Qed.

Lemma endIndex_cursor_at l i : i <= List.length l -> endIndex (cursor_at l i) = i.
Proof.
  intros H. unfold endIndex, cursor_at. simpl.
  rewrite length_rev, length_take. lia.
Qed.

Lemma input_cursor_at l i : input (cursor_at l i) = l.
Proof.
  unfold input, cursor_at. simpl. by rewrite rev_involutive, take_drop.
Qed.

Lemma wordAfter_at l i : wordAfter (cursor_at l i) = wordAt l i.
Proof.
  unfold wordAfter, wordAt, cursor_at. simpl.
  revert i. induction l as [|c l IH]; intros [|i]; simpl; auto.
Qed.

Lemma wordBefore_at l i :
  i < List.length l -> wordBefore (cursor_at l (S i)) = wordAt l i.
Proof.
  intros Hi. unfold wordBefore, wordAt, cursor_at. cbn [before].
  destruct (lookup_lt_is_Some_2 l i Hi) as [c Hc].
  rewrite (take_S_r _ _ _ Hc), rev_app_distr, Hc. done.
Qed.

Lemma wordBefore_at_0 l : wordBefore (cursor_at l 0) = false.
Proof. unfold wordBefore, cursor_at. by rewrite take_0. Qed.

(** Moving right from index [i] over [w] ends at index [i + length w]. *)
Lemma consumed_cursor_at l i w y :
  i <= List.length l -> consumed (cursor_at l i) w y ->
  y = cursor_at l (i + List.length w)
  /\ i + List.length w <= List.length l
  /\ take (List.length w) (drop i l) = w.
Proof.
  intros Hi C. pose proof (consumed_length _ _ _ C) as [L1 L2].
  destruct C as [C1 C2]. simpl in C1.
  assert (i + List.length w <= List.length l) as Hle.
  { apply (f_equal List.length) in C1.
    rewrite length_drop, length_app in C1. lia. }
  split; [|split; [done|]].
  - destruct y as [b a]. simpl in *. subst b.
    rewrite <- (cursor_at_input l (rev w ++ rev (take i l)) a).
    + f_equal. rewrite length_app, !length_rev, length_take. lia.
    + rewrite rev_app_distr, !rev_involutive, <- app_assoc, <- C1.
      apply take_drop.
  - rewrite C1. by rewrite take_app_length.
Qed.

Lemma consumed_cursor_at_intro l i w :
  i + List.length w <= List.length l ->
  take (List.length w) (drop i l) = w ->
  consumed (cursor_at l i) w (cursor_at l (i + List.length w)).
Proof.
  intros Hle Hw. split; simpl.
  - rewrite <- Hw at 1. rewrite <- drop_drop. by rewrite take_drop.
  - rewrite <- rev_app_distr. f_equal.
    rewrite <- Hw at 2. symmetry. apply take_take_drop.
Qed.

Section Search.
Variable r : regex.

Lemma search_Some l : forall aft bef s e,
  rev bef ++ aft = l ->
  search r bef aft = Some (s, e) ->
  exists k, s = cursor_at l k /\ List.length bef <= k <= List.length l
            /\ matchAt r s = Some e
            /\ forall j, List.length bef <= j < k -> matchAt r (cursor_at l j) = None.
Proof.
  induction aft as [|c aft IH]; intros bef s e Hl; simpl.
  - destruct (matchAt r (Cursor bef [])) as [e'|] eqn:E; [|done].
    intros [= <- <-]. exists (List.length bef).
    split; [by rewrite (cursor_at_input l bef [])|].
    split; [|split; [done|intros; lia]].
    subst l. rewrite length_app, length_rev. simpl. lia.
  - destruct (matchAt r (Cursor bef (c :: aft))) as [e'|] eqn:E.
    + intros [= <- <-]. exists (List.length bef).
      split; [by rewrite (cursor_at_input l bef (c :: aft))|].
      split; [|split; [done|intros; lia]].
      subst l. rewrite length_app, length_rev. simpl. lia.
    + intros H. apply (IH (c :: bef)) in H as (k & -> & Hk & M & N).
      * exists k. split; [done|]. simpl in Hk. split; [lia|]. split; [done|].
        intros j Hj. destruct (decide (j = List.length bef)) as [->|Hne].
        -- by rewrite (cursor_at_input l bef (c :: aft)).
        -- apply N. simpl. lia.
      * simpl. by rewrite <- app_assoc.
Qed.

Lemma search_None l : forall aft bef,
  rev bef ++ aft = l ->
  search r bef aft = None ->
  forall j, List.length bef <= j <= List.length l -> matchAt r (cursor_at l j) = None.
Proof.
  induction aft as [|c aft IH]; intros bef Hl; simpl.
  - destruct (matchAt r (Cursor bef [])) as [e'|] eqn:E; [done|].
    intros _ j Hj. assert (j = List.length bef) as ->.
    { subst l. rewrite length_app, length_rev in Hj. simpl in Hj. lia. }
    by rewrite (cursor_at_input l bef []).
  - destruct (matchAt r (Cursor bef (c :: aft))) as [e'|] eqn:E; [done|].
    intros H j Hj. destruct (decide (j = List.length bef)) as [->|Hne].
    + by rewrite (cursor_at_input l bef (c :: aft)).
    + apply (IH (c :: bef)); [simpl; by rewrite <- app_assoc|done|simpl; lia].
Qed.
End Search.

(** [exec] on the acronym expression: a match of at least two characters
    at the first position from [lastIndex] on where any match exists. *)
Lemma exec_Some text i m j :
  exec acronymPattern text i = Some (m, j) ->
  exists w,
    i <= index m /\ j = index m + List.length w
    /\ j <= List.length (chars text)
    /\ 2 <= List.length w
    /\ matched m = of_chars w
    /\ take (List.length w) (drop (index m) (chars text)) = w
    /\ matchAt acronymPattern (cursor_at (chars text) (index m))
       = Some (cursor_at (chars text) j)
    /\ forall k, i <= k < index m ->
         matchAt acronymPattern (cursor_at (chars text) k) = None.
Proof.
  unfold exec. set (l := chars text). intros H.
  destruct (List.length l <? i)%nat eqn:Hi; [done|].
  apply Nat.ltb_ge in Hi.
  destruct (search _ _ _) as [[s e]|] eqn:S; [|done].
  apply (search_Some _ l) in S as (k & -> & Hk & M & N);
    [|rewrite rev_involutive; apply take_drop].
  rewrite length_rev, length_take, Nat.min_l in Hk, N by done.
  injection H as <- <-. simpl.
  rewrite (endIndex_cursor_at l k) by lia.
  pose proof (matchAt_sound _ _ _ M) as Mm.
  apply pattern_matches in Mm as (_ & _ & w & C & L & _).
  apply consumed_cursor_at in C as (-> & Hle & Hw); [|lia].
  rewrite (endIndex_cursor_at l (k + List.length w)) in * by lia.
  exists w. repeat split; try done; try lia.
  unfold slice_chars. f_equal. rewrite <- Hw at 2. f_equal. lia.
Qed.

Lemma exec_None text i k :
  exec acronymPattern text i = None ->
  i <= k <= List.length (chars text) ->
  matchAt acronymPattern (cursor_at (chars text) k) = None.
Proof.
  unfold exec. set (l := chars text). intros H Hk.
  destruct (List.length l <? i)%nat eqn:Hi.
  { apply Nat.ltb_lt in Hi. lia. }
  apply Nat.ltb_ge in Hi.
  destruct (search _ _ _) as [[s e]|] eqn:S; [done|].
  eapply (search_None _ l) in S;
    [exact S|rewrite rev_involutive; apply take_drop|].
  rewrite length_rev, length_take. lia.
Qed.

(** *** Scanning a stretch of the text on its own *)

Lemma length_slice l p q :
  q <= List.length l -> List.length (slice_chars l p q) = q - p.
Proof. intros H. unfold slice_chars. rewrite length_take, length_drop. lia. Qed.

Lemma slice_drop l p q k :
  k <= q - p -> drop k (slice_chars l p q) = take (q - p - k) (drop (p + k) l).
Proof.
  intros H. unfold slice_chars.
  replace (q - p) with (k + (q - p - k)) at 1 by lia.
  by rewrite <- take_drop_commute, drop_drop.
Qed.

Lemma wordAt_slice l p q j :
  j < q - p -> wordAt (slice_chars l p q) j = wordAt l (p + j).
Proof.
  intros H. unfold wordAt, slice_chars.
  by rewrite lookup_take_lt, lookup_drop.
Qed.

Lemma wordAt_end l : wordAt l (List.length l) = false.
Proof. unfold wordAt. by rewrite lookup_ge_None_2. Qed.

Lemma wordBefore_slice l p q k :
  q <= List.length l -> S k <= q - p ->
  wordBefore (cursor_at (slice_chars l p q) (S k))
  = wordBefore (cursor_at l (S (p + k))).
Proof.
  intros Hq Hk.
  rewrite !wordBefore_at; [by apply wordAt_slice|lia|].
  rewrite length_slice by done. lia.
Qed.

(** A stretch of the text in which the scan accepts nothing, cut out
    between the end of a match (or the start of the text) and the start of
    the next one (or the end of the text), still has nothing to accept
    when scanned alone. *)
Lemma quiet_slice l p q :
  p <= q <= List.length l ->
  leftClosed l p -> rightClosed l q -> quiet l p q ->
  quiet (slice_chars l p q) 0 (q - p).
Proof.
  intros Hpq HL HR HQ k Hk e w M C.
  set (f := slice_chars l p q) in *.
  assert (List.length f = q - p) as Hf by (apply length_slice; lia).
  pose proof (matchAt_sound _ _ _ M) as Mf.
  destruct (match_starts_with_word _ _ Mf) as [Af Bf].
  destruct (pattern_matches _ _ Mf) as (_ & By & w' & C' & Lw & _).
  pose proof (consumed_inj _ _ _ _ C C') as <-. clear C'.
  destruct (consumed_cursor_at f k w e) as (-> & Hle & Hw); [lia|done|].
  assert (take (List.length w) (drop (p + k) l) = w) as Hwl.
  { rewrite <- Hw at 2. unfold f. rewrite slice_drop by lia.
    rewrite take_take. f_equal. lia. }
  pose proof (consumed_cursor_at_intro l (p + k) w ltac:(lia) Hwl) as Cl.
  assert (matches acronymPattern (cursor_at l (p + k))
            (cursor_at l (p + k + List.length w))) as Ml.
  { eapply matches_transport; [exact Mf|exact C|exact Cl| |].
    - rewrite Bf. destruct k as [|k].
      + rewrite Nat.add_0_r.
        destruct (wordBefore (cursor_at l p)) eqn:E; [|done].
        rewrite wordAfter_at in Af. unfold f in Af.
        rewrite wordAt_slice, Nat.add_0_r in Af by lia.
        rewrite HL in Af; done.
      + rewrite Nat.add_succ_r. unfold f in Bf.
        rewrite wordBefore_slice in Bf by lia. done.
    - rewrite !wordAfter_at.
      destruct (decide (k + List.length w < q - p)) as [Hlt|Hge].
      + unfold f. rewrite wordAt_slice by done. f_equal. lia.
      + assert (k + List.length w = q - p) as Hend by lia.
        rewrite Hend, <- Hf, wordAt_end.
        replace (p + k + List.length w) with q by lia.
        destruct HR as [->|[Hq Hb]]; [apply wordAt_end|].
        exfalso. unfold isBoundary in By.
        rewrite wordAfter_at, Hend, <- Hf, wordAt_end in By.
        rewrite Hf in By. destruct (q - p) as [|n] eqn:En; [lia|].
        unfold f in By. rewrite wordBefore_slice in By by lia.
        replace (S (p + n)) with q in By by lia.
        by rewrite Hb in By. }
  destruct (matchAt_complete _ _ _ Ml) as [el Hel].
  pose proof (matchAt_sound _ _ _ Hel) as Ml'.
  destruct (pattern_matches _ _ Ml') as (_ & _ & wl & Cl' & _ & _).
  assert (shouldSkipAcronym (of_chars wl) = true) as Hskip.
  { eapply (HQ (p + k)); [lia|exact Hel|exact Cl']. }
  by rewrite (skipped_match_unique _ _ _ _ _ Ml' Cl' Ml Cl Hskip).
Qed.

(** *** The scanning loop *)

Lemma scan_loop_S fuel text i st :
  scan_loop (S fuel) text i st =
  match exec acronymPattern text i with
  | None => Some st
  | Some (m, j) =>
      if shouldSkipAcronym (matched m)
      then scan_loop fuel text j st
      else scan_loop fuel text j (accept_match text m st)
  end.
Proof. done. Qed.

(** The loop ends before its fuel does: every [exec] moves the
    expression's [lastIndex] to the right. *)
Lemma scan_loop_total text : forall fuel i st,
  i <= List.length (chars text) -> List.length (chars text) - i < fuel ->
  is_Some (scan_loop fuel text i st).
Proof.
  induction fuel as [|fuel IH]; intros i st Hi Hfuel; [lia|].
  rewrite scan_loop_S.
  destruct (exec acronymPattern text i) as [[m j]|] eqn:E; [|done].
  apply exec_Some in E as (w & ? & ? & ? & ? & _).
  destruct (shouldSkipAcronym (matched m)); apply IH; lia.
Qed.

Lemma scan_loop_quiet text :
  quiet (chars text) 0 (List.length (chars text)) ->
  forall fuel i st,
    i <= List.length (chars text) -> List.length (chars text) - i < fuel ->
    scan_loop fuel text i st = Some st.
Proof.
  intros HQ. induction fuel as [|fuel IH]; intros i st Hi Hfuel; [lia|].
  rewrite scan_loop_S.
  destruct (exec acronymPattern text i) as [[m j]|] eqn:E; [|done].
  apply exec_Some in E as (w & ? & ? & ? & ? & Hm & Hw & M & _).
  assert (shouldSkipAcronym (matched m) = true) as ->.
  { rewrite Hm. eapply (HQ (index m)); [lia|exact M|].
    subst j. apply consumed_cursor_at_intro; [lia|done]. }
  apply IH; lia.
Qed.

Lemma quiet_inert f :
  quiet (chars f) 0 (List.length (chars f)) -> inert f.
Proof.
  intros HQ. unfold inert, processTextNode, processTextNode_fuel.
  destruct (JsString.length f <? 2)%nat eqn:E; [by eexists|].
  rewrite (scan_loop_quiet f HQ); [|lia|unfold scan_fuel, JsString.length; lia].
  eexists. split; [done|]. unfold finish. simpl.
  by destruct (0 <? JsString.length f)%nat.
Qed.

Lemma rejectedAt_None l k :
  matchAt acronymPattern (cursor_at l k) = None -> rejectedAt l k.
Proof. intros H e w M. by rewrite H in M. Qed.

Lemma wordAt_in_word l s w k :
  take (List.length w) (drop s l) = w -> allWord w = true ->
  s <= k < s + List.length w -> wordAt l k = true.
Proof.
  intros Hw Wa Hk. unfold wordAt.
  destruct (lookup_lt_is_Some_2 w (k - s)) as [c Hc]; [lia|].
  assert (l !! k = Some c) as ->.
  { rewrite <- Hw, lookup_take_lt, lookup_drop in Hc by lia.
    by replace (s + (k - s)) with k in Hc by lia. }
  simpl. unfold allWord in Wa. rewrite forallb_forall in Wa.
  apply Wa, list_elem_of_In. by eapply list_elem_of_lookup_2.
Qed.

(** No match starts strictly inside a run of word characters. *)
Lemma inside_word_no_match l s w k :
  s + List.length w <= List.length l ->
  take (List.length w) (drop s l) = w -> allWord w = true ->
  s < k < s + List.length w ->
  matchAt acronymPattern (cursor_at l k) = None.
Proof.
  intros Hle Hw Wa Hk.
  destruct (matchAt _ _) as [e|] eqn:M; [|done]. exfalso.
  apply matchAt_sound, pattern_matches in M as (B & _).
  unfold isBoundary in B. rewrite wordAfter_at in B.
  destruct k as [|k]; [lia|]. rewrite wordBefore_at in B by lia.
  rewrite !(wordAt_in_word l s w) in B by (done || lia). done.
Qed.

Lemma loopInv_initial l : loopInv l 0 (LoopState 0 [] [] "").
Proof.
  split; simpl.
  - lia.
  - unfold leftClosed. by rewrite wordBefore_at_0.
  - intros k Hk. lia.
  - constructor.
  - by rewrite take_0.
Qed.

Lemma inert_slice l p q :
  p <= q <= List.length l ->
  leftClosed l p -> rightClosed l q -> quiet l p q ->
  inert (of_chars (slice_chars l p q)).
Proof.
  intros Hpq HL HR HQ. apply quiet_inert.
  rewrite chars_of_chars, length_slice by lia.
  by apply quiet_slice.
Qed.

Lemma scan_loop_inv text : forall fuel i st st',
  loopInv (chars text) i st ->
  scan_loop fuel text i st = Some st' ->
  loopInv (chars text) (List.length (chars text)) st'.
Proof.
  set (l := chars text).
  induction fuel as [|fuel IH]; intros i st st' [Hr HL HQ HG HT] H; [done|].
  rewrite scan_loop_S in H.
  destruct (exec acronymPattern text i) as [[m j]|] eqn:E.
  - apply exec_Some in E as (w & Him & -> & Hj & Lw & Hm & Hw & M & N).
    fold l in Hj, Hw, M, N.
    pose proof (consumed_cursor_at_intro l (index m) w Hj Hw) as C.
    pose proof (matchAt_sound _ _ _ M) as Mm.
    destruct (shouldSkipAcronym (matched m)) eqn:Hs.
    + apply IH in H; [done|]. split; try done; [lia|].
      rewrite Hm in Hs.
      pose proof (skipped_match_allWord _ _ _ Mm C Hs) as Wa.
      intros k Hk.
      destruct (decide (k < i)) as [?|?]; [apply HQ; lia|].
      destruct (decide (k < index m)) as [?|?];
        [apply rejectedAt_None, N; lia|].
      destruct (decide (k = index m)) as [->|?].
      * intros e w' Me Ce. rewrite M in Me. injection Me as <-.
        by rewrite (consumed_inj _ _ _ _ Ce C).
      * apply rejectedAt_None.
        apply (inside_word_no_match l (index m) w); (done || lia).
    + apply IH in H; [done|].
      assert (JsString.length (matched m) = List.length w) as Hlen
        by (by rewrite Hm, length_of_chars).
      destruct (match_starts_with_word _ _ Mm) as [Am Bm].
      rewrite wordAfter_at in Am.
      assert (inert (slice text (lastIndex st) (index m))) as Hin.
      { apply (inert_slice l); [lia|done|by right|].
        intros k Hk. destruct (decide (k < i)) as [?|?]; [apply HQ; lia|].
        apply rejectedAt_None, N. lia. }
      split; simpl; rewrite ?Hlen.
      * lia.
      * apply pattern_matches in Mm as (_ & B & _).
        unfold leftClosed. intros Hb. unfold isBoundary in B.
        rewrite Hb, wordAfter_at in B.
        by destruct (wordAt l (index m + List.length w)).
      * intros k Hk. lia.
      * apply Forall_app. split; [|repeat constructor].
        destruct (lastIndex st <? index m)%nat; [|done].
        apply Forall_app. split; [done|]. by repeat constructor.
      * rewrite map_app, concat_app. simpl.
        rewrite Hm, chars_of_chars, !app_nil_r.
        rewrite <- take_take_drop, Hw. f_equal.
        destruct (lastIndex st <? index m)%nat eqn:Hlt.
        -- rewrite map_app, concat_app, HT. simpl.
           unfold slice. rewrite chars_of_chars, app_nil_r.
           unfold slice_chars. rewrite take_take_drop. f_equal. lia.
        -- apply Nat.ltb_ge in Hlt. rewrite HT. f_equal. lia.
  - injection H as <-. split; try done; [lia|].
    intros k Hk. destruct (decide (k < i)) as [?|?]; [apply HQ; lia|].
    apply rejectedAt_None. apply (exec_None text i); [done|]. fold l. lia.
Qed.

(** [processTextNode] always returns; when it replaces the node, the
    container's children are marked spans and texts that a later scan
    leaves alone, and together they spell the node's text. *)
Lemma processTextNode_total text : is_Some (processTextNode text).
Proof.
  unfold processTextNode, processTextNode_fuel.
  destruct (JsString.length text <? 2)%nat; [done|].
  destruct (scan_loop_total text (scan_fuel text) 0 (LoopState 0 [] [] ""))
    as [st ->]; [lia|unfold scan_fuel, JsString.length; lia|done].
Qed.

Lemma processTextNode_replacement text r c :
  processTextNode text = Some r -> replacement r = Some c ->
  exists frs, c = Dom.createSpan [] None frs
              /\ Forall goodFragment frs
              /\ concat (map textChars frs) = chars text.
Proof.
  unfold processTextNode, processTextNode_fuel.
  destruct (JsString.length text <? 2)%nat; [by intros [= <-]|].
  destruct (scan_loop _ _ _ _) as [st|] eqn:S; [|done].
  apply scan_loop_inv in S as [Hr HL HQ HG HT]; [|apply loopInv_initial].
  intros [= <-]. unfold finish. cbn [replacement].
  set (l := chars text) in *.
  destruct (1 <? _)%nat; [|done]. intros [= <-].
  eexists. split; [done|].
  unfold JsString.length. fold l.
  destruct (lastIndex st <? List.length l)%nat eqn:Hlt.
  - apply Nat.ltb_lt in Hlt. split.
    + apply Forall_app. split; [done|]. repeat constructor.
      unfold slice_from. fold l.
      replace (drop (lastIndex st) l)
        with (slice_chars l (lastIndex st) (List.length l)).
      * apply (inert_slice l); [lia|done|by left|done].
      * unfold slice_chars. apply take_ge. rewrite length_drop. lia.
    + rewrite map_app, concat_app, HT. simpl.
      unfold slice_from. fold l.
      by rewrite chars_of_chars, app_nil_r, take_drop.
  - apply Nat.ltb_ge in Hlt. split; [done|].
    rewrite HT. apply take_ge. lia.
Qed.

End ScanFacts.

(** ** The traversal of [processPage] *)

Module PageFacts.
Import JsString Regex Dom AcronymExpander Notions ScanFacts.

Lemma node_induction (P : node -> Prop) :
  (forall t, P (Text t)) ->
  (forall tag classes acronym children,
      Forall P children -> P (Element tag classes acronym children)) ->
  forall n, P n.
Proof.
  intros Ht He. fix IH 1. intros [t|tag classes acronym children].
  - apply Ht.
  - apply He. induction children as [|c children IHc]; constructor.
    + apply IH.
    + apply IHc.
Qed.

Lemma mapM_fixed {A} (f : A -> option A) l :
  Forall (fun x => f x = Some x) l -> mapM f l = Some l.
Proof.
  intros H. apply mapM_Some_2. induction H; constructor; done.
Qed.

Lemma processBelow_total n : forall tag classes,
  is_Some (processBelow tag classes n).
Proof.
  induction n as [t|tag' classes' acronym children IH] using node_induction;
    intros tag classes; simpl.
  - destruct (acceptNode tag classes); [|done].
    by destruct (processTextNode_total t) as [r ->].
  - destruct (mapM_is_Some_2 (processBelow tag' classes') children) as [k ->];
      [|done].
    eapply Forall_impl; [exact IH|]. intros x Hx. apply Hx.
Qed.

(** Inside a container the traversal changes nothing: the texts are
    scanned again and left alone, the marked spans are skipped. *)
Lemma goodFragment_fixed n :
  goodFragment n -> processBelow "SPAN" [] n = Some n.
Proof.
  intros [f (r & Hr & Hn)|a]; simpl.
  - change (acceptNode "SPAN" []) with true. cbn iota.
    by rewrite Hr; simpl; rewrite Hn.
  - by change (acceptNode "SPAN" [markerClass]) with false.
Qed.

Lemma processBelow_idempotent n : forall tag classes n',
  processBelow tag classes n = Some n' ->
  processBelow tag classes n' = Some n'.
Proof.
  induction n as [t|tag' classes' acronym children IH] using node_induction;
    intros tag classes n'; simpl.
  - destruct (acceptNode tag classes) eqn:Ha.
    + destruct (processTextNode t) as [r|] eqn:Hr; [|done]. simpl.
      destruct (replacement r) as [c|] eqn:Hc; simpl; intros [= <-].
      * destruct (processTextNode_replacement _ _ _ Hr Hc) as (frs & -> & G & _).
        simpl. rewrite mapM_fixed; [done|].
        eapply Forall_impl; [exact G|]. apply goodFragment_fixed.
      * simpl. by rewrite Ha, Hr; simpl; rewrite Hc.
    + intros [= <-]. simpl. by rewrite Ha.
  - destruct (mapM _ children) as [children'|] eqn:Hm; [|done].
    simpl. intros [= <-]. simpl.
    rewrite mapM_fixed; [done|].
    apply mapM_Some_1 in Hm.
    induction Hm as [|x y xs ys Hxy _ IHm]; [constructor|].
    inversion IH as [|? ? Hx Hxs]; subst.
    constructor; [by apply Hx|by apply IHm].
Qed.

Lemma processPage_total root : is_Some (processPage root).
Proof.
  destruct root as [t|tag classes acronym children]; [done|].
  apply (processBelow_total (Element tag classes acronym children) "" []).
Qed.

Lemma processPage_idempotent root root' :
  processPage root = Some root' -> processPage root' = Some root'.
Proof.
  destruct root as [t|tag classes acronym children]; [by intros [= <-]|].
  intros H.
  pose proof (processBelow_idempotent
                (Element tag classes acronym children) "" [] root' H) as H'.
  simpl in H. destruct (mapM _ children) as [k|]; [|done].
  simpl in H. by injection H as <-.
Qed.

(** A tree that the traversal leaves as it is has only such trees below
    it: the traversal started at any of its elements changes nothing. *)
Lemma processPage_fixed_within root e :
  processPage root = Some root -> within e root -> processPage e = Some e.
Proof.
  intros Hroot Hw. induction Hw as [|tag classes acronym children c Hc _ IH];
    [done|].
  apply IH. simpl in Hroot.
  destruct (mapM _ children) as [k|] eqn:Hm; [|done].
  simpl in Hroot. injection Hroot as ->.
  apply mapM_Some_1 in Hm.
  assert (processBelow tag classes c = Some c) as Hfix.
  { apply list_elem_of_lookup_1 in Hc as [i Hi].
    exact (Forall2_lookup_lr _ _ _ i c c Hm Hi Hi). }
  destruct c as [t|ctag cclasses cacronym cchildren]; [done|].
  exact Hfix.
Qed.

End PageFacts.

(** ** The Detector: raw matches and the exclusion test *)

Module Detector.
Import JsString Regex Dom AcronymExpander Notions ScanFacts.

(** The loop of [processTextNode] runs its body on the accepted matches,
    in the order [exec] returns them. *)
Lemma scan_loop_execAll text : forall fuel i st,
  scan_loop fuel text i st =
  (ms ← execAll fuel text i;
   Some (foldl (fun st m => accept_match text m st) st (accepted ms))).
Proof.
  induction fuel as [|fuel IH]; intros i st; [done|].
  rewrite scan_loop_S. simpl.
  destruct (exec acronymPattern text i) as [[m j]|]; [|done].
  rewrite !IH. destruct (execAll fuel text j) as [ms|]; simpl;
    [|by destruct (shouldSkipAcronym (matched m))].
  unfold accepted. rewrite filter_cons.
  destruct (shouldSkipAcronym (matched m)); by case_decide.
Qed.

(** The loop's [exec] calls end: the list of raw matches is always there. *)
Lemma rawMatches_total text : is_Some (rawMatches text).
Proof.
  unfold rawMatches.
  destruct (scan_loop_total text (scan_fuel text) 0 (LoopState 0 [] [] ""))
    as [st H]; [lia|unfold scan_fuel, JsString.length; lia|].
  rewrite scan_loop_execAll in H.
  by destruct (execAll _ _ _).
Qed.

Lemma skip_words_short acronym :
  acronym ∈ nonTechWords -> JsString.length acronym <= 3.
Proof.
  unfold nonTechWords. rewrite elem_of_list_to_set. intros H.
  PatternFacts.cases H; vm_compute; lia.
Qed.

Lemma shouldSkipAcronym_spec acronym :
  shouldSkipAcronym acronym = true <-> excludedBySpec acronym.
Proof.
  unfold shouldSkipAcronym, nonTechWords, excludedBySpec.
  rewrite orb_true_iff, bool_decide_eq_true, elem_of_list_to_set.
  by rewrite Nat.ltb_lt.
Qed.

Lemma shouldSkipAcronym_false acronym :
  shouldSkipAcronym acronym = false <-> ~ excludedBySpec acronym.
Proof.
  rewrite <- shouldSkipAcronym_spec. by destruct (shouldSkipAcronym acronym).
Qed.

End Detector.

(** ** The Segmenter: [processTextNode] and [processPage] *)

Module Segmenter.
Import JsString Regex Dom AcronymExpander Notions ScanFacts PageFacts Samples.

(** C6. The text node "Check the GPU and HDR settings" is replaced by a
    container of exactly five fragments, in order: the text "Check the ",
    a marked span for GPU, the text " and ", a marked span for HDR, and
    the text " settings". *)
Theorem gpu_hdr_five_fragments :
  processTextNode "Check the GPU and HDR settings"
  = Some {| replacement :=
              Some (Element "SPAN" [] None
                      [Text "Check the ";
                       Element "SPAN" ["acronym-expander"] (Some "GPU") [Text "GPU"];
                       Text " and ";
                       Element "SPAN" ["acronym-expander"] (Some "HDR") [Text "HDR"];
                       Text " settings"]);
            terms := ["GPU"; "HDR"];
            context := "Check the GPU and HDR settings" |}
  /\ processPage paragraph
     = Some (Element "P" [] None
               [Element "SPAN" [] None
                  [Text "Check the "; markSpan "GPU"; Text " and ";
                   markSpan "HDR"; Text " settings"]]).
Proof. split; by vm_compute. Qed.

(** A text with no accepted match is left untouched. *)
Lemma no_accepted_match_untouched text :
  acceptedMatches text = Some [] ->
  exists r, processTextNode text = Some r /\ replacement r = None.
Proof.
  unfold acceptedMatches, rawMatches, processTextNode, processTextNode_fuel.
  intros H. destruct (JsString.length text <? 2)%nat; [by eexists|].
  rewrite Detector.scan_loop_execAll.
  destruct (execAll _ _ _) as [ms|]; [|done]. simpl in *.
  injection H as ->. simpl. eexists. split; [done|].
  unfold finish. simpl. by destruct (0 <? JsString.length text)%nat.
Qed.

(** When the node is replaced, the container's fragments spell the node's
    text from left to right. *)
Lemma replacement_spells_text text r c :
  processTextNode text = Some r -> replacement r = Some c ->
  exists frs, c = Element "SPAN" [] None frs
              /\ of_chars (textChars c) = text.
Proof.
  intros Hr Hc.
  destruct (processTextNode_replacement _ _ _ Hr Hc) as (frs & -> & _ & Ht).
  exists frs. split; [done|]. simpl. by rewrite Ht, of_chars_chars.
Qed.

(** The matches [exec] returns lie inside the text. *)
Lemma execAll_in_text text : forall fuel i ms,
  execAll fuel text i = Some ms ->
  Forall (fun m => index m + JsString.length (matched m) <= JsString.length text) ms.
Proof.
  induction fuel as [|fuel IH]; intros i ms; simpl; [done|].
  destruct (exec acronymPattern text i) as [[m j]|] eqn:E;
    [|intros [= <-]; constructor].
  destruct (execAll fuel text j) as [ms'|] eqn:E'; simpl; [|done].
  intros [= <-]. constructor; [|by eapply IH].
  apply exec_Some in E as (w & _ & -> & Hj & _ & -> & _).
  by rewrite length_of_chars.
Qed.

Lemma fragments_grow text ms : forall st,
  List.length (fragments st) + List.length ms
  <= List.length (fragments (foldl (fun st m => accept_match text m st) st ms)).
Proof.
  induction ms as [|m ms IH]; intros st; simpl; [lia|].
  etrans; [|apply IH]. simpl. rewrite length_app. simpl.
  destruct (lastIndex st <? index m)%nat; rewrite ?length_app; simpl; lia.
Qed.

(** When exactly the node is replaced: there is an accepted match, and it
    is not a single match that covers the whole text. *)
Lemma replaced_iff text :
  2 <= JsString.length text ->
  exists ms r,
    acceptedMatches text = Some ms /\ processTextNode text = Some r
    /\ (replacement r = None <->
        ms = [] \/ exists m, ms = [m] /\ index m = 0
                             /\ JsString.length (matched m) = JsString.length text).
Proof.
  intros Hlen.
  destruct (Detector.rawMatches_total text) as [raw Hraw].
  pose proof (execAll_in_text text _ _ _ Hraw) as Hin.
  unfold acceptedMatches, processTextNode, processTextNode_fuel.
  rewrite Hraw. unfold rawMatches in Hraw.
  destruct (JsString.length text <? 2)%nat eqn:E;
    [apply Nat.ltb_lt in E; lia|].
  rewrite Detector.scan_loop_execAll, Hraw. simpl.
  do 2 eexists. split; [done|]. split; [done|].
  assert (Forall (fun m => index m + JsString.length (matched m)
                           <= JsString.length text) (accepted raw)) as Hacc.
  { unfold accepted. apply Forall_forall. intros m [_ Hm]%list_elem_of_filter.
    by apply (proj1 (Forall_forall _ _) Hin). }
  destruct (accepted raw) as [|m [|m' ms]].
  - split; [by left|]. intros _. unfold finish. simpl.
    by destruct (0 <? JsString.length text)%nat.
  - inversion Hacc as [|? ? Hm _]; subst. unfold finish. simpl.
    destruct (Nat.ltb_spec 0 (index m)) as [E0|E0];
      destruct (Nat.ltb_spec (index m + JsString.length (matched m))
                  (JsString.length text)) as [E1|E1]; simpl.
    + split; [done|]. intros [[=]|(m0 & [= <-] & ? & ?)]. lia.
    + split; [done|]. intros [[=]|(m0 & [= <-] & ? & ?)]. lia.
    + split; [done|]. intros [[=]|(m0 & [= <-] & ? & ?)]. lia.
    + split; [|done]. intros _. right. exists m. split; [done|]. lia.
  - split; [|by intros [[=]|(m0 & [=] & _)]].
    unfold finish. cbn [replacement].
    set (st := foldl _ _ _).
    pose proof (fragments_grow text (m :: m' :: ms) (LoopState 0 [] [] "")) as Hg.
    fold st in Hg. simpl in Hg.
    destruct (lastIndex st <? JsString.length text)%nat;
      [rewrite length_app|]; simpl;
      (destruct (1 <? _)%nat eqn:E1; [done|]);
      apply Nat.ltb_ge in E1; lia.
Qed.

(** C3, at the text node "API".  The whole text is one accepted match:
    the loop builds the single fragment, a marked span, and the test
    [fragments.length > 1] fails, so the node is not replaced although the
    term is reported as found. *)
Theorem whole_text_match_not_marked :
  acceptedMatches "API" = Some [MatchResult 0 "API"]
  /\ processTextNode "API"
     = Some {| replacement := None; terms := ["API"]; context := "API" |}
  /\ processPage tableCell = Some tableCell.
Proof. repeat split; by vm_compute. Qed.

(** The filter keeps the walker away from the text of marked spans and of
    script, style, code and pre elements. *)
Lemma filter_rejects tag classes :
  acceptNode tag classes = false <->
  markerClass ∈ classes \/ toLowerCase tag ∈ ["script"; "style"; "code"; "pre"].
Proof.
  unfold acceptNode, classList_contains, opaqueTags.
  repeat case_bool_decide; simpl; split; try done; tauto.
Qed.

(** The filter looks at the parent element of a text node and no further
    up: below a pre element, and below a marked span, the text of an
    inner element is scanned and its term is marked. *)
Lemma nested_text_is_scanned :
  processPage
    (Element "DIV" [] None
       [Element "PRE" [] None [Element "B" [] None [Text "the RAM here"]]])
  = Some (Element "DIV" [] None
            [Element "PRE" [] None
               [Element "B" [] None
                  [Element "SPAN" [] None
                     [Text "the "; markSpan "RAM"; Text " here"]]]])
  /\ processPage
       (Element "DIV" [] None
          [Element "SPAN" [markerClass] (Some "CPU")
             [Element "B" [] None [Text "the RAM here"]]])
     = Some (Element "DIV" [] None
               [Element "SPAN" [markerClass] (Some "CPU")
                  [Element "B" [] None
                     [Element "SPAN" [] None
                        [Text "the "; markSpan "RAM"; Text " here"]]]]).
Proof. split; by vm_compute. Qed.

(** C8. A second traversal of a tree that [processPage] has already
    processed changes nothing, so it marks no span; the same holds for a
    traversal started at any element of the processed tree.  The filter
    looks at the parent element of a text node: a text whose parent is a
    marked span, or a script, style, code or pre element, is rejected and
    never matched; the other texts of a processed tree hold nothing to
    accept.  The filter looks no further up: whatever the elements around
    it, even a marked span or a pre element, a text whose own parent is
    neither is scanned, and replaced when the scan says so. *)
Theorem second_pass_changes_nothing root :
  (exists root', processPage root = Some root'
                 /\ processPage root' = Some root'
                 /\ forall e, within e root' -> processPage e = Some e)
  /\ (forall tag classes text,
        markerClass ∈ classes
        \/ toLowerCase tag ∈ ["script"; "style"; "code"; "pre"] ->
        processBelow tag classes (Text text) = Some (Text text))
  /\ (forall outerTag outerClasses tag classes acronym text,
        (markerClass ∉ classes)
        /\ (toLowerCase tag ∉ ["script"; "style"; "code"; "pre"]) ->
        exists r,
          processTextNode text = Some r
          /\ processBelow outerTag outerClasses
               (Element tag classes acronym [Text text])
             = Some (Element tag classes acronym
                       [default (Text text) (replacement r)])).
Proof.
  split; [|split].
  - destruct (processPage_total root) as [root' H].
    pose proof (processPage_idempotent root root' H) as Hfix.
    exists root'. split; [done|]. split; [done|].
    intros e. by apply processPage_fixed_within.
  - intros tag classes text H%filter_rejects. simpl. by rewrite H.
  - intros outerTag outerClasses tag classes acronym text [Hc Ht].
    destruct (processTextNode_total text) as [r Hr]. exists r.
    split; [done|]. simpl.
    assert (acceptNode tag classes = true) as ->.
    { unfold acceptNode, classList_contains, opaqueTags.
      by rewrite !bool_decide_eq_false_2. }
    by rewrite Hr.
Qed.

End Segmenter.

(** ** The resolution cache and the request channel *)

Module Coordinator.
Import JsString Dom AcronymExpander ExpansionFrame Notions Samples PageFacts.

(** *** What the helpers leave alone *)

Lemma afterAwait_frame expansion tgt s :
  cache (afterAwait expansion tgt s) = cache s
  /\ awaiting (afterAwait expansion tgt s) = awaiting s
  /\ nextPromise (afterAwait expansion tgt s) = nextPromise s
  /\ posted (afterAwait expansion tgt s) = posted s
  /\ console (afterAwait expansion tgt s) = console s
  /\ body (afterAwait expansion tgt s) = body s.
Proof. unfold afterAwait. by destruct (_ && _). Qed.

Lemma afterAwait_empty tgt s : afterAwait "" tgt s = s.
Proof. done. Qed.

Lemma resume_loop_frame expansion (waiting : list (nat * target)) : forall s,
  let s' := foldl (fun s a => afterAwait expansion a.2 s) s waiting in
  cache s' = cache s /\ awaiting s' = awaiting s
  /\ nextPromise s' = nextPromise s /\ posted s' = posted s
  /\ console s' = console s /\ body s' = body s.
Proof.
  induction waiting as [|a waiting IH]; intros s; simpl; [done|].
  destruct (IH (afterAwait expansion a.2 s)) as (-> & -> & -> & -> & -> & ->).
  apply afterAwait_frame.
Qed.

Lemma resume_frame p expansion s :
  cache (resume p expansion s) = cache s
  /\ awaiting (resume p expansion s) = filter (fun a => a.1 ≠ p) (awaiting s)
  /\ nextPromise (resume p expansion s) = nextPromise s
  /\ posted (resume p expansion s) = posted s
  /\ console (resume p expansion s) = console s
  /\ body (resume p expansion s) = body s.
Proof.
  unfold resume.
  destruct (resume_loop_frame expansion
              (filter (fun a => a.1 = p) (awaiting s))
              (set_awaiting (filter (fun a => a.1 ≠ p)) s))
    as (-> & -> & -> & -> & -> & ->).
  done.
Qed.

(** An empty expansion shows no tooltip to the activations it resumes. *)
Lemma resume_empty p s : tooltipState (resume p "" s) = tooltipState s.
Proof.
  unfold resume.
  induction (filter (fun a => a.1 = p) (awaiting s)) as [|a w IH]
    using rev_ind; [done|].
  by rewrite foldl_app.
Qed.

(** *** The two outcomes of a hover *)

Lemma truthy_true s : truthy s = true <-> s ≠ "".
Proof.
  unfold truthy. rewrite negb_true_iff. split.
  - intros H ->. by rewrite String.eqb_refl in H.
  - intros H. by apply String.eqb_neq.
Qed.

Lemma onMiss_cases acronym tgt s :
  marked tgt acronym ->
  expansions (cache s) !! acronym = None
  \/ expansions (cache s) !! acronym = Some "" ->
  noRequest s (onMiss acronym tgt s)
  \/ newRequest tgt acronym s (onMiss acronym tgt s).
Proof.
  intros Hm He. unfold onMiss.
  destruct (pending (cache s) !! acronym) as [q|] eqn:Hq.
  - by left.
  - right. by repeat split.
Qed.

Lemma clearTimeout_frame id s :
  noRequest s (clearTimeout id s)
  /\ contentWindow (clearTimeout id s) = contentWindow s
  /\ console (clearTimeout id s) = console s
  /\ tooltipState (clearTimeout id s) = tooltipState s.
Proof. unfold clearTimeout. by destruct id. Qed.

Lemma handleMouseOver_cases tgt s :
  noRequest s (handleMouseOver tgt s)
  \/ exists acronym, newRequest tgt acronym s (handleMouseOver tgt s).
Proof.
  unfold handleMouseOver.
  destruct (target_node tgt) as [t|tag classes [acronym|] children] eqn:Ht;
    [by left| |by destruct (negb _); left].
  destruct (classList_contains classes markerClass) eqn:Hc; [|by left].
  destruct (truthy acronym) eqn:Ha; [|by left]. cbn [negb]. cbv zeta.
  assert (marked tgt acronym) as Hm.
  { exists tag, classes, children. split; [done|].
    split; [by apply bool_decide_eq_true in Hc|by apply truthy_true]. }
  destruct (clearTimeout_frame (hideTimeout (tooltipState s)) s)
    as ((Hc1 & Ha1 & Hn1 & Hp1 & Hb1) & Hw1 & _).
  set (s1 := clearTimeout (hideTimeout (tooltipState s)) s) in *.
  assert (expansions (cache s1) !! acronym = None
          \/ expansions (cache s1) !! acronym = Some "" ->
          noRequest s (onMiss acronym tgt s1)
          \/ exists a, newRequest tgt a s (onMiss acronym tgt s1))
    as Hmiss.
  { intros He. destruct (onMiss_cases acronym tgt s1 Hm He) as [N|N].
    - left. unfold noRequest in *. by rewrite <- Hc1, <- Ha1, <- Hn1, <- Hp1, <- Hb1.
    - right. exists acronym. unfold newRequest in *.
      by rewrite <- Hc1, <- Ha1, <- Hn1, <- Hp1, <- Hb1, <- Hw1. }
  destruct (expansions (cache s1) !! acronym) as [e|] eqn:He.
  - destruct (truthy e) eqn:Hte; cbn [negb].
    + left. by destruct (truthy (trim e)).
    + apply Hmiss. right. f_equal.
      unfold truthy in Hte. apply negb_false_iff in Hte.
      by apply String.eqb_eq in Hte.
  - apply Hmiss. by left.
Qed.

(** *** The listener for the frame's answers *)

Lemma onWindowMessage_ignored source msg s :
  window_eqb source (frameWindow s) = false ->
  onWindowMessage source msg s = s.
Proof. unfold onWindowMessage. by intros ->. Qed.

Lemma onWindowMessage_result source acronym expansion s :
  window_eqb source (frameWindow s) = true ->
  expansions (cache (onWindowMessage source (EXPANSION_RESULT acronym expansion) s))
  = <[acronym := expansion]> (expansions (cache s))
  /\ pending (cache (onWindowMessage source (EXPANSION_RESULT acronym expansion) s))
     = delete acronym (pending (cache s))
  /\ awaiting (onWindowMessage source (EXPANSION_RESULT acronym expansion) s)
     = match pending (cache s) !! acronym with
       | Some p => filter (fun a => a.1 ≠ p) (awaiting s)
       | None => awaiting s
       end
  /\ nextPromise (onWindowMessage source (EXPANSION_RESULT acronym expansion) s)
     = nextPromise s
  /\ posted (onWindowMessage source (EXPANSION_RESULT acronym expansion) s)
     = posted s
  /\ console (onWindowMessage source (EXPANSION_RESULT acronym expansion) s)
     = console s
  /\ body (onWindowMessage source (EXPANSION_RESULT acronym expansion) s)
     = body s.
Proof.
  unfold onWindowMessage. intros ->. cbn [negb]. cbv zeta.
  change (pending (cache (set_cache _ s))) with (pending (cache s)).
  destruct (pending (cache s) !! acronym) as [p|] eqn:Hp.
  - destruct (resume_frame p expansion
                (set_cache (fun c => {| expansions := expansions c;
                                        pending := delete acronym (pending c) |})
                   (set_cache (fun c => {| expansions := <[acronym:=expansion]> (expansions c);
                                           pending := pending c |}) s)))
      as (-> & -> & -> & -> & -> & ->).
    done.
  - simpl. by rewrite delete_id.
Qed.

(** An empty answer shows no tooltip. *)
Lemma empty_result_shows_nothing source acronym s :
  tooltipState (onWindowMessage source (EXPANSION_RESULT acronym "") s)
  = tooltipState s.
Proof.
  unfold onWindowMessage. destruct (negb _); [done|]. cbv zeta.
  change (pending (cache (set_cache _ s))) with (pending (cache s)).
  destruct (pending (cache s) !! acronym) as [p|]; [|done].
  by rewrite resume_empty.
Qed.

Lemma handle_total e s : is_Some (handle e s).
Proof.
  destruct e as [tgt| |source msg|id|enabled]; simpl; try done.
  unfold handleSettingsChange. destruct enabled; simpl; [|done].
  by destruct (processPage_total (body s)) as [d ->].
Qed.

Lemma handleAll_total es : forall s, is_Some (handleAll es s).
Proof.
  induction es as [|e es IH]; intros s; simpl; [done|].
  destruct (handle_total e s) as [s' ->]. simpl. apply IH.
Qed.

(** *** A request that is not answered *)

Lemma answers_false term source acronym expansion :
  answers term (WindowMessage source (EXPANSION_RESULT acronym expansion)) = false ->
  acronym ≠ term.
Proof. simpl. by intros H%String.eqb_neq. Qed.

Lemma inFlight_step term p tgt e s s' :
  inFlight term p tgt s -> answers term e = false ->
  handle e s = Some s' -> inFlight term p tgt s'.
Proof.
  intros (He & Hp & Ha & Hn & Ho) Hans.
  destruct e as [tgt'| |source msg|id|enabled]; simpl.
  - intros [= <-].
    destruct (handleMouseOver_cases tgt' s)
      as [(Hc' & Ha' & Hn' & _)|(a & _ & Hpa & _ & Hc' & Ha' & Hn' & _)].
    + unfold inFlight. by rewrite Hc', Ha', Hn'.
    + assert (a ≠ term) as Hne by (intros ->; by rewrite Hp in Hpa).
      unfold inFlight. rewrite Hc', Ha', Hn'. simpl.
      rewrite lookup_insert_ne by done.
      split; [done|]. split; [done|].
      split; [apply elem_of_app; by left|]. split; [lia|].
      intros t q. rewrite lookup_insert.
      case_decide; [intros [= <-] _; lia|by apply Ho].
  - intros [= <-]. unfold handleMouseOut.
    by destruct (element (tooltipState s)).
  - intros [= <-].
    destruct (window_eqb source (frameWindow s)) eqn:Hw;
      [|by rewrite onWindowMessage_ignored].
    destruct msg as [a|a x]; [by unfold onWindowMessage; rewrite Hw|].
    apply answers_false in Hans.
    destruct (onWindowMessage_result source a x s Hw)
      as (He' & Hp' & Ha' & Hn' & _).
    unfold inFlight. rewrite He', Hp', Ha', Hn'.
    rewrite lookup_insert_ne, lookup_delete_ne by done.
    split; [done|]. split; [done|]. split.
    + destruct (pending (cache s) !! a) as [q|] eqn:Hq; [|done].
      apply list_elem_of_filter. split; [|done]. simpl.
      intros ->. by apply (Ho a q).
    + split; [done|]. intros t q [_ Hq]%lookup_delete_Some. by apply Ho.
  - intros [= <-]. unfold onTimeout. by destruct (bool_decide _).
  - unfold handleSettingsChange. destruct enabled; simpl.
    + destruct (processPage (body s)); [|done]. by intros [= <-].
    + by intros [= <-].
Qed.

(** However long the page lives, an unanswered request leaves the term
    unresolved and the hover waiting. *)
Lemma unanswered_stays_inFlight term p tgt es : forall s,
  inFlight term p tgt s ->
  Forall (fun e => answers term e = false) es ->
  exists s', handleAll es s = Some s' /\ inFlight term p tgt s'.
Proof.
  induction es as [|e es IH]; intros s Hs Hes; simpl; [by exists s|].
  inversion Hes as [|? ? He Hes']; subst.
  destruct (handle_total e s) as [s1 H1]. rewrite H1. simpl.
  apply IH; [|done]. by apply (inFlight_step term p tgt e s).
Qed.

(** *** The frame's answers *)

Lemma frame_answer_on_throw acronym ai aiSession :
  acronym ≠ "" -> modelThrows ai aiSession = true ->
  (onMessage true (EXPAND_ACRONYM acronym) ai aiSession).2
  = [EXPANSION_RESULT acronym ""].
Proof.
  intros Ha%truthy_true. unfold onMessage, modelThrows. rewrite Ha. cbn [negb].
  destruct (if aiSession then Returns () else create ai); [done| |done].
  by destruct (prompt ai).
Qed.

Lemma startsWith_self l : startsWith_chars l l = true.
Proof. induction l as [|c l IH]; simpl; [done|]. by rewrite Ascii.eqb_refl. Qed.

Lemma includes_self s : includes s s = true.
Proof.
  unfold includes. destruct (chars s) as [|c l]; simpl; [done|].
  by rewrite Ascii.eqb_refl, startsWith_self.
Qed.

(** A response that is "not a tech term" once trimmed and lower-cased is
    answered with the empty expansion. *)
Lemma frame_answer_not_a_tech_term acronym ai aiSession response :
  acronym ≠ "" -> modelAnswers ai aiSession response ->
  toLowerCase (trim response) = "not a tech term" ->
  (onMessage true (EXPAND_ACRONYM acronym) ai aiSession).2
  = [EXPANSION_RESULT acronym ""].
Proof.
  intros Ha%truthy_true [Hc Hp] Hr. unfold onMessage. rewrite Ha. cbn [negb].
  rewrite Hc, Hp. cbv zeta. by rewrite Hr, includes_self.
Qed.

Lemma waiters_released p (l : list (nat * target)) :
  snd <$> filter (fun a => a.1 = p) (filter (fun a => a.1 ≠ p) l) = [].
Proof.
  induction l as [|a l IH]; [done|].
  rewrite (filter_cons (fun a => a.1 ≠ p)). case_decide; [|done].
  by rewrite filter_cons_False.
Qed.

Lemma frameWindow_self s : window_eqb (frameWindow s) (frameWindow s) = true.
Proof. unfold frameWindow. by destruct (contentWindow s). Qed.

(** When the frame answers, the term is resolved with the answer, its
    pending entry is removed and nobody waits for its promise any more. *)
Lemma answer_resolves s acronym p expansion :
  pending (cache s) !! acronym = Some p ->
  exists s',
    handle (WindowMessage (frameWindow s) (EXPANSION_RESULT acronym expansion)) s
    = Some s'
    /\ expansions (cache s') !! acronym = Some expansion
    /\ pending (cache s') !! acronym = None
    /\ waitingFor p s' = []
    /\ posted s' = posted s /\ console s' = console s.
Proof.
  intros Hp. eexists. split; [done|].
  destruct (onWindowMessage_result (frameWindow s) acronym expansion s
              (frameWindow_self s)) as (He' & Hp' & Ha' & _ & Hq' & Hc' & _).
  unfold waitingFor. rewrite He', Hp', Ha', Hq', Hc', Hp.
  rewrite lookup_insert_eq, lookup_delete_eq, waiters_released. done.
Qed.

(** C4, as amended.  When the model call in the isolated frame throws,
    the frame answers with the empty string; when that answer arrives the
    term's entry resolves to the empty string, its pending entry is
    removed, every activation waiting for the term's promise is released,
    no tooltip is shown and nothing is thrown. *)
Theorem failed_model_call_resolves_empty s acronym p ai aiSession :
  acronym ≠ "" -> modelThrows ai aiSession = true ->
  pending (cache s) !! acronym = Some p ->
  (onMessage true (EXPAND_ACRONYM acronym) ai aiSession).2
  = [EXPANSION_RESULT acronym ""]
  /\ exists s',
       handle (WindowMessage (frameWindow s) (EXPANSION_RESULT acronym "")) s
       = Some s'
       /\ expansions (cache s') !! acronym = Some ""
       /\ pending (cache s') !! acronym = None
       /\ waitingFor p s' = []
       /\ tooltipState s' = tooltipState s
       /\ console s' = console s.
Proof.
  intros Ha Ht Hp. split; [by apply frame_answer_on_throw|].
  destruct (answer_resolves s acronym p "" Hp) as (s' & H & He & Hp' & Hw & _ & Hc).
  exists s'. repeat split; try done.
  injection H as <-. apply empty_result_shows_nothing.
Qed.

(** The same at the page with one hover over GPU waiting and a model whose
    prompt throws. *)
Lemma failed_model_call_witness :
  (onMessage true (EXPAND_ACRONYM "GPU") broken false).2
  = [EXPANSION_RESULT "GPU" ""]
  /\ exists s',
       handle (WindowMessage (frameWindow hovered) (EXPANSION_RESULT "GPU" "")) hovered
       = Some s'
       /\ expansions (cache s') !! "GPU" = Some ""
       /\ pending (cache s') !! "GPU" = None
       /\ waitingFor 0 s' = []
       /\ tooltipState s' = tooltipState hovered
       /\ console s' = console hovered.
Proof.
  apply (failed_model_call_resolves_empty hovered "GPU" 0 broken false).
  - discriminate.
  - reflexivity.
  - vm_compute. reflexivity.
Defined.

(** C4 as stated fails.  After a hover over GPU the request is posted;
    whatever hovers, messages, timers and settings changes follow, as long
    as no answer for GPU arrives the term stays unresolved and the hover
    stays suspended: no timer or other handler settles the promise.  The
    same holds when the frame's window is missing and nothing is posted at
    all. *)
Lemma unanswered_request_blocks_forever :
  (posted hovered = [EXPAND_ACRONYM "GPU"]
   /\ forall es, Forall (fun e => answers "GPU" e = false) es ->
       exists s', handleAll es hovered = Some s'
                  /\ expansions (cache s') !! "GPU" = None
                  /\ gpuA ∈ waitingFor 0 s')
  /\ (posted (handleMouseOver gpuA frameless) = []
      /\ forall es, Forall (fun e => answers "GPU" e = false) es ->
          exists s', handleAll es (handleMouseOver gpuA frameless) = Some s'
                     /\ expansions (cache s') !! "GPU" = None
                     /\ gpuA ∈ waitingFor 0 s').
Proof.
  assert (forall s, inFlight "GPU" 0 gpuA s ->
            forall es, Forall (fun e => answers "GPU" e = false) es ->
            exists s', handleAll es s = Some s'
                       /\ expansions (cache s') !! "GPU" = None
                       /\ gpuA ∈ waitingFor 0 s') as H.
  { intros s Hs es Hes.
    destruct (unanswered_stays_inFlight "GPU" 0 gpuA es s Hs Hes)
      as (s' & Hrun & He & _ & Ha & _).
    exists s'. split; [done|]. split; [done|].
    unfold waitingFor. apply list_elem_of_fmap. exists (0, gpuA).
    split; [done|]. by apply list_elem_of_filter. }
  assert (forall s, s = hovered \/ s = handleMouseOver gpuA frameless ->
            inFlight "GPU" 0 gpuA s) as Hin.
  { assert (forall s,
              expansions (cache s) = ∅ ->
              pending (cache s) = <["GPU" := 0]> ∅ ->
              awaiting s = [(0, gpuA)] -> nextPromise s = 1 ->
              inFlight "GPU" 0 gpuA s) as Hshape.
    { intros s He Hp Ha Hn. unfold inFlight. rewrite He, Hp, Ha, Hn.
      split; [done|]. split; [by rewrite lookup_insert_eq|].
      split; [by apply list_elem_of_singleton|]. split; [lia|].
      intros t q. rewrite lookup_insert. case_decide; [done|].
      by rewrite lookup_empty. }
    intros s [-> | ->]; by apply Hshape. }
  split; (split; [by vm_compute|]); apply H, Hin; auto.
Qed.

(** *** One request per term in flight *)

(** While a term has a pending entry, a hover over it posts nothing and
    creates no second entry. *)
Lemma hover_while_pending tgt acronym p s :
  marked tgt acronym -> pending (cache s) !! acronym = Some p ->
  noRequest s (handleMouseOver tgt s).
Proof.
  intros (tag & classes & children & Ht & _) Hp.
  destruct (handleMouseOver_cases tgt s) as [N|(a & Ha & Hpa & _)]; [done|].
  destruct Ha as (tag' & classes' & children' & Ht' & _).
  rewrite Ht in Ht'. injection Ht' as _ _ <- _. by rewrite Hp in Hpa.
Qed.

(** C1, at two hovers over two spans for GPU, the second before the
    answer.  One request is posted and one promise is created.  The second
    hover finds the pending entry, which holds the promise's [resolve]
    function; awaiting it delivers the function at once, calling [trim] on
    it throws, and the error is logged: the second hover does not wait and
    receives no expansion.  When the answer arrives only the first hover
    is resumed, and the tooltip is shown at the first span. *)
Theorem second_hover_gets_no_expansion :
  exists s2 s3,
    handleAll [MouseOver gpuA; MouseOver gpuB] (initial paragraph) = Some s2
    /\ posted s2 = [EXPAND_ACRONYM "GPU"]
    /\ awaiting s2 = [(0, gpuA)]
    /\ console s2 = [MouseoverError gpuB]
    /\ handle (fromFrame (EXPANSION_RESULT "GPU" "Graphics Processing Unit")) s2
       = Some s3
    /\ element (tooltipState s3)
       = Some (Tooltip "Graphics Processing Unit" "block" 10 25)
    /\ awaiting s3 = []
    /\ console s3 = [MouseoverError gpuB]
    /\ posted s3 = [EXPAND_ACRONYM "GPU"].
Proof. do 2 eexists. repeat split; by vm_compute. Qed.

(** *** Cached expansions *)

(** A hover over a term with a non-empty cached expansion posts nothing. *)
Lemma cached_expansion_no_request tgt acronym expansion s :
  marked tgt acronym ->
  expansions (cache s) !! acronym = Some expansion -> expansion ≠ "" ->
  noRequest s (handleMouseOver tgt s).
Proof.
  intros (tag & classes & children & Ht & _) He Hne.
  destruct (handleMouseOver_cases tgt s) as [N|(a & Ha & _ & Hea & _)]; [done|].
  destruct Ha as (tag' & classes' & children' & Ht' & _).
  rewrite Ht in Ht'. injection Ht' as _ _ <- _.
  rewrite He in Hea. by destruct Hea as [|[= ->]].
Qed.

(** No handler removes an entry of the expansion cache. *)
Lemma expansions_never_evicted e s s' term :
  handle e s = Some s' ->
  is_Some (expansions (cache s) !! term) ->
  is_Some (expansions (cache s') !! term).
Proof.
  destruct e as [tgt| |source msg|id|enabled]; simpl.
  - intros [= <-].
    by destruct (handleMouseOver_cases tgt s)
      as [(-> & _)|(a & _ & _ & _ & -> & _)].
  - intros [= <-]. unfold handleMouseOut.
    by destruct (element (tooltipState s)).
  - intros [= <-].
    destruct (window_eqb source (frameWindow s)) eqn:Hw;
      [|by rewrite onWindowMessage_ignored].
    destruct msg as [a|a x]; [by unfold onWindowMessage; rewrite Hw|].
    destruct (onWindowMessage_result source a x s Hw) as (-> & _).
    intros H. apply lookup_insert_is_Some.
    destruct (decide (a = term)); auto.
  - intros [= <-]. unfold onTimeout. by destruct (bool_decide _).
  - unfold handleSettingsChange. destruct enabled; simpl.
    + destruct (processPage (body s)); [|done]. by intros [= <-].
    + by intros [= <-].
Qed.

(** C2, at a term resolved to the empty string.  The empty expansion is
    cached, but [if (!expansion)] takes it for a miss: the next hover over
    the term posts a second request. *)
Theorem empty_expansion_requested_again :
  exists s2 s3,
    handleAll [MouseOver xyz; fromFrame (EXPANSION_RESULT "XYZ" "")]
      (initial paragraph) = Some s2
    /\ expansions (cache s2) !! "XYZ" = Some ""
    /\ pending (cache s2) !! "XYZ" = None
    /\ posted s2 = [EXPAND_ACRONYM "XYZ"]
    /\ handle (MouseOver xyz) s2 = Some s3
    /\ expansions (cache s3) !! "XYZ" = Some ""
    /\ posted s3 = [EXPAND_ACRONYM "XYZ"; EXPAND_ACRONYM "XYZ"]
    /\ awaiting s3 = [(1, xyz)].
Proof. do 2 eexists. repeat split; by vm_compute. Qed.

(** While the empty expansion is what the cache holds for a term, a hover
    over the term shows no tooltip. *)
Lemma hover_over_empty_shows_nothing tgt acronym s :
  marked tgt acronym -> expansions (cache s) !! acronym = Some "" ->
  tooltipState (handleMouseOver tgt s) = tooltipState s.
Proof.
  intros (tag & classes & children & Ht & Hc & Ha) He.
  unfold handleMouseOver. rewrite Ht.
  unfold classList_contains. rewrite bool_decide_eq_true_2 by done.
  apply truthy_true in Ha. rewrite Ha. cbn [negb]. cbv zeta.
  destruct (clearTimeout_frame (hideTimeout (tooltipState s)) s)
    as ((Hc1 & _) & _ & _ & Ht1).
  rewrite Hc1, He. cbn [truthy String.eqb negb]. unfold onMiss.
  by destruct (pending _ !! acronym).
Qed.

(** C7, at a term first answered "not a tech term" and then, asked again,
    answered with an expansion.  The first answer is normalised to the
    empty string, cached, and shows no tooltip.  Because the empty cached
    value counts as a miss (see C2), the next hover asks again, and the
    second answer is shown in the tooltip for that term. *)
Theorem tooltip_after_not_a_tech_term :
  (onMessage true (EXPAND_ACRONYM "XYZ") notTech false).2
  = [EXPANSION_RESULT "XYZ" ""]
  /\ (onMessage true (EXPAND_ACRONYM "XYZ") tech true).2
     = [EXPANSION_RESULT "XYZ" "XYZ: Example Zone: a made-up term"]
  /\ exists s2 s4,
       handleAll [MouseOver xyz; fromFrame (EXPANSION_RESULT "XYZ" "")]
         (initial paragraph) = Some s2
       /\ expansions (cache s2) !! "XYZ" = Some ""
       /\ element (tooltipState s2) = None
       /\ handleAll
            [MouseOver xyz;
             fromFrame (EXPANSION_RESULT "XYZ" "XYZ: Example Zone: a made-up term")]
            s2 = Some s4
       /\ posted s4 = [EXPAND_ACRONYM "XYZ"; EXPAND_ACRONYM "XYZ"]
       /\ element (tooltipState s4)
          = Some (Tooltip "XYZ: Example Zone: a made-up term" "block" 50 65).
Proof.
  split; [by vm_compute|]. split; [by vm_compute|].
  do 2 eexists. repeat split; by vm_compute.
Qed.

(** *** Answers nobody waits for *)

(** C10 as stated fails: an answer for a term without a pending entry is
    stored in the expansion cache. *)
Lemma unsolicited_result_is_cached :
  pending (cache (initial paragraph)) !! "GPU" = None
  /\ expansions (cache (initial paragraph)) !! "GPU" = None
  /\ expansions
       (cache (onWindowMessage (Some FrameWindow)
                 (EXPANSION_RESULT "GPU" "Graphics Processing Unit")
                 (initial paragraph))) !! "GPU"
     = Some "Graphics Processing Unit".
Proof. repeat split; by vm_compute. Qed.

(** C10, as amended.  An answer for a term with no pending entry is
    tolerated: the pending map, the waiting activations, the tooltip, the
    page, the posted requests and the console stay as they are; the
    expansion cache takes the answer under its term when the message comes
    from the frame's window, and stays as it is otherwise. *)
Theorem result_without_pending_entry s source acronym expansion :
  pending (cache s) !! acronym = None ->
  exists s',
    handle (WindowMessage source (EXPANSION_RESULT acronym expansion)) s = Some s'
    /\ pending (cache s') = pending (cache s)
    /\ awaiting s' = awaiting s
    /\ tooltipState s' = tooltipState s
    /\ body s' = body s
    /\ posted s' = posted s
    /\ console s' = console s
    /\ expansions (cache s')
       = (if window_eqb source (frameWindow s)
          then <[acronym := expansion]> (expansions (cache s))
          else expansions (cache s)).
Proof.
  intros Hp. eexists. split; [done|].
  unfold onWindowMessage.
  destruct (window_eqb source (frameWindow s)); cbn [negb]; [|done].
  cbv zeta.
  change (pending (cache (set_cache _ s))) with (pending (cache s)).
  by rewrite Hp.
Qed.

(** The same at a fresh page and an answer for GPU. *)
Lemma result_without_pending_entry_witness :
  pending (cache (initial paragraph)) !! "GPU" = None
  /\ exists s',
       handle (WindowMessage (Some FrameWindow) (EXPANSION_RESULT "GPU" "x"))
         (initial paragraph) = Some s'
       /\ pending (cache s') = pending (cache (initial paragraph))
       /\ awaiting s' = awaiting (initial paragraph)
       /\ tooltipState s' = tooltipState (initial paragraph)
       /\ body s' = body (initial paragraph)
       /\ posted s' = posted (initial paragraph)
       /\ console s' = console (initial paragraph)
       /\ expansions (cache s')
          = (if window_eqb (Some FrameWindow) (frameWindow (initial paragraph))
             then <["GPU" := "x"]> (expansions (cache (initial paragraph)))
             else expansions (cache (initial paragraph))).
Proof.
  split; [reflexivity|].
  apply (result_without_pending_entry (initial paragraph) (Some FrameWindow) "GPU" "x").
  reflexivity.
Defined.

End Coordinator.

(** ** Switching the extension off *)

Module Settings.
Import JsString Dom AcronymExpander Notions PageFacts.

Lemma unmarkAll_structure n : eraseClasses (unmarkAll n) = eraseClasses n.
Proof.
  induction n as [t|tag classes acronym children IH] using node_induction;
    simpl; [done|].
  f_equal. rewrite map_map. apply map_ext_Forall. exact IH.
Qed.

Lemma unmarkAll_classes n :
  classLists (unmarkAll n)
  = map (fun classes => classList_remove classes markerClass) (classLists n).
Proof.
  induction n as [t|tag classes acronym children IH] using node_induction;
    simpl; [done|].
  f_equal. rewrite map_map.
  induction IH as [|c cs Hc _ IHcs]; simpl; [done|].
  by rewrite map_app, Hc, IHcs.
Qed.

Lemma removed_class_absent classes cls : cls ∉ classList_remove classes cls.
Proof. unfold classList_remove. intros [H _]%list_elem_of_filter. done. Qed.

(** C9. A settings-changed event with [extensionEnabled = false] removes
    the marker class from every element that carries it and changes
    nothing else: the tree of elements and texts with their data
    attributes is the same, every other class stays, and the cache, the
    tooltip, the waiting activations, the posted requests, the timers and
    the console are untouched. *)
Theorem disabling_only_unmarks s :
  exists s',
    handle (SETTINGS_CHANGED false) s = Some s'
    /\ eraseClasses (body s') = eraseClasses (body s)
    /\ classLists (body s')
       = map (fun classes => classList_remove classes markerClass)
           (classLists (body s))
    /\ Forall (fun classes => markerClass ∉ classes) (classLists (body s'))
    /\ cache s' = cache s
    /\ tooltipState s' = tooltipState s
    /\ awaiting s' = awaiting s
    /\ posted s' = posted s
    /\ timers s' = timers s
    /\ console s' = console s
    /\ contentWindow s' = contentWindow s.
Proof.
  eexists. split; [done|]. simpl.
  split; [apply unmarkAll_structure|].
  split; [apply unmarkAll_classes|].
  split; [|done].
  rewrite unmarkAll_classes. apply Forall_map, Forall_forall.
  intros classes _. apply removed_class_absent.
Qed.

End Settings.

(** ** The scan of one text node: what it builds and what it returns *)

Module Scanner.
Import JsString Regex Dom AcronymExpander Notions RegexFacts PatternFacts.
Import ScanFacts PageFacts Detector PageReport Invariants.

Lemma exec_geometry text i m j :
  exec acronymPattern text i = Some (m, j) ->
  i <= index m
  /\ j = index m + JsString.length (matched m)
  /\ j <= JsString.length text
  /\ 2 <= JsString.length (matched m)
  /\ slice text (index m) j = matched m.
Proof.
  intros E. apply exec_Some in E as (w & Hi & -> & Hj & Lw & Hm & Hw & _).
  rewrite Hm, length_of_chars. repeat split; try done.
  unfold slice, slice_chars.
  replace (index m + List.length w - index m) with (List.length w) by lia.
  by rewrite Hw.
Qed.

Lemma execAll_apart text : forall fuel i ms,
  execAll fuel text i = Some ms -> apart text i ms.
Proof.
  induction fuel as [|fuel IH]; intros i ms H; [done|].
  simpl in H.
  destruct (exec acronymPattern text i) as [[m j]|] eqn:E.
  - destruct (execAll fuel text j) as [ms'|] eqn:E'; [|done].
    injection H as <-.
    apply exec_geometry in E as (Hi & -> & Hj & L2 & Hs).
    simpl. repeat split; try done. by apply IH.
  - by injection H as <-.
Qed.

Lemma raw_matches_list text :
  exists ms, rawMatches text = Some ms /\ apart text 0 ms.
Proof.
  destruct (rawMatches_total text) as [ms H].
  exists ms. split; [done|]. by apply (execAll_apart text (scan_fuel text)).
Qed.

Lemma apart_count text : forall ms i,
  apart text i ms -> i <= JsString.length text ->
  i + 2 * List.length ms <= JsString.length text.
Proof.
  induction ms as [|m ms IH]; intros i H Hi; simpl; [lia|].
  destruct H as (Him & L2 & Hj & _ & Hrest).
  apply IH in Hrest; [lia|done].
Qed.

(** X1: for every text the loop of [exec] calls ends, and the matches it
    has returned lie in the text from left to right without overlap, each
    at least two characters long and equal to the text at its index; so
    there are at most half as many matches as characters. *)
Theorem raw_matches_apart text :
  exists ms,
    rawMatches text = Some ms /\ apart text 0 ms
    /\ 2 * List.length ms <= JsString.length text.
Proof.
  destruct (raw_matches_list text) as (ms & H & Hap).
  exists ms. repeat split; [done..|].
  apply (apart_count text ms 0 Hap). lia.
Qed.

(** *** One round of the loop *)

Lemma quiet_silent f :
  quiet (chars f) 0 (List.length (chars f)) -> silent f.
Proof.
  intros HQ. unfold silent, processTextNode, processTextNode_fuel.
  destruct (JsString.length f <? 2)%nat eqn:E; [done|].
  rewrite (scan_loop_quiet f HQ); [|lia|unfold scan_fuel, JsString.length; lia].
  unfold finish. simpl.
  by destruct (0 <? JsString.length f)%nat.
Qed.

Lemma silent_slice l p q :
  p <= q <= List.length l ->
  leftClosed l p -> rightClosed l q -> quiet l p q ->
  silent (of_chars (slice_chars l p q)).
Proof.
  intros Hpq HL HR HQ. apply quiet_silent.
  rewrite chars_of_chars, length_slice by lia.
  by apply quiet_slice.
Qed.

Lemma loopInv_skip text i st m j :
  loopInv (chars text) i st ->
  exec acronymPattern text i = Some (m, j) ->
  shouldSkipAcronym (matched m) = true ->
  loopInv (chars text) j st.
Proof.
  set (l := chars text).
  intros [Hr HL HQ HG HT] E Hs.
  apply exec_Some in E as (w & Him & -> & Hj & Lw & Hm & Hw & M & N).
  fold l in Hj, Hw, M, N.
  pose proof (consumed_cursor_at_intro l (index m) w Hj Hw) as C.
  pose proof (matchAt_sound _ _ _ M) as Mm.
  split; try done; [lia|].
  rewrite Hm in Hs.
  pose proof (skipped_match_allWord _ _ _ Mm C Hs) as Wa.
  intros k Hk.
  destruct (decide (k < i)) as [?|?]; [apply HQ; lia|].
  destruct (decide (k < index m)) as [?|?];
    [apply rejectedAt_None, N; lia|].
  destruct (decide (k = index m)) as [->|?].
  - intros e w' Me Ce. rewrite M in Me. injection Me as <-.
    by rewrite (consumed_inj _ _ _ _ Ce C).
  - apply rejectedAt_None.
    apply (inside_word_no_match l (index m) w); (done || lia).
Qed.

Lemma loopInv_accept text i st m j :
  loopInv (chars text) i st ->
  exec acronymPattern text i = Some (m, j) ->
  loopInv (chars text) j (accept_match text m st)
  /\ lastIndex st <= index m
  /\ silent (slice text (lastIndex st) (index m)).
Proof.
  set (l := chars text).
  intros [Hr HL HQ HG HT] E.
  apply exec_Some in E as (w & Him & -> & Hj & Lw & Hm & Hw & M & N).
  fold l in Hj, Hw, M, N.
  pose proof (consumed_cursor_at_intro l (index m) w Hj Hw) as C.
  pose proof (matchAt_sound _ _ _ M) as Mm.
  assert (JsString.length (matched m) = List.length w) as Hlen
    by (by rewrite Hm, length_of_chars).
  destruct (match_starts_with_word _ _ Mm) as [Am Bm].
  rewrite wordAfter_at in Am.
  assert (quiet l (lastIndex st) (index m)) as Hq.
  { intros k Hk. destruct (decide (k < i)) as [?|?]; [apply HQ; lia|].
    apply rejectedAt_None, N. lia. }
  assert (silent (slice text (lastIndex st) (index m))) as Hsil.
  { apply (silent_slice l); [lia|done|by right|done]. }
  split; [|split; [lia|done]].
  split; simpl; rewrite ?Hlen.
  - lia.
  - apply pattern_matches in Mm as (_ & B & _).
    unfold leftClosed. intros Hb. unfold isBoundary in B.
    rewrite Hb, wordAfter_at in B.
    by destruct (wordAt l (index m + List.length w)).
  - intros k Hk. lia.
  - apply Forall_app. split; [|repeat constructor].
    destruct (lastIndex st <? index m)%nat; [|done].
    apply Forall_app. split; [done|]. repeat constructor.
    apply (inert_slice l); [lia|done|by right|done].
  - rewrite map_app, concat_app. simpl.
    rewrite Hm, chars_of_chars, !app_nil_r.
    rewrite <- take_take_drop, Hw. f_equal.
    destruct (lastIndex st <? index m)%nat eqn:Hlt.
    + rewrite map_app, concat_app, HT. simpl.
      unfold slice. rewrite chars_of_chars, app_nil_r.
      unfold slice_chars. rewrite take_take_drop. f_equal. lia.
    + apply Nat.ltb_ge in Hlt. rewrite HT. f_equal. lia.
Qed.

Lemma loopInv_end text i st :
  loopInv (chars text) i st ->
  exec acronymPattern text i = None ->
  loopInv (chars text) (List.length (chars text)) st.
Proof.
  intros [Hr HL HQ HG HT] E. split; try done; [lia|].
  intros k Hk. destruct (decide (k < i)) as [?|?]; [apply HQ; lia|].
  apply rejectedAt_None. apply (exec_None text i); [done|]. lia.
Qed.

Lemma of_chars_nonempty l : l <> [] -> of_chars l ≠ "".
Proof.
  intros Hl E. apply Hl.
  by rewrite <- (chars_of_chars l), E.
Qed.

Lemma slice_nonempty text p q :
  p < q <= JsString.length text -> slice text p q ≠ "".
Proof.
  intros H. apply of_chars_nonempty. intros E.
  apply (f_equal List.length) in E.
  rewrite length_slice in E by (unfold JsString.length in H; lia).
  simpl in E. lia.
Qed.

(** The children built so far are non-empty silent texts and spans for
    terms that pass the exclusion test. *)
Lemma scan_loop_built text : forall fuel i st st',
  loopInv (chars text) i st -> Forall builtFragment (fragments st) ->
  scan_loop fuel text i st = Some st' ->
  loopInv (chars text) (List.length (chars text)) st'
  /\ Forall builtFragment (fragments st').
Proof.
  induction fuel as [|fuel IH]; intros i st st' Hinv Hb H; [done|].
  rewrite scan_loop_S in H.
  destruct (exec acronymPattern text i) as [[m j]|] eqn:E.
  - destruct (shouldSkipAcronym (matched m)) eqn:Hs.
    + apply IH in H; [done| |done]. by eapply loopInv_skip.
    + destruct (loopInv_accept _ _ _ _ _ Hinv E) as (Hinv' & Hle & Hsil).
      apply IH in H; [done|done|].
      apply exec_geometry in E as (_ & Ej & Hj & L2 & _).
      simpl. apply Forall_app. split.
      * destruct (lastIndex st <? index m)%nat eqn:Hlt; [|done].
        apply Nat.ltb_lt in Hlt.
        apply Forall_app. split; [done|].
        constructor; [|constructor]. apply built_text; [|done].
        apply slice_nonempty. lia.
      * constructor; [|constructor]. apply built_span; [done|].
        unfold shouldSkipAcronym in Hs.
        apply orb_false_elim in Hs as [_ Hs]. apply Nat.ltb_ge in Hs. lia.
  - injection H as <-. split; [|done]. by eapply loopInv_end.
Qed.

(** *** The loop as a fold over the accepted matches *)

Lemma short_text_no_match text :
  JsString.length text < 2 -> rawMatches text = Some [].
Proof.
  intros Hlen. destruct (raw_matches_list text) as (ms & -> & Hap).
  destruct ms as [|m ms]; [done|]. simpl in Hap. lia.
Qed.

Lemma processTextNode_fold text :
  exists ms r,
    acceptedMatches text = Some ms /\ processTextNode text = Some r
    /\ apart text 0 ms
    /\ Forall (fun m => shouldSkipAcronym (matched m) = false) ms
    /\ (JsString.length text < 2 -> ms = [] /\ r = TextResult None [] "")
    /\ (2 <= JsString.length text ->
        r = finish text
              (foldl (fun st m => accept_match text m st) (LoopState 0 [] [] "") ms)).
Proof.
  destruct (raw_matches_list text) as (raw & Hraw & Hap).
  unfold acceptedMatches. rewrite Hraw. simpl.
  assert (apart text 0 (accepted raw)) as Hap'.
  { clear Hraw. revert Hap. generalize 0. induction raw as [|m raw IH]; [done|].
    intros i (Hi & L2 & Hj & Hs & Hrest). unfold accepted. rewrite filter_cons.
    case_decide.
    - simpl. repeat split; try done. by apply IH.
    - apply IH in Hrest. revert Hrest. clear -Hi.
      fold (accepted raw). generalize (accepted raw). intros [|m' l]; [done|].
      simpl. intros (? & ?). split; [lia|done]. }
  assert (Forall (fun m => shouldSkipAcronym (matched m) = false) (accepted raw))
    as Hacc.
  { apply Forall_forall. intros m Hm.
    by apply list_elem_of_filter in Hm as [? _]. }
  destruct (decide (JsString.length text < 2)) as [Hlt|Hge].
  - rewrite (short_text_no_match text Hlt) in Hraw. injection Hraw as <-.
    exists [], (TextResult None [] ""). repeat split; try done; [|lia].
    unfold processTextNode, processTextNode_fuel.
    by destruct (Nat.ltb_spec (JsString.length text) 2); [|lia].
  - eexists _, _. split; [done|]. split; [|split; [done|split; [done|split; [lia|done]]]].
    unfold processTextNode, processTextNode_fuel.
    destruct (Nat.ltb_spec (JsString.length text) 2); [lia|].
    rewrite scan_loop_execAll. unfold rawMatches in Hraw. by rewrite Hraw.
Qed.

Lemma fold_lastIndex text ms : forall st,
  lastIndex (foldl (fun st m => accept_match text m st) st ms)
  = from_option (fun m => index m + JsString.length (matched m))
      (lastIndex st) (last ms).
Proof.
  induction ms as [|m ms IH] using rev_ind; intros st; [done|].
  by rewrite foldl_app, last_snoc.
Qed.

Lemma fold_spans text ms : forall st,
  spans (fragments (foldl (fun st m => accept_match text m st) st ms))
  = spans (fragments st) ++ ((fun m => markSpan (matched m)) <$> ms).
Proof.
  induction ms as [|m ms IH]; intros st; simpl; [by rewrite app_nil_r|].
  rewrite IH. simpl. unfold spans.
  rewrite filter_app, <- app_assoc. f_equal.
  - by destruct (lastIndex st <? index m)%nat; [rewrite filter_app, app_nil_r|].
Qed.

Lemma set_add_first l x :
  firstOccurrences (l ++ [x]) = set_add x (firstOccurrences l).
Proof.
  unfold firstOccurrences, set_add. rewrite rev_app_distr. simpl.
  case_decide as Hin; case_bool_decide as Hin'; try done.
  - exfalso. apply Hin'. rewrite list_elem_of_In, <- in_rev, <- list_elem_of_In.
    by rewrite elem_of_remove_dups.
  - exfalso. apply Hin.
    rewrite list_elem_of_In, <- in_rev, <- list_elem_of_In in Hin'.
    by rewrite elem_of_remove_dups in Hin'.
Qed.

Lemma fold_terms text ms : forall st,
  termsFound (foldl (fun st m => accept_match text m st) st ms)
  = foldl (fun acc a => set_add a acc) (termsFound st) (matched <$> ms).
Proof. induction ms as [|m ms IH]; intros st; simpl; [done|]. by rewrite IH. Qed.

Lemma fold_set_add l :
  foldl (fun acc a => set_add a acc) [] l = firstOccurrences l.
Proof.
  induction l as [|x l IH] using rev_ind; [done|].
  by rewrite foldl_app, set_add_first, <- IH.
Qed.

Lemma elem_of_firstOccurrences (l : list string) x :
  x ∈ firstOccurrences l <-> x ∈ l.
Proof.
  unfold firstOccurrences.
  rewrite list_elem_of_In, <- in_rev, <- list_elem_of_In, elem_of_remove_dups.
  by rewrite list_elem_of_In, <- in_rev, <- list_elem_of_In.
Qed.

Lemma fold_context text ms : forall st,
  contextText (foldl (fun st m => accept_match text m st) st ms)
  = from_option
      (fun m => slice text (index m - 50)
                  (Nat.min (JsString.length text)
                     (index m + JsString.length (matched m) + 50)))
      (contextText st) (last ms).
Proof.
  induction ms as [|m ms IH] using rev_ind; intros st; [done|].
  by rewrite foldl_app, last_snoc.
Qed.

Lemma includes_chars_app pre w post :
  includes_chars (pre ++ w ++ post) w = true.
Proof.
  induction pre as [|c pre IH]; simpl.
  - assert (startsWith_chars w (w ++ post) = true) as Hs.
    { induction w as [|a w IHw]; [done|]. simpl.
      by rewrite Ascii.eqb_refl. }
    destruct (w ++ post); simpl; rewrite Hs; done.
  - rewrite IH. apply orb_true_r.
Qed.

Lemma slice_chars_split l lo mid hi :
  lo <= mid <= hi ->
  slice_chars l lo hi = slice_chars l lo mid ++ slice_chars l mid hi.
Proof.
  intros H. unfold slice_chars.
  replace (hi - lo) with ((mid - lo) + (hi - mid)) by lia.
  rewrite <- take_take_drop, drop_drop. do 3 f_equal. lia.
Qed.

(** The children of the container: what the loop has built, then the
    rest of the text. *)
Lemma processTextNode_children text r c :
  processTextNode text = Some r -> replacement r = Some c ->
  exists frs, c = Element "SPAN" [] None frs /\ Forall builtFragment frs.
Proof.
  unfold processTextNode, processTextNode_fuel.
  destruct (JsString.length text <? 2)%nat; [by intros [= <-]|].
  destruct (scan_loop _ _ _ _) as [st|] eqn:S; [|done].
  apply scan_loop_built in S as [[Hr HL HQ HG HT] Hb];
    [|apply loopInv_initial|constructor].
  intros [= <-]. unfold finish. cbn [replacement].
  set (l := chars text) in *.
  destruct (1 <? _)%nat; [|done]. intros [= <-].
  eexists. split; [done|].
  unfold JsString.length. fold l.
  destruct (lastIndex st <? List.length l)%nat eqn:Hlt; [|done].
  apply Nat.ltb_lt in Hlt.
  apply Forall_app. split; [done|]. constructor; [|constructor].
  unfold slice_from. fold l.
  replace (drop (lastIndex st) l)
    with (slice_chars l (lastIndex st) (List.length l))
    by (unfold slice_chars; apply take_ge; rewrite length_drop; lia).
  apply built_text.
  - apply (slice_nonempty text). unfold JsString.length. fold l. lia.
  - apply (silent_slice l); [lia|done|by left|done].
Qed.

Lemma apart_Forall text : forall ms i,
  apart text i ms ->
  Forall (fun m => 2 <= JsString.length (matched m)
                   /\ index m + JsString.length (matched m) <= JsString.length text
                   /\ slice text (index m) (index m + JsString.length (matched m))
                      = matched m) ms.
Proof.
  induction ms as [|m ms IH]; intros i H; [done|].
  destruct H as (_ & ? & ? & ? & Hrest). constructor; [done|]. by eapply IH.
Qed.

Lemma not_skipped_short a :
  shouldSkipAcronym a = false -> JsString.length a <= 12.
Proof.
  unfold shouldSkipAcronym. intros H.
  apply orb_false_elim in H as [_ H]. by apply Nat.ltb_ge in H.
Qed.

Lemma scan_terms text ms r :
  acceptedMatches text = Some ms -> processTextNode text = Some r ->
  terms r = firstOccurrences (matched <$> ms).
Proof.
  intros Hms Hr.
  destruct (processTextNode_fold text) as (ms' & r' & Hms' & Hr' & _ & _ & Hlt & Hge).
  rewrite Hms in Hms'. injection Hms' as <-.
  rewrite Hr in Hr'. injection Hr' as <-.
  destruct (decide (JsString.length text < 2)) as [H|H].
  - by destruct (Hlt H) as [-> ->].
  - rewrite Hge by lia. unfold finish. cbn [terms].
    by rewrite fold_terms, fold_set_add.
Qed.

(** X2: the terms [processTextNode] returns are the texts of the accepted
    matches, each once, in the order of their first occurrence; none of
    them fails the exclusion test, and each has 2 to 12 characters. *)
Theorem terms_are_first_occurrences text :
  exists ms r,
    acceptedMatches text = Some ms /\ processTextNode text = Some r
    /\ terms r = firstOccurrences (matched <$> ms)
    /\ NoDup (terms r)
    /\ Forall (fun a => shouldSkipAcronym a = false
                        /\ 2 <= JsString.length a <= 12) (terms r).
Proof.
  destruct (processTextNode_fold text) as (ms & r & Hms & Hr & Hap & Hacc & _).
  exists ms, r. split; [done|]. split; [done|].
  pose proof (scan_terms _ _ _ Hms Hr) as Ht.
  split; [done|]. rewrite Ht. split.
  - unfold firstOccurrences. apply NoDup_ListNoDup, List.NoDup_rev, NoDup_ListNoDup.
    apply NoDup_remove_dups.
  - apply Forall_forall. intros a Ha. unfold firstOccurrences in Ha.
    rewrite list_elem_of_In, <- in_rev, <- list_elem_of_In in Ha.
    rewrite elem_of_remove_dups in Ha.
    rewrite list_elem_of_In, <- in_rev, <- list_elem_of_In in Ha.
    apply list_elem_of_fmap in Ha as (m & -> & Hm).
    rewrite Forall_forall in Hacc.
    pose proof (apart_Forall _ _ _ Hap) as Hgeo. rewrite Forall_forall in Hgeo.
    destruct (Hgeo m Hm) as (? & _). pose proof (Hacc m Hm) as Hs.
    split; [done|]. split; [done|]. by apply not_skipped_short.
Qed.

(** X3: the context [processTextNode] returns is empty when no match is
    accepted; otherwise it is the stretch of the text from 50 characters
    before the last accepted match to 50 characters after it, cut at the
    ends of the text: it contains that term and is at most 100 characters
    longer. *)
Theorem context_surrounds_last_term text :
  exists ms r,
    acceptedMatches text = Some ms /\ processTextNode text = Some r
    /\ match last ms with
       | None => context r = ""
       | Some m =>
           context r
           = slice text (index m - 50)
               (Nat.min (JsString.length text)
                  (index m + JsString.length (matched m) + 50))
           /\ includes (context r) (matched m) = true
           /\ JsString.length (context r) <= JsString.length (matched m) + 100
       end.
Proof.
  destruct (processTextNode_fold text) as (ms & r & Hms & Hr & Hap & Hacc & Hlt & Hge).
  exists ms, r. split; [done|]. split; [done|].
  destruct (decide (JsString.length text < 2)) as [H|H].
  { by destruct (Hlt H) as [-> ->]. }
  rewrite Hge by lia. unfold finish. cbn [context]. rewrite fold_context.
  destruct (last ms) as [m|] eqn:El; [|done]. simpl.
  split; [done|].
  pose proof (apart_Forall _ _ _ Hap) as Hgeo. rewrite Forall_forall in Hgeo.
  apply last_Some in El as [ms' ->].
  destruct (Hgeo m) as (L2 & Hj & Hs);
    [apply list_elem_of_In, in_app_iff; right; by left|].
  set (a := JsString.length (matched m)) in *.
  set (n := JsString.length text) in *.
  set (lo := index m - 50). set (hi := Nat.min n (index m + a + 50)).
  assert (chars (slice text lo hi)
          = slice_chars (chars text) lo (index m) ++ chars (matched m)
            ++ slice_chars (chars text) (index m + a) hi) as Hsplit.
  { unfold slice at 1. rewrite chars_of_chars.
    rewrite (slice_chars_split _ lo (index m) hi) by lia.
    rewrite (slice_chars_split _ (index m) (index m + a) hi) by lia.
    rewrite <- Hs. unfold slice. by rewrite chars_of_chars. }
  split.
  - unfold includes. rewrite Hsplit. apply includes_chars_app.
  - unfold JsString.length at 1. unfold slice. rewrite chars_of_chars.
    unfold slice_chars. rewrite length_take. lia.
Qed.

Lemma spans_finish text st :
  spans (if (lastIndex st <? JsString.length text)%nat
         then fragments st ++ [Text (slice_from text (lastIndex st))]
         else fragments st)
  = spans (fragments st).
Proof.
  destruct (lastIndex st <? JsString.length text)%nat; [|done].
  unfold spans. rewrite filter_app, filter_cons_False by done.
  by rewrite filter_nil, app_nil_r.
Qed.

Lemma scan_spans text ms r c :
  acceptedMatches text = Some ms -> processTextNode text = Some r ->
  replacement r = Some c ->
  exists frs,
    c = Element "SPAN" [] None frs
    /\ spans frs = (fun m => markSpan (matched m)) <$> ms
    /\ Forall builtFragment frs.
Proof.
  intros Hms Hr Hc.
  destruct (processTextNode_fold text) as (ms' & r' & Hms' & Hr' & _ & _ & Hlt & Hge).
  rewrite Hms in Hms'. injection Hms' as <-.
  rewrite Hr in Hr'. injection Hr' as <-.
  destruct (processTextNode_children _ _ _ Hr Hc) as (frs & -> & Hb).
  exists frs. repeat split; try done.
  destruct (decide (JsString.length text < 2)) as [H|H].
  { destruct (Hlt H) as [_ ->]. discriminate Hc. }
  rewrite Hge in Hc by lia. unfold finish in Hc. cbn [replacement] in Hc.
  destruct (1 <? _)%nat; [|done]. injection Hc as <-.
  rewrite spans_finish. by rewrite fold_spans.
Qed.

(** X4: when [processTextNode] replaces the node, the container is a
    plain span whose element children are the marked spans of the accepted
    matches, one for each match, from left to right; its other children
    are text nodes that are not empty and in which a scan of their own
    finds nothing; and the container's text is the node's text. *)
Theorem container_children text :
  exists ms r,
    acceptedMatches text = Some ms /\ processTextNode text = Some r
    /\ forall c, replacement r = Some c ->
         exists frs,
           c = Element "SPAN" [] None frs
           /\ spans frs = (fun m => markSpan (matched m)) <$> ms
           /\ Forall builtFragment frs
           /\ of_chars (textChars c) = text.
Proof.
  destruct (processTextNode_fold text) as (ms & r & Hms & Hr & _).
  exists ms, r. split; [done|]. split; [done|]. intros c Hc.
  destruct (scan_spans _ _ _ _ Hms Hr Hc) as (frs & -> & Hs & Hb).
  destruct (Segmenter.replacement_spells_text _ _ _ Hr Hc) as (_ & _ & Ht).
  by exists frs.
Qed.

End Scanner.

(** ** The exclusion test in the scan *)

Module Exclusion.
Import JsString Regex Dom AcronymExpander Notions ScanFacts Detector.
Import Invariants Scanner.

Lemma accepted_by_spec (raw : list match_result) m :
  m ∈ accepted raw <-> m ∈ raw /\ ~ excludedBySpec (matched m).
Proof.
  unfold accepted. rewrite list_elem_of_filter, shouldSkipAcronym_false. tauto.
Qed.

(** C5. The exclusion test of the scan is the rule of the specification:
    a token is rejected exactly when it is one of the ten skip words or
    longer than 12 characters.  The loop of [processTextNode] applies it
    to every raw match, that is to every result of [exec]: a rejected
    match leaves the loop's variables as they are, any other match is
    taken up.  So over a whole text the terms returned are the raw
    matches that the rule lets through, each once, and the marked spans
    of the container are those matches in order.  In "The USA uses an API
    for PM updates" the raw matches are USA, API and PM; only API, at
    offset 16, is marked and returned.  A token of 13 characters is
    always rejected and one of 12 characters is always let through; a run
    of 13 capitals in a text is a raw match and is left unmarked, a run of
    12 is marked. *)
Theorem exclusion_in_the_scan :
  (forall acronym, shouldSkipAcronym acronym = true <-> excludedBySpec acronym)
  /\ (forall text fuel i st m j,
        exec acronymPattern text i = Some (m, j) ->
        (excludedBySpec (matched m) ->
         scan_loop (S fuel) text i st = scan_loop fuel text j st)
        /\ (~ excludedBySpec (matched m) ->
            scan_loop (S fuel) text i st
            = scan_loop fuel text j (accept_match text m st)))
  /\ (forall text,
        exists raw r,
          rawMatches text = Some raw
          /\ processTextNode text = Some r
          /\ terms r = firstOccurrences (matched <$> accepted raw)
          /\ (forall m, m ∈ raw ->
                (matched m ∈ terms r <-> ~ excludedBySpec (matched m)))
          /\ (forall token, token ∈ terms r ->
                exists m, m ∈ raw /\ matched m = token)
          /\ (forall c, replacement r = Some c ->
                exists frs,
                  c = Element "SPAN" [] None frs
                  /\ spans frs = (fun m => markSpan (matched m)) <$> accepted raw
                  /\ forall m, m ∈ raw ->
                       (markSpan (matched m) ∈ frs
                        <-> ~ excludedBySpec (matched m))))
  /\ rawMatches "The USA uses an API for PM updates"
     = Some [MatchResult 4 "USA"; MatchResult 16 "API"; MatchResult 24 "PM"]
  /\ processTextNode "The USA uses an API for PM updates"
     = Some (TextResult
               (Some (Element "SPAN" [] None
                        [Text "The USA uses an "; markSpan "API";
                         Text " for PM updates"]))
               ["API"] "The USA uses an API for PM updates")
  /\ JsString.length "The USA uses an " = 16
  /\ (forall token, JsString.length token = 13 -> shouldSkipAcronym token = true)
  /\ (forall token, JsString.length token = 12 -> shouldSkipAcronym token = false)
  /\ rawMatches "an ABCDEFGHIJKLM here" = Some [MatchResult 3 "ABCDEFGHIJKLM"]
  /\ processTextNode "an ABCDEFGHIJKLM here" = Some (TextResult None [] "")
  /\ rawMatches "an ABCDEFGHIJKL here" = Some [MatchResult 3 "ABCDEFGHIJKL"]
  /\ processTextNode "an ABCDEFGHIJKL here"
     = Some (TextResult
               (Some (Element "SPAN" [] None
                        [Text "an "; markSpan "ABCDEFGHIJKL"; Text " here"]))
               ["ABCDEFGHIJKL"] "an ABCDEFGHIJKL here").
Proof.
  split; [exact shouldSkipAcronym_spec|].
  split.
  { intros text fuel i st m j He. rewrite scan_loop_S. rewrite He. split.
    - intros H%shouldSkipAcronym_spec. by rewrite H.
    - intros H%shouldSkipAcronym_false. by rewrite H. }
  split.
  { intros text.
    destruct (rawMatches_total text) as [raw Hraw].
    destruct (processTextNode_total text) as [r Hr].
    assert (acceptedMatches text = Some (accepted raw)) as Hacc
      by (unfold acceptedMatches; by rewrite Hraw).
    pose proof (scan_terms _ _ _ Hacc Hr) as Hterms.
    exists raw, r. split; [done|]. split; [done|]. split; [done|].
    split; [|split].
    - intros m Hm. rewrite Hterms, elem_of_firstOccurrences, list_elem_of_fmap.
      split.
      + intros (m' & Heq & [_ Hok]%accepted_by_spec). by rewrite Heq.
      + intros Hok. exists m. split; [done|]. by apply accepted_by_spec.
    - intros token.
      rewrite Hterms, elem_of_firstOccurrences, list_elem_of_fmap.
      intros (m & -> & [Hm _]%accepted_by_spec). by exists m.
    - intros c Hc.
      destruct (scan_spans _ _ _ _ Hacc Hr Hc) as (frs & -> & Hs & Hb).
      exists frs. split; [done|]. split; [done|].
      intros m Hm.
      assert (markSpan (matched m) ∈ frs <-> markSpan (matched m) ∈ spans frs)
        as ->.
      { unfold spans. rewrite list_elem_of_filter. simpl. tauto. }
      rewrite Hs, list_elem_of_fmap. split.
      + intros (m' & Heq & [_ Hok]%accepted_by_spec).
        assert (matched m = matched m') as -> by (by injection Heq). done.
      + intros Hok. exists m. split; [done|]. by apply accepted_by_spec. }
  split; [by vm_compute|]. split; [by vm_compute|]. split; [by vm_compute|].
  split.
  { intros token Hlen. apply shouldSkipAcronym_spec. right. lia. }
  split.
  { intros token Hlen. apply shouldSkipAcronym_false. intros [Hin|Hgt]; [|lia].
    assert (token ∈ nonTechWords) as Hin'
      by (unfold nonTechWords; by rewrite elem_of_list_to_set).
    apply skip_words_short in Hin'. lia. }
  split; [by vm_compute|]. split; [by vm_compute|].
  split; by vm_compute.
Qed.

End Exclusion.

(** ** What the scan is sure to find *)

Module Detection.
Import JsString Regex Dom AcronymExpander Notions RegexFacts PatternFacts.
Import ScanFacts PageFacts Detector PageReport Invariants Scanner.

Lemma chr_matches (p : ascii -> bool) c bef aft :
  p c = true -> matches (Chr p) (Cursor bef (c :: aft)) (Cursor (c :: bef) aft).
Proof. intros H. by eapply M_chr. Qed.

Lemma tail_matches rest : forall bef aft,
  Forall (fun c => isUpper c = true \/ isDigit c = true) rest ->
  matches (Star (Seq (Star (Chr isDigit)) (Star (Chr isUpper))))
    (Cursor bef (rest ++ aft)) (Cursor (rev rest ++ bef) aft).
Proof.
  induction rest as [|c rest IH]; intros bef aft H; [apply M_star_stop|].
  apply Forall_cons in H as [Hc H]. simpl. rewrite <- app_assoc. simpl.
  apply (M_star_step _ _ (Cursor (c :: bef) (rest ++ aft))).
  - destruct Hc as [Hu|Hd].
    + eapply M_seq; [apply M_star_stop|].
      eapply M_star_step; [by apply chr_matches|unfold endIndex; simpl; lia|apply M_star_stop].
    + eapply M_seq; [|apply M_star_stop].
      eapply M_star_step; [by apply chr_matches|unfold endIndex; simpl; lia|apply M_star_stop].
  - unfold endIndex. simpl. lia.
  - by apply IH.
Qed.

Lemma capitals_allWord w : capitals w -> allWord w = true /\ 2 <= List.length w.
Proof.
  intros (a & b & rest & -> & Ha & Hb & Hr). split; [|simpl; lia].
  apply Forall_allWord. repeat constructor; [by apply upper_word..|].
  eapply Forall_impl; [exact Hr|]. intros c [H|H];
    [by apply upper_word|by apply digit_word].
Qed.

Lemma wordBefore_last pre aft :
  wordBefore (Cursor (rev pre) aft) = from_option isWordChar false (last pre).
Proof.
  destruct pre as [|c pre _] using rev_ind; [done|].
  rewrite rev_app_distr, last_snoc. done.
Qed.

Lemma capitals_match pre w post :
  capitals w -> openBefore pre -> headWord post = false ->
  matches acronymPattern (Cursor (rev pre) (w ++ post))
    (Cursor (rev w ++ rev pre) post).
Proof.
  intros Hcap Hpre Hpost.
  destruct (capitals_allWord w Hcap) as [Wa L2].
  destruct Hcap as (a & b & rest & -> & Ha & Hb & Hr).
  unfold acronymPattern.
  apply (M_seq _ _ _ (Cursor (rev pre) ((a :: b :: rest) ++ post))).
  { apply M_boundary. unfold isBoundary. rewrite wordBefore_last.
    unfold openBefore in Hpre. unfold wordAfter. simpl.
    rewrite (upper_word a Ha).
    destruct (last pre) as [c|]; simpl; [|done]. by destruct Hpre as [-> _]. }
  apply (M_seq _ _ _ (Cursor (rev (a :: b :: rest) ++ rev pre) post)).
  - apply M_alt_l.
    apply (M_seq _ _ _ (Cursor (b :: a :: rev pre) (rest ++ post))).
    + unfold atLeast2.
      apply (M_seq _ _ _ (Cursor (a :: rev pre) (b :: rest ++ post)));
        [by apply chr_matches|].
      apply (M_seq _ _ _ (Cursor (b :: a :: rev pre) (rest ++ post)));
        [by apply chr_matches|apply M_star_stop].
    + replace (rev (a :: b :: rest) ++ rev pre)
        with (rev rest ++ b :: a :: rev pre)
        by (simpl; by rewrite <- !app_assoc).
      by apply tail_matches.
  - apply M_boundary. unfold isBoundary.
    change (wordBefore (Cursor (rev (a :: b :: rest) ++ rev pre) post))
      with (headWord (rev (a :: b :: rest) ++ rev pre)).
    rewrite headWord_rev_allWord by done.
    unfold wordAfter. simpl. fold (headWord post). by rewrite Hpost.
Qed.

Lemma capitals_matchAt pre w post :
  capitals w -> openBefore pre -> headWord post = false ->
  matchAt acronymPattern (Cursor (rev pre) (w ++ post))
  = Some (Cursor (rev w ++ rev pre) post).
Proof.
  intros Hcap Hpre Hpost.
  pose proof (capitals_match pre w post Hcap Hpre Hpost) as M.
  destruct (capitals_allWord w Hcap) as [Wa L2].
  set (x := Cursor (rev pre) (w ++ post)) in *.
  set (y := Cursor (rev w ++ rev pre) post) in *.
  assert (consumed x w y) as C by done.
  destruct (matchAt_complete _ _ _ M) as [e He]. rewrite He. f_equal.
  pose proof (matchAt_sound _ _ _ He) as Me.
  destruct (pattern_matches _ _ Me) as (_ & Be & w' & Ce & L2' & Hw').
  destruct (pattern_matches _ _ M) as (_ & By & _).
  assert (w <> []) as Hne by (intros ->; simpl in L2; lia).
  assert (w' <> []) as Hne' by (intros ->; simpl in L2'; lia).
  destruct Hw' as [Wa'|Hd].
  - pose proof (word_run_unique _ _ _ _ _ Ce C Hne' Hne Wa' Wa Be By) as ->.
    by rewrite (consumed_cursor _ _ _ Ce), (consumed_cursor _ _ _ C).
  - exfalso. destruct Hd as (name & sfx & Hn & _ & ->).
    destruct Ce as [Hafter _]. simpl in Hafter.
    destruct Hcap as (a & b & rest & -> & Ha & Hb & _).
    cases Hn; simpl in Hafter; injection Hafter as -> -> _; by vm_compute in Hb.
Qed.

Lemma dotted_chars w c :
  dotted w -> c ∈ w -> isWordChar c = true \/ c = "."%char.
Proof.
  intros (name & sfx & Hn & Hs & ->) Hc.
  cases Hn; cases Hs; apply list_elem_of_In in Hc; simpl in Hc;
    repeat (destruct Hc as [<-|Hc]; [(by left) || (by right)|]); destruct Hc.
Qed.

Lemma capitals_found pre w post :
  capitals w -> openBefore pre -> headWord post = false ->
  matchAt acronymPattern (cursor_at (pre ++ w ++ post) (List.length pre))
  = Some (cursor_at (pre ++ w ++ post) (List.length pre + List.length w)).
Proof.
  intros Hcap Hpre Hpost.
  assert (cursor_at (pre ++ w ++ post) (List.length pre)
          = Cursor (rev pre) (w ++ post)) as ->.
  { rewrite <- (length_rev pre). apply cursor_at_input.
    by rewrite rev_involutive. }
  assert (cursor_at (pre ++ w ++ post) (List.length pre + List.length w)
          = Cursor (rev w ++ rev pre) post) as ->.
  { replace (List.length pre + List.length w)
      with (List.length (rev w ++ rev pre))
      by (rewrite length_app, !length_rev; lia).
    apply cursor_at_input.
    rewrite rev_app_distr, !rev_involutive. by rewrite <- app_assoc. }
  by apply capitals_matchAt.
Qed.

Lemma capitals_reached pre w post :
  capitals w -> openBefore pre -> headWord post = false ->
  forall fuel i ms,
    execAll fuel (of_chars (pre ++ w ++ post)) i = Some ms ->
    i <= List.length pre ->
    exists m, m ∈ ms /\ index m = List.length pre /\ matched m = of_chars w.
Proof.
  intros Hcap Hpre Hpost.
  pose proof (capitals_found pre w post Hcap Hpre Hpost) as K.
  assert (List.length (pre ++ w ++ post)
          = List.length pre + List.length w + List.length post) as Hlen
    by (rewrite !length_app; lia).
  set (l := pre ++ w ++ post) in *. set (k := List.length pre) in *.
  induction fuel as [|fuel IH]; intros i ms H Hi; [done|]. simpl in H.
  destruct (exec acronymPattern (of_chars l) i) as [[m j]|] eqn:E.
  - destruct (execAll fuel (of_chars l) j) as [ms'|] eqn:E'; [|done].
    injection H as <-.
    apply exec_Some in E as (wm & Him & -> & Hj & L2 & Hm & Hwm & Mm & N).
    rewrite chars_of_chars in *.
    assert (index m <= k) as Hle.
    { destruct (decide (index m <= k)) as [?|Hgt]; [done|].
      rewrite N in K by lia. done. }
    destruct (decide (index m = k)) as [Heq|Hlt].
    + exists m. split; [apply list_elem_of_here|]. split; [done|].
      rewrite Heq in *.
      assert (cursor_at l (k + List.length wm) = cursor_at l (k + List.length w))
        as Hc by congruence.
      apply (f_equal endIndex) in Hc.
      rewrite !endIndex_cursor_at in Hc by lia.
      rewrite Hm. f_equal. rewrite <- Hwm.
      replace (List.length wm) with (List.length w) by lia.
      unfold l, k. rewrite drop_app_length, take_app_length. done.
    + destruct (decide (index m + List.length wm <= k)) as [Hend|Hover].
      * destruct (IH _ _ E' Hend) as (m' & Hin & ? & ?).
        exists m'. split; [by apply list_elem_of_further|done].
      * exfalso.
        assert (exists c, last pre = Some c /\ c ∈ wm) as (c & Hc & Hin).
        { clear IH K E' N Mm Hlen Hpre Hcap. unfold k, l in *. clear k l.
          destruct pre as [|c0 pre0 _] using rev_ind; [simpl in *; lia|].
          rewrite length_app in *. simpl in *.
          exists c0. split; [apply last_snoc|].
          apply (list_elem_of_lookup_2 _ (List.length pre0 - index m)).
          rewrite <- Hwm. rewrite lookup_take_lt, lookup_drop by lia.
          replace (index m + (List.length pre0 - index m))
            with (List.length pre0) by lia.
          rewrite <- app_assoc. simpl. by apply list_lookup_middle. }
        unfold openBefore in Hpre. rewrite Hc in Hpre. destruct Hpre as [Hnw Hnd].
        pose proof (matchAt_sound _ _ _ Mm) as Mm'.
        destruct (pattern_matches _ _ Mm') as (_ & _ & w' & C' & _ & Hw').
        pose proof (consumed_cursor_at_intro l (index m) wm Hj Hwm) as C.
        pose proof (consumed_inj _ _ _ _ C C') as <-.
        destruct Hw' as [Wa|Hd].
        -- unfold allWord in Wa. rewrite forallb_forall in Wa.
           apply list_elem_of_In in Hin. apply Wa in Hin. congruence.
        -- destruct (dotted_chars _ _ Hd Hin); congruence.
  - exfalso. pose proof (exec_None _ _ k E) as N.
    rewrite chars_of_chars in N. rewrite N in K; [done|lia].
Qed.

Lemma capitals_scan pre w post :
  capitals w -> openBefore pre -> headWord post = false ->
  shouldSkipAcronym (of_chars w) = false ->
  pre ++ post <> [] ->
  exists r frs,
    processTextNode (of_chars (pre ++ w ++ post)) = Some r
    /\ replacement r = Some (Element "SPAN" [] None frs)
    /\ markSpan (of_chars w) ∈ frs
    /\ of_chars w ∈ terms r.
Proof.
  intros Hcap Hpre Hpost Hskip Hlonger.
  destruct (capitals_allWord w Hcap) as [_ L2].
  set (text := of_chars (pre ++ w ++ post)).
  assert (JsString.length text
          = List.length pre + List.length w + List.length post) as Hlen.
  { unfold text. rewrite length_of_chars, !length_app. lia. }
  destruct (Segmenter.replaced_iff text) as (ms & r & Hms & Hr & Hiff); [lia|].
  assert (exists m, m ∈ ms /\ index m = List.length pre
                    /\ matched m = of_chars w) as (m & Hin & Hidx & Hm).
  { unfold acceptedMatches in Hms.
    destruct (rawMatches text) as [raw|] eqn:Hraw; [|done].
    injection Hms as <-.
    destruct (capitals_reached pre w post Hcap Hpre Hpost _ 0 raw Hraw)
      as (m & Hin & Hidx & Hm); [lia|].
    exists m. split; [|done]. apply list_elem_of_filter. split; [|done].
    by rewrite Hm. }
  destruct (replacement r) as [c|] eqn:Hc.
  - destruct (scan_spans _ _ _ _ Hms Hr Hc) as (frs & -> & Hs & _).
    exists r, frs. split; [done|]. split; [done|]. split.
    + assert (markSpan (of_chars w) ∈ spans frs) as Hspan.
      { rewrite Hs, <- Hm. apply list_elem_of_fmap. by exists m. }
      by apply list_elem_of_filter in Hspan as [_ ?].
    + rewrite (scan_terms _ _ _ Hms Hr). apply elem_of_firstOccurrences.
      rewrite <- Hm. apply list_elem_of_fmap. by exists m.
  - exfalso. destruct Hiff as [Hnone _].
    destruct (Hnone eq_refl) as [->|(m0 & -> & H0 & Hl0)].
    + by apply elem_of_nil in Hin.
    + apply list_elem_of_singleton in Hin. subst m0.
      rewrite Hm, length_of_chars in Hl0.
      destruct pre; [|simpl in *; lia]. destruct post; [|simpl in *; lia]. done.
Qed.

(** X5: a word of capitals and digits that begins with two capitals and
    passes the exclusion test, standing in a longer text between characters
    that are neither word characters nor (before it) a dot, is found by the
    scan: it is among the terms returned, the text node is replaced, and
    the container holds a marked span for the word. *)
Theorem capitals_are_marked pre w post :
  capitals w -> openBefore pre -> headWord post = false ->
  shouldSkipAcronym (of_chars w) = false ->
  pre ++ post <> [] ->
  exists r frs,
    processTextNode (of_chars (pre ++ w ++ post)) = Some r
    /\ replacement r = Some (Element "SPAN" [] None frs)
    /\ markSpan (of_chars w) ∈ frs
    /\ of_chars w ∈ terms r.
Proof. exact (capitals_scan pre w post). Qed.

Lemma capitals_are_marked_witness :
  exists r frs,
    processTextNode "Uses HDR10, mostly" = Some r
    /\ replacement r = Some (Element "SPAN" [] None frs)
    /\ markSpan "HDR10" ∈ frs
    /\ "HDR10" ∈ terms r.
Proof.
  apply (capitals_are_marked (chars "Uses ") (chars "HDR10") (chars ", mostly")).
  - exists "H"%char, "D"%char, (chars "R10"). split; [reflexivity|].
    split; [reflexivity|]. split; [reflexivity|].
    repeat constructor; (by left) || (by right).
  - split; [reflexivity|discriminate].
  - reflexivity.
  - vm_compute. reflexivity.
  - discriminate.
Defined.

End Detection.

(** ** Switching the extension off and on again *)

Module Toggle.
Import JsString Regex Dom AcronymExpander Notions RegexFacts PatternFacts.
Import ScanFacts PageFacts Detector PageReport Invariants Scanner.

Lemma dotted_not_word w : dotted w -> allWord w = false.
Proof.
  intros (name & sfx & Hn & Hs & ->).
  cases Hn; cases Hs; by vm_compute.
Qed.

Lemma allWord_take w n : allWord w = true -> allWord (take n w) = true.
Proof.
  unfold allWord. revert n.
  induction w as [|c w IH]; intros [|n]; simpl; try done.
  intros H. apply andb_true_iff in H as [-> H]. simpl. by apply IH.
Qed.

(** A match made of word characters, taken out of its text, is matched
    again from its first to its last character. *)
Lemma word_match_alone x y w :
  matches acronymPattern x y -> consumed x w y -> allWord w = true ->
  matchAt acronymPattern (cursor_at w 0) = Some (cursor_at w (List.length w)).
Proof.
  intros M C Wa.
  destruct (pattern_matches _ _ M) as (_ & By & w0 & C0 & L2 & _).
  pose proof (consumed_inj _ _ _ _ C C0) as <-. clear C0.
  assert (w <> []) as Hne by (intros ->; simpl in L2; lia).
  destruct (match_starts_with_word _ _ M) as [_ Bx].
  pose proof (wordBefore_consumed _ _ _ C Hne Wa) as Wy.
  assert (wordAfter y = false) as Ay.
  { unfold isBoundary in By. rewrite Wy in By. by destruct (wordAfter y). }
  assert (consumed (cursor_at w 0) w (cursor_at w (List.length w))) as C'.
  { apply (consumed_cursor_at_intro w 0 w); [lia|]. simpl. apply take_ge. lia. }
  assert (matches acronymPattern (cursor_at w 0) (cursor_at w (List.length w)))
    as M'.
  { eapply matches_transport; [exact M|exact C|exact C'| |].
    - by rewrite wordBefore_at_0.
    - by rewrite wordAfter_at, wordAt_end. }
  destruct (matchAt_complete _ _ _ M') as [e He]. rewrite He. f_equal.
  pose proof (matchAt_sound _ _ _ He) as Me.
  destruct (pattern_matches _ _ Me) as (_ & Be & w' & Ce & L2' & Hw').
  destruct (pattern_matches _ _ M') as (_ & By' & _).
  destruct (consumed_cursor_at w 0 w' e) as (-> & Hle & Htake); [lia|done|].
  simpl in Htake, Hle.
  assert (allWord w' = true) as Wa'.
  { rewrite <- Htake. by apply allWord_take. }
  assert (w' <> []) as Hne' by (intros ->; simpl in L2'; lia).
  by rewrite (word_run_unique _ _ _ _ _ Ce C' Hne' Hne Wa' Wa Be By').
Qed.

Lemma exec_past_end text i :
  JsString.length text <= i + 1 -> exec acronymPattern text i = None.
Proof.
  intros H. destruct (exec acronymPattern text i) as [[m j]|] eqn:E; [|done].
  apply exec_geometry in E as (? & ? & ? & ? & _). lia.
Qed.

Lemma word_alone_matches w :
  matchAt acronymPattern (cursor_at w 0) = Some (cursor_at w (List.length w)) ->
  rawMatches (of_chars w) = Some [MatchResult 0 (of_chars w)].
Proof.
  intros M. unfold rawMatches, scan_fuel. simpl.
  assert (exec acronymPattern (of_chars w) 0
          = Some (MatchResult 0 (of_chars w), List.length w)) as ->.
  { assert (search acronymPattern (rev (take 0 w)) (drop 0 w)
            = Some (cursor_at w 0, cursor_at w (List.length w))) as Hsearch.
    { change (rev (take 0 w)) with (@nil ascii). change (drop 0 w) with w.
      change (Cursor [] w) with (cursor_at w 0) in *.
      destruct w; unfold search; fold search;
        change (Cursor [] ?l) with (cursor_at l 0); by rewrite M. }
    unfold exec. cbv zeta. rewrite chars_of_chars, Hsearch.
    destruct (Nat.ltb_spec (List.length w) 0); [lia|].
    rewrite (endIndex_cursor_at w (List.length w)) by done.
    change (endIndex (cursor_at w 0)) with 0.
    unfold slice_chars. rewrite Nat.sub_0_r. change (drop 0 w) with w.
    by rewrite take_ge by lia. }
  rewrite length_of_chars.
  destruct (List.length w) as [|n] eqn:En.
  - simpl. rewrite exec_past_end; [done|]. rewrite length_of_chars. lia.
  - simpl. rewrite exec_past_end; [done|]. rewrite length_of_chars. lia.
Qed.

Lemma execAll_matches text : forall fuel i ms,
  execAll fuel text i = Some ms ->
  Forall (fun m => exists w,
            matched m = of_chars w
            /\ matches acronymPattern (cursor_at (chars text) (index m))
                 (cursor_at (chars text) (index m + List.length w))
            /\ consumed (cursor_at (chars text) (index m)) w
                 (cursor_at (chars text) (index m + List.length w))) ms.
Proof.
  induction fuel as [|fuel IH]; intros i ms H; [done|]. simpl in H.
  destruct (exec acronymPattern text i) as [[m j]|] eqn:E.
  - destruct (execAll fuel text j) as [ms'|] eqn:E'; [|done].
    injection H as <-. constructor; [|by eapply IH].
    apply exec_Some in E as (w & _ & -> & Hj & _ & Hm & Hw & M & _).
    exists w. split; [done|]. split; [by apply matchAt_sound|].
    by apply consumed_cursor_at_intro.
  - injection H as <-. constructor.
Qed.

(** X6: switching the extension off and on again does not bring back
    the marks.  For every accepted match made of word characters only, the
    span that carried it has, once its class is removed, the term as its
    whole text; [processTextNode] finds the term there but leaves the text
    node in place, so [processPage] leaves the span without a mark. *)
Theorem removed_mark_is_not_restored text ms m :
  acceptedMatches text = Some ms -> m ∈ ms ->
  allWord (chars (matched m)) = true ->
  processTextNode (matched m)
  = Some (TextResult None [matched m] (matched m))
  /\ processPage (unmarkAll (markSpan (matched m)))
     = Some (unmarkAll (markSpan (matched m))).
Proof.
  intros Hms Hin Wa.
  unfold acceptedMatches in Hms.
  destruct (rawMatches text) as [raw|] eqn:Hraw; [|done].
  injection Hms as <-. apply list_elem_of_filter in Hin as [Hs Hin].
  pose proof (execAll_matches _ _ _ _ Hraw) as Hall.
  rewrite Forall_forall in Hall.
  destruct (Hall m Hin) as (w & Hm & M & C).
  rewrite Hm in *. rewrite chars_of_chars in Wa.
  pose proof (word_alone_matches w (word_match_alone _ _ _ M C Wa)) as Hw.
  destruct (pattern_matches _ _ M) as (_ & _ & w0 & C0 & L2 & _).
  pose proof (consumed_inj _ _ _ _ C C0) as <-. clear C0.
  destruct (processTextNode_fold (of_chars w))
    as (ms & r & Hacc & Hr & _ & _ & _ & Hge).
  unfold acceptedMatches in Hacc. rewrite Hw in Hacc. simpl in Hacc.
  unfold accepted in Hacc. rewrite filter_cons, decide_True in Hacc by done.
  rewrite filter_nil in Hacc. injection Hacc as <-.
  rewrite length_of_chars in Hge. specialize (Hge L2).
  assert (r = TextResult None [of_chars w] (of_chars w)) as ->.
  { rewrite Hge. unfold finish. simpl.
    rewrite length_of_chars, Nat.ltb_irrefl. simpl.
    unfold set_add. rewrite bool_decide_eq_false_2 by apply not_elem_of_nil.
    simpl. f_equal.
    unfold slice, slice_chars. rewrite chars_of_chars. simpl.
    rewrite Nat.sub_0_r, take_ge; [done|]. rewrite length_drop. lia. }
  split; [done|].
  assert (unmarkAll (markSpan (of_chars w))
          = Element "SPAN" [] (Some (of_chars w)) [Text (of_chars w)]) as ->.
  { simpl. f_equal. }
  simpl. rewrite Hr. done.
Qed.

Lemma removed_mark_is_not_restored_witness :
  acceptedMatches "the GPU" = Some [MatchResult 4 "GPU"]
  /\ processTextNode "GPU" = Some (TextResult None ["GPU"] "GPU")
  /\ processPage (Element "SPAN" [] (Some "GPU") [Text "GPU"])
     = Some (Element "SPAN" [] (Some "GPU") [Text "GPU"]).
Proof.
  assert (acceptedMatches "the GPU" = Some [MatchResult 4 "GPU"]) as H
    by (vm_compute; reflexivity).
  split; [exact H|].
  apply (removed_mark_is_not_restored "the GPU" [MatchResult 4 "GPU"]
           (MatchResult 4 "GPU") H).
  - apply list_elem_of_here.
  - reflexivity.
Defined.

End Toggle.

(** ** The page after [processPage], its batches and its report *)

Module Page.
Import JsString Regex Dom AcronymExpander Notions RegexFacts PatternFacts.
Import ScanFacts PageFacts Detector PageReport Invariants Scanner.

Lemma processBelow_text n : forall tag classes n',
  processBelow tag classes n = Some n' -> textChars n' = textChars n.
Proof.
  induction n as [text|tag' classes' acronym children IH] using node_induction;
    intros tag classes n' H; simpl in H.
  - destruct (acceptNode tag classes); [|by injection H as <-].
    destruct (processTextNode text) as [r|] eqn:Hr; [|done].
    injection H as <-.
    destruct (replacement r) as [c|] eqn:Hc; [|done]. simpl.
    destruct (Segmenter.replacement_spells_text _ _ _ Hr Hc) as (_ & _ & Ht).
    by rewrite <- Ht, chars_of_chars.
  - destruct (mapM _ children) as [children'|] eqn:Hm; [|done].
    injection H as <-. simpl. f_equal.
    apply mapM_Some_1 in Hm.
    induction Hm as [|c c' cs cs' Hc Hcs IHcs]; [done|].
    apply Forall_cons in IH as [IHc IHrest].
    simpl. f_equal; [by eapply IHc|by apply IHcs].
Qed.

Lemma sublist_concat {A} (ls ks : list (list A)) :
  Forall2 sublist ls ks -> concat ls `sublist_of` concat ks.
Proof.
  induction 1 as [|l k ls ks Hl Hls IH]; [done|]. simpl. by apply sublist_app.
Qed.

Lemma processBelow_elements n : forall tag classes n',
  processBelow tag classes n = Some n' -> elements n `sublist_of` elements n'.
Proof.
  induction n as [text|tag' classes' acronym children IH] using node_induction;
    intros tag classes n' H; simpl in H.
  - apply sublist_nil_l.
  - destruct (mapM _ children) as [children'|] eqn:Hm; [|done].
    injection H as <-. simpl. apply sublist_skip, sublist_concat.
    apply mapM_Some_1 in Hm.
    induction Hm as [|c c' cs cs' Hc Hcs IHcs]; [constructor|].
    apply Forall_cons in IH as [IHc IHrest].
    simpl. constructor; [by eapply IHc|by apply IHcs].
Qed.

Lemma built_elements frs :
  Forall builtFragment frs ->
  Forall createdSpan (concat (map elements frs)).
Proof.
  induction 1 as [|n frs Hn _ IH]; [constructor|]. simpl.
  apply Forall_app. split; [|done].
  destruct Hn as [f _ _|a Hs _]; simpl; [constructor|].
  constructor; [|constructor]. right. by exists a.
Qed.

Lemma processBelow_created n : forall tag classes n',
  processBelow tag classes n = Some n' ->
  Forall (fun e => e ∈ elements n \/ createdSpan e) (elements n').
Proof.
  induction n as [text|tag' classes' acronym children IH] using node_induction;
    intros tag classes n' H; simpl in H.
  - destruct (acceptNode tag classes); [|injection H as <-; constructor].
    destruct (processTextNode text) as [r|] eqn:Hr; [|done].
    injection H as <-.
    destruct (replacement r) as [c|] eqn:Hc; [|constructor]. simpl.
    destruct (processTextNode_children _ _ _ Hr Hc) as (frs & -> & Hb).
    simpl. constructor; [right; by left|].
    eapply Forall_impl; [exact (built_elements frs Hb)|]. intros e He. by right.
  - destruct (mapM _ children) as [children'|] eqn:Hm; [|done].
    injection H as <-. simpl. constructor; [left; apply list_elem_of_here|].
    apply mapM_Some_1 in Hm.
    assert (Forall (fun e => e ∈ concat (map elements children) \/ createdSpan e)
              (concat (map elements children'))) as Hall.
    { clear tag classes. induction Hm as [|c c' cs cs' Hc Hcs IHcs]; [constructor|].
      apply Forall_cons in IH as [IHc IHrest]. simpl.
      apply Forall_app. split.
      - eapply Forall_impl; [exact (IHc _ _ _ Hc)|]. intros e [He|He]; [|by right].
        left. apply elem_of_app. by left.
      - eapply Forall_impl; [exact (IHcs IHrest)|]. intros e [He|He]; [|by right].
        left. apply elem_of_app. by right. }
    eapply Forall_impl; [exact Hall|]. intros e [He|He]; [|by right].
    left. by apply list_elem_of_further.
Qed.

(** X7: [processPage] always ends, and it changes the page only by
    putting spans around text: the text of the page stays as it was; every
    element of the page is still there afterwards, in the same order, with
    its tag name, class list and data attribute; and every other element
    of the result is a plain span or a marked span carrying a term that
    passes the exclusion test. *)
Theorem page_text_and_elements_kept root :
  exists root',
    processPage root = Some root'
    /\ textChars root' = textChars root
    /\ elements root `sublist_of` elements root'
    /\ Forall (fun e => e ∈ elements root \/ createdSpan e) (elements root').
Proof.
  destruct (processPage_total root) as [root' H]. exists root'.
  split; [done|].
  destruct root as [text|tag classes acronym children].
  { injection H as <-. by repeat split. }
  change (processBelow "" [] (Element tag classes acronym children) = Some root')
    in H.
  split; [by eapply processBelow_text|].
  split; [by eapply processBelow_elements|by eapply processBelow_created].
Qed.

(** *** The batches *)

Lemma batchesFrom_concat {A} (l : list A) : forall fuel i,
  List.length l <= i + BATCH_SIZE * fuel ->
  concat (batchesFrom fuel i l) = drop i l.
Proof.
  induction fuel as [|fuel IH]; intros i H; simpl.
  - symmetry. apply drop_ge. lia.
  - destruct (Nat.ltb_spec i (List.length l)) as [Hlt|Hge].
    + simpl. rewrite IH by lia. unfold array_slice.
      replace (i + BATCH_SIZE - i) with BATCH_SIZE by lia.
      rewrite <- drop_drop. apply take_drop.
    + symmetry. apply drop_ge. lia.
Qed.

Lemma batchesFrom_lookup {A} (l : list A) : forall fuel i k b,
  batchesFrom fuel i l !! k = Some b ->
  b = array_slice l (i + BATCH_SIZE * k) (i + BATCH_SIZE * k + BATCH_SIZE)
  /\ i + BATCH_SIZE * k < List.length l.
Proof.
  induction fuel as [|fuel IH]; intros i k b H; [done|]. simpl in H.
  destruct (Nat.ltb_spec i (List.length l)) as [Hlt|Hge]; [|done].
  destruct k as [|k].
  - injection H as <-. rewrite Nat.mul_0_r, Nat.add_0_r. done.
  - simpl in H. apply IH in H as [-> ?].
    replace (i + BATCH_SIZE + BATCH_SIZE * k) with (i + BATCH_SIZE * S k) in * by lia.
    done.
Qed.

Lemma batches_concat {A} (l : list A) : concat (batches l) = l.
Proof.
  unfold batches. rewrite batchesFrom_concat; [done|]. unfold BATCH_SIZE. lia.
Qed.

(** X8: the batches of [processPage] are the collected text nodes cut
    into stretches of 50: put end to end they give back the list, so that
    every text node is in exactly one batch and the order is kept; batch
    number k holds the nodes from index 50 k on, and no batch is empty or
    longer than 50. *)
Theorem batches_cover_text_nodes (textNodes : list string) :
  concat (batches textNodes) = textNodes
  /\ forall k batch, batches textNodes !! k = Some batch ->
       batch = array_slice textNodes (50 * k) (50 * k + 50)
       /\ 0 < List.length batch <= 50.
Proof.
  split; [apply batches_concat|].
  - intros k batch H. apply batchesFrom_lookup in H as [-> Hlt].
    unfold BATCH_SIZE in *. simpl (0 + _) in *. split; [done|].
    unfold array_slice. rewrite length_take, length_drop. lia.
Qed.

(** *** The report *)

Lemma mapM_app_option {A B} (f : A -> option B) l1 l2 :
  mapM f (l1 ++ l2) = (r1 ← mapM f l1; r2 ← mapM f l2; Some (r1 ++ r2)).
Proof.
  induction l1 as [|x l1 IH]; simpl.
  - by destruct (mapM f l2).
  - destruct (f x); simpl; [|done]. rewrite IH.
    destruct (mapM f l1); simpl; [|done]. by destruct (mapM f l2).
Qed.

Lemma processBatches_concat bs : forall st,
  processBatches bs st = processBatch st (concat bs).
Proof.
  induction bs as [|b bs IH]; intros st; simpl; [done|].
  unfold processBatch at 1 2. rewrite mapM_app_option.
  destruct (mapM processTextNode b) as [r1|]; simpl; [|done].
  rewrite IH. unfold processBatch.
  destruct (mapM processTextNode (concat bs)); simpl; [|done].
  by rewrite foldl_app.
Qed.

Lemma results_total l : is_Some (mapM processTextNode l).
Proof.
  apply mapM_is_Some_2, Forall_forall. intros x _. apply processTextNode_total.
Qed.

Lemma noteTerm_keys ctx found term :
  (noteTerm ctx found term).*1 = set_add term found.*1.
Proof.
  unfold noteTerm, set_add. case_bool_decide; [done|]. by rewrite fmap_app.
Qed.

Lemma noteTerms_keys ctx ts : forall found,
  (foldl (noteTerm ctx) found ts).*1
  = foldl (fun acc a => set_add a acc) found.*1 ts.
Proof.
  induction ts as [|t ts IH]; intros found; simpl; [done|].
  by rewrite IH, noteTerm_keys.
Qed.

Lemma noteResult_found st r :
  allTermsFound (noteResult st r)
  = foldl (noteTerm (context r)) (allTermsFound st) (terms r).
Proof. unfold noteResult. by destruct (terms r). Qed.

Lemma found_keys rs : forall st,
  (allTermsFound (foldl noteResult st rs)).*1
  = foldl (fun acc a => set_add a acc) (allTermsFound st).*1
      (concat (terms <$> rs)).
Proof.
  induction rs as [|r rs IH]; intros st; simpl; [done|].
  by rewrite IH, foldl_app, noteResult_found, noteTerms_keys.
Qed.

Lemma noteTerms_entries ctx ts : forall found term c,
  (term, c) ∈ foldl (noteTerm ctx) found ts ->
  (term, c) ∈ found \/ ((term ∉ found.*1) /\ term ∈ ts /\ c = ctx).
Proof.
  induction ts as [|t ts IH]; intros found term c H; simpl in H; [by left|].
  apply IH in H as [H|(Hn & Hin & ->)].
  - unfold noteTerm in H. case_bool_decide as Ht; [by left|].
    apply list_elem_of_In, in_app_iff in H as [H|[H|[]]].
    + left. by apply list_elem_of_In.
    + injection H as <- <-. right. repeat split; [done|by left].
  - right. split; [|split; [by right|done]].
    intros Hk. apply Hn. rewrite noteTerm_keys. unfold set_add.
    case_bool_decide; [done|].
    apply list_elem_of_In, in_app_iff. left. by apply list_elem_of_In.
Qed.

Lemma found_entries rs : forall term ctx,
  (term, ctx) ∈ allTermsFound (foldl noteResult (Report [] []) rs) ->
  exists i r, rs !! i = Some r /\ term ∈ terms r /\ ctx = context r
              /\ forall j r', j < i -> rs !! j = Some r' -> term ∉ terms r'.
Proof.
  induction rs as [|r rs IH] using rev_ind; intros term ctx H.
  { simpl in H. by apply elem_of_nil in H. }
  rewrite foldl_app in H. simpl in H. rewrite noteResult_found in H.
  apply noteTerms_entries in H as [H|(Hn & Hin & ->)].
  - apply IH in H as (i & r0 & Hi & Ht & Hc & Hfirst).
    exists i, r0. split; [by apply lookup_app_l_Some|]. repeat split; try done.
    intros j r' Hj Hr'. apply (Hfirst j r' Hj).
    apply lookup_lt_Some in Hi.
    by rewrite lookup_app_l in Hr' by lia.
  - exists (List.length rs), r. split.
    { by rewrite lookup_app_r, Nat.sub_diag by lia. }
    repeat split; try done.
    intros j r' Hj Hr' Ht. apply Hn.
    rewrite found_keys, fold_set_add. apply elem_of_firstOccurrences.
    rewrite lookup_app_l in Hr' by lia.
    apply list_elem_of_In, in_concat. exists (terms r'). split.
    + apply list_elem_of_In, list_elem_of_fmap. exists r'. split; [done|].
      by eapply list_elem_of_lookup_2.
    + by apply list_elem_of_In.
Qed.

Lemma termsOnPage_results root rs :
  mapM processTextNode (textNodes root) = Some rs ->
  termsOnPage root = Some (allTermsFound (foldl noteResult (Report [] []) rs))
  /\ processPage_console root
     = Some (debugLog (foldl noteResult (Report [] []) rs)
             ++ summary (allTermsFound (foldl noteResult (Report [] []) rs))).
Proof.
  intros H. unfold termsOnPage, processPage_console.
  rewrite processBatches_concat.
  rewrite batches_concat.
  unfold processBatch. by rewrite H.
Qed.

(** X9: the report of [processPage] holds every term found in the
    collected text nodes once, in the order of first occurrence over the
    nodes in document order, whatever the batches are; the context kept
    for a term is the one returned for the first text node in which the
    term was found. *)
Theorem report_lists_each_term_once root :
  exists rs found,
    mapM processTextNode (textNodes root) = Some rs
    /\ termsOnPage root = Some found
    /\ found.*1 = firstOccurrences (concat (terms <$> rs))
    /\ forall term ctx, (term, ctx) ∈ found ->
         exists i r,
           rs !! i = Some r /\ term ∈ terms r /\ ctx = context r
           /\ forall j r', j < i -> rs !! j = Some r' -> term ∉ terms r'.
Proof.
  destruct (results_total (textNodes root)) as [rs Hrs].
  destruct (termsOnPage_results root rs Hrs) as [Hfound _].
  eexists rs, _. split; [done|]. split; [done|]. split.
  - by rewrite found_keys, fold_set_add.
  - apply found_entries.
Qed.

(** *** The observer's callback on what the script itself inserts *)

Lemma built_good n : builtFragment n -> goodFragment n.
Proof.
  intros [f _ Hs|a _ _]; constructor. by eexists.
Qed.

Lemma built_textNodes frs :
  Forall builtFragment frs ->
  Forall silent (concat (map (textNodesBelow "SPAN" []) frs)).
Proof.
  induction 1 as [|n frs Hn _ IH]; [constructor|]. simpl.
  apply Forall_app. split; [|done].
  destruct Hn as [f _ Hs|a _ _]; simpl.
  - by repeat constructor.
  - constructor.
Qed.

Lemma silent_results l :
  Forall silent l ->
  exists rs, mapM processTextNode l = Some rs
             /\ Forall (fun r => terms r = []) rs.
Proof.
  induction 1 as [|f l Hf _ (rs & Hrs & Hall)]; [by exists []|].
  exists (TextResult None [] "" :: rs). simpl.
  rewrite Hf. simpl. rewrite Hrs. simpl. split; [done|]. by constructor.
Qed.

Lemma noteResult_silent rs : forall st,
  Forall (fun r => terms r = []) rs -> foldl noteResult st rs = st.
Proof.
  induction rs as [|r rs IH]; intros st H; [done|].
  apply Forall_cons in H as [Hr H]. simpl.
  unfold noteResult at 2. rewrite Hr. simpl. by apply IH.
Qed.

(** X10: what the observer's callback does with the elements the script
    itself inserts.  The container that [processTextNode] puts in the
    place of a text node is an added element, and the callback runs
    [processPage] on it; that run changes nothing in the container, finds
    no term and writes nothing to the console.  The tooltip is another
    matter.  Its element is appended to [document.body] by the first call
    of [showTooltip], so it is an added element too, and [processPage]
    scans the expansion in it like any text of the page: a word of
    capitals in the expansion is marked inside the tooltip and listed
    among the terms of that run.  On later calls of [showTooltip] only a
    text node is added, which the callback passes over. *)
Theorem observer_on_own_insertions :
  (forall text r c,
     processTextNode text = Some r -> replacement r = Some c ->
     observed [ChildList [c]] = [c]
     /\ processPage c = Some c
     /\ termsOnPage c = Some []
     /\ processPage_console c = Some [])
  /\ (forall text,
        observed (firstShowRecords text) = [tooltipElement text]
        /\ observed (laterShowRecords text) = []
        /\ exists r,
             processTextNode text = Some r
             /\ processPage (tooltipElement text)
                = Some (Element "DIV" [] None
                          [default (Text text) (replacement r)]))
  /\ (forall pre w post,
        capitals w -> openBefore pre -> headWord post = false ->
        shouldSkipAcronym (of_chars w) = false -> pre ++ post <> [] ->
        exists frs found,
          processPage (tooltipElement (of_chars (pre ++ w ++ post)))
          = Some (Element "DIV" [] None [Element "SPAN" [] None frs])
          /\ markSpan (of_chars w) ∈ frs
          /\ termsOnPage (tooltipElement (of_chars (pre ++ w ++ post)))
             = Some found
          /\ of_chars w ∈ found.*1).
Proof.
  split; [|split].
  - intros text r c Hr Hc.
    destruct (processTextNode_children _ _ _ Hr Hc) as (frs & -> & Hb).
    split; [done|]. split.
    + simpl. rewrite mapM_fixed; [done|].
      eapply Forall_impl; [exact Hb|]. intros n Hn.
      by apply goodFragment_fixed, built_good.
    + destruct (silent_results _ (built_textNodes frs Hb)) as (rs & Hrs & Hall).
      destruct (termsOnPage_results (Element "SPAN" [] None frs) rs Hrs) as [-> ->].
      by rewrite noteResult_silent.
  - intros text. split; [done|]. split; [done|].
    destruct (ScanFacts.processTextNode_total text) as [r Hr].
    exists r. split; [done|].
    unfold tooltipElement, processPage. simpl. by rewrite Hr.
  - intros pre w post Hcap Hpre Hpost Hskip Hlonger.
    destruct (Detection.capitals_scan pre w post Hcap Hpre Hpost Hskip Hlonger)
      as (r & frs & Hr & Hc & Hin & Hterm).
    set (text := of_chars (pre ++ w ++ post)) in *.
    assert (mapM processTextNode (textNodes (tooltipElement text)) = Some [r])
      as Hrs.
    { unfold tooltipElement, textNodes. simpl. by rewrite Hr. }
    destruct (termsOnPage_results (tooltipElement text) [r] Hrs) as [Hfound _].
    eexists frs, _. split; [|split; [done|split; [exact Hfound|]]].
    + unfold tooltipElement, processPage. simpl. rewrite Hr. simpl.
      by rewrite Hc.
    + rewrite found_keys. simpl. rewrite fold_set_add.
      apply elem_of_firstOccurrences. by rewrite app_nil_r.
Qed.

Lemma observer_on_own_insertions_witness :
  exists frs found,
    processPage (tooltipElement "GPU: Graphics Processing Unit")
    = Some (Element "DIV" [] None [Element "SPAN" [] None frs])
    /\ markSpan "GPU" ∈ frs
    /\ termsOnPage (tooltipElement "GPU: Graphics Processing Unit") = Some found
    /\ "GPU" ∈ found.*1.
Proof.
  destruct observer_on_own_insertions as (_ & _ & H).
  apply (H [] (chars "GPU") (chars ": Graphics Processing Unit")).
  - exists "G"%char, "P"%char, (chars "U"). split; [reflexivity|].
    split; [reflexivity|]. split; [reflexivity|].
    repeat constructor; by left.
  - exact I.
  - reflexivity.
  - vm_compute. reflexivity.
  - discriminate.
Defined.

End Page.

(** ** The frame's replies *)

Module Frame.
Import JsString Dom AcronymExpander ExpansionFrame Notions Invariants.

Lemma trimStart_solid l : headSolid (trimStart_chars l).
Proof.
  induction l as [|c l IH]; simpl; [done|].
  destruct (isSpace c) eqn:E; [done|]. simpl. done.
Qed.

Lemma trimStart_fixed l : headSolid l -> trimStart_chars l = l.
Proof. destruct l as [|c l]; simpl; [done|]. by intros ->. Qed.

Lemma trimStart_suffix l : exists pre, l = pre ++ trimStart_chars l.
Proof.
  induction l as [|c l [pre IH]]; simpl; [by exists []|].
  destruct (isSpace c); [|by exists []].
  exists (c :: pre). simpl. by f_equal.
Qed.

Lemma trim_chars_idem l : trim_chars (trim_chars l) = trim_chars l.
Proof.
  unfold trim_chars.
  pose proof (trimStart_solid l) as HA.
  set (A := trimStart_chars l) in *.
  pose proof (trimStart_solid (rev A)) as HB.
  destruct (trimStart_suffix (rev A)) as [pre Hpre].
  set (B := trimStart_chars (rev A)) in *.
  assert (headSolid (rev B)) as HrB.
  { apply (f_equal (@rev ascii)) in Hpre.
    rewrite rev_involutive, rev_app_distr in Hpre.
    destruct (rev B) as [|c rB]; [done|].
    rewrite Hpre in HA. done. }
  rewrite (trimStart_fixed (rev B)) by done.
  rewrite rev_involutive. by rewrite (trimStart_fixed B).
Qed.

Lemma trim_idem s : trim (trim s) = trim s.
Proof.
  unfold trim. rewrite ScanFacts.chars_of_chars. by rewrite trim_chars_idem.
Qed.

(** X11: the frame's listener posts at most one message.  It posts
    nothing when the message does not come from the parent window, when it
    carries no acronym, or when an awaited call into the language model
    never settles (the listener has no timeout); in every other case it
    posts exactly one result.  The result names the acronym of the
    request; its expansion is already trimmed, never contains "not a tech
    term" in any letter case, and is either empty or the trimmed answer of
    the model. *)
Theorem frame_replies_once fromParent msg ai aiSession :
  match (onMessage fromParent msg ai aiSession).2 with
  | [] =>
      fromParent = false
      \/ (forall a, msg = EXPAND_ACRONYM a -> a = "")
      \/ modelSettles ai aiSession = false
  | [EXPANSION_RESULT a e] =>
      fromParent = true /\ msg = EXPAND_ACRONYM a /\ a ≠ ""
      /\ modelSettles ai aiSession = true
      /\ trim e = e
      /\ includes (toLowerCase e) "not a tech term" = false
      /\ (e = "" \/ exists response,
                      modelAnswers ai aiSession response /\ e = trim response)
  | _ => False
  end.
Proof.
  unfold onMessage, modelSettles, modelAnswers.
  destruct fromParent; simpl; [|by left].
  destruct msg as [a|a e]; [|right; left; by intros a'].
  destruct (truthy a) eqn:Ha; simpl.
  - apply Coordinator.truthy_true in Ha.
    destruct (if aiSession then Returns () else create ai) as [|[]|].
    { simpl. repeat split; try done. by left. }
    2:{ simpl. by do 2 right. }
    destruct (prompt ai) as [|response|] eqn:Hp.
    { simpl. repeat split; try done. by left. }
    2:{ simpl. by do 2 right. }
    destruct (includes (toLowerCase (trim response)) "not a tech term") eqn:Hi.
    { simpl. repeat split; try done. by left. }
    simpl. unfold sendExpansionResult. rewrite !trim_idem.
    repeat split; try done.
    right. by exists response.
  - right. left. intros a' [= <-].
    unfold truthy in Ha. apply negb_false_iff in Ha.
    by apply String.eqb_eq in Ha.
Qed.

End Frame.

(** ** The tooltip and its timers *)

Module Tooltips.
Import JsString Dom AcronymExpander ExpansionFrame Notions Samples.
Import PageFacts Coordinator PageReport Invariants MoreSamples.

Lemma within_unmarked root : forall e,
  within e (unmarkAll root) ->
  match e with
  | Text _ => True
  | Element _ classes _ _ => markerClass ∉ classes
  end.
Proof.
  induction root as [t|tag classes acronym children IH] using node_induction;
    intros e H.
  - simpl in H. by inversion H.
  - simpl in H. inversion H as [|tag' classes' acronym' children' c Hc Hw]; subst.
    + apply Settings.removed_class_absent.
    + apply list_elem_of_fmap in Hc as (c0 & -> & Hc0).
      rewrite Forall_forall in IH. by apply (IH c0).
Qed.

(** *** The tooltip is never blank *)

Lemma tooltipOk_show text tgt s :
  truthy (trim text) = true -> tooltipOk (showTooltip text tgt s).
Proof.
  intros H t Ht. simpl in Ht. injection Ht as <-. simpl. split; [done|by left].
Qed.

Lemma tooltipOk_same s s' :
  tooltipState s' = tooltipState s -> tooltipOk s -> tooltipOk s'.
Proof. unfold tooltipOk. by intros ->. Qed.

Lemma tooltipOk_afterAwait expansion tgt s :
  tooltipOk s -> tooltipOk (afterAwait expansion tgt s).
Proof.
  intros H. unfold afterAwait.
  destruct (truthy expansion); simpl; [|done].
  destruct (truthy (trim expansion)) eqn:E; [|done].
  by apply tooltipOk_show.
Qed.

Lemma tooltipOk_resume p expansion s :
  tooltipOk s -> tooltipOk (resume p expansion s).
Proof.
  intros H. unfold resume.
  assert (tooltipOk (set_awaiting (filter (fun a => a.1 ≠ p)) s)) as H' by done.
  revert H'. generalize (set_awaiting (filter (fun a => a.1 ≠ p)) s).
  induction (filter (fun a => a.1 = p) (awaiting s)) as [|a w IH];
    intros s0 H0; simpl; [done|].
  by apply IH, tooltipOk_afterAwait.
Qed.

Lemma tooltipOk_handle e s s' :
  handle e s = Some s' -> tooltipOk s -> tooltipOk s'.
Proof.
  intros He H.
  destruct e as [tgt| |source msg|id|enabled]; simpl in He.
  - injection He as <-. unfold handleMouseOver.
    destruct (target_node tgt) as [t|tag classes [acronym|] children]; try done;
      [|by destruct (negb _)].
    destruct (negb (classList_contains classes markerClass)); [done|].
    destruct (negb (truthy acronym)); [done|]. cbv zeta.
    destruct (clearTimeout_frame (hideTimeout (tooltipState s)) s)
      as (_ & _ & _ & Hts).
    assert (tooltipOk (clearTimeout (hideTimeout (tooltipState s)) s)) as H1
      by (by eapply tooltipOk_same).
    set (s1 := clearTimeout (hideTimeout (tooltipState s)) s) in *.
    assert (forall a, tooltipOk (onMiss a tgt s1)) as Hmiss.
    { intros a. unfold onMiss. by destruct (pending (cache s1) !! a). }
    destruct (expansions (cache s1) !! acronym) as [e|]; [|apply Hmiss].
    destruct (negb (truthy e)); [apply Hmiss|].
    destruct (truthy (trim e)) eqn:E; [|done]. by apply tooltipOk_show.
  - injection He as <-. unfold handleMouseOut.
    destruct (element (tooltipState s)) as [t0|] eqn:E; [|done].
    intros t Ht. simpl in Ht. apply H. by rewrite E.
  - injection He as <-. unfold onWindowMessage.
    destruct (negb _); [done|].
    destruct msg as [a|a e]; [done|]. cbv zeta.
    change (pending (cache (set_cache _ s))) with (pending (cache s)).
    destruct (pending (cache s) !! a) as [p|]; [|done].
    by apply tooltipOk_resume.
  - injection He as <-. unfold onTimeout. case_bool_decide; [|done].
    intros t Ht. simpl in Ht.
    destruct (element (tooltipState s)) as [t0|] eqn:E; [|done].
    injection Ht as <-. simpl. split; [|by right]. by apply (H t0).
  - unfold handleSettingsChange in He.
    destruct (negb enabled); simpl in He; [by injection He as <-|].
    destruct (processPage (body s)); simpl in He; [|done].
    by injection He as <-.
Qed.

(** X13: whatever the events, the tooltip never carries an empty or blank
    text, and it is either shown or hidden. *)
Theorem tooltip_never_blank d es s :
  handleAll es (initial d) = Some s -> tooltipOk s.
Proof.
  assert (forall es s0 s, tooltipOk s0 -> handleAll es s0 = Some s -> tooltipOk s)
    as Hall.
  { clear. induction es as [|e es IH]; intros s0 s H0 H; simpl in H.
    - by injection H as <-.
    - destruct (handle e s0) as [s1|] eqn:E; [|done]. simpl in H.
      eapply IH; [|exact H]. by eapply tooltipOk_handle. }
  apply Hall. by intros t Ht.
Qed.

Lemma tooltip_never_blank_witness :
  exists s,
    handleAll [MouseOver gpuA; fromFrame (EXPANSION_RESULT "GPU" "Graphics Processing Unit");
               MouseOut; Timeout 0] (initial paragraph) = Some s
    /\ element (tooltipState s)
       = Some (Tooltip "Graphics Processing Unit" "none" 10 25)
    /\ tooltipOk s.
Proof.
  eexists. split; [vm_compute; reflexivity|]. split; [reflexivity|].
  eapply (tooltip_never_blank paragraph
            [MouseOver gpuA; fromFrame (EXPANSION_RESULT "GPU" "Graphics Processing Unit");
             MouseOut; Timeout 0]).
  vm_compute. reflexivity.
Defined.

(** *** Hiding the tooltip *)

Lemma marked_markSpan a box : a ≠ "" -> marked (Target (markSpan a) box) a.
Proof.
  intros Ha. exists "SPAN", [markerClass], [Text a].
  split; [done|]. split; [apply list_elem_of_here|done].
Qed.

Lemma handleMouseOver_marked tgt acronym s :
  marked tgt acronym ->
  handleMouseOver tgt s
  = let s1 := clearTimeout (hideTimeout (tooltipState s)) s in
    match expansions (cache s1) !! acronym with
    | None => onMiss acronym tgt s1
    | Some expansion =>
        if negb (truthy expansion) then onMiss acronym tgt s1
        else if truthy (trim expansion)
             then showTooltip expansion tgt s1
             else s1
    end.
Proof.
  intros (tag & classes & children & Ht & Hc & Ha).
  unfold handleMouseOver. rewrite Ht.
  unfold classList_contains. rewrite bool_decide_eq_true_2 by done.
  apply truthy_true in Ha. by rewrite Ha.
Qed.

Lemma handleMouseOver_timers tgt acronym s :
  marked tgt acronym ->
  timers (handleMouseOver tgt s)
  = timers (clearTimeout (hideTimeout (tooltipState s)) s).
Proof.
  intros Hm. rewrite (handleMouseOver_marked _ _ _ Hm). cbv zeta.
  set (s1 := clearTimeout (hideTimeout (tooltipState s)) s).
  assert (timers (onMiss acronym tgt s1) = timers s1) as Hmiss.
  { unfold onMiss. by destruct (pending (cache s1) !! acronym). }
  destruct (expansions (cache s1) !! acronym) as [e|]; [|done].
  destruct (negb (truthy e)); [done|]. by destruct (truthy (trim e)).
Qed.

Lemma handleMouseOut_shown s t :
  element (tooltipState s) = Some t ->
  handleMouseOut s
  = State {| element := Some t; hideTimeout := Some (nextTimer s) |}
      (cache s) (body s) (contentWindow s) (posted s) (awaiting s)
      (nextPromise s) (timers s ++ [nextTimer s]) (S (nextTimer s)) (console s).
Proof. intros H. unfold handleMouseOut. by rewrite H. Qed.

Lemma timer_filtered id (l : list nat) : id ∉ filter (fun j => j ≠ id) l.
Proof. intros H. by apply list_elem_of_filter in H as [? _]. Qed.

(** X14: when the pointer leaves and then enters a marked span, the hide
    scheduled on leaving is cancelled: its timer is gone, and its callback,
    should it still run, changes nothing. *)
Theorem hover_cancels_the_last_hide tgt acronym s :
  marked tgt acronym -> is_Some (element (tooltipState s)) ->
  nextTimer s ∈ timers (handleMouseOut s)
  /\ (nextTimer s ∉ timers (handleMouseOver tgt (handleMouseOut s)))
  /\ onTimeout (nextTimer s) (handleMouseOver tgt (handleMouseOut s))
     = handleMouseOver tgt (handleMouseOut s).
Proof.
  intros Hm [t Ht].
  assert (nextTimer s ∉ timers (handleMouseOver tgt (handleMouseOut s))) as Hout.
  { rewrite (handleMouseOver_timers _ _ _ Hm).
    rewrite (handleMouseOut_shown s t Ht). simpl. apply timer_filtered. }
  split; [|split; [done|]].
  - rewrite (handleMouseOut_shown s t Ht). simpl.
    apply elem_of_app. right. apply list_elem_of_here.
  - unfold onTimeout. by rewrite bool_decide_eq_false_2.
Qed.

Lemma hover_cancels_the_last_hide_witness :
  timers (handleMouseOut answered) = [0]
  /\ timers (handleMouseOver gpuB (handleMouseOut answered)) = []
  /\ onTimeout 0 (handleMouseOver gpuB (handleMouseOut answered))
     = handleMouseOver gpuB (handleMouseOut answered).
Proof.
  split; [reflexivity|]. split; [reflexivity|].
  refine (proj2 (proj2 (hover_cancels_the_last_hide gpuB "GPU" answered _ _))).
  - by apply marked_markSpan.
  - by eexists.
Defined.

(** X15: only the hide scheduled last is cancelled.  After two mouseout
    events in a row, a hover over a term with a cached expansion shows the
    tooltip, but the timer of the first mouseout is still running, and when
    it elapses the tooltip is hidden again. *)
Theorem earlier_hide_still_fires tgt acronym expansion s :
  marked tgt acronym -> is_Some (element (tooltipState s)) ->
  expansions (cache s) !! acronym = Some expansion ->
  truthy (trim expansion) = true ->
  element (tooltipState (handleMouseOver tgt (handleMouseOut (handleMouseOut s))))
  = Some (Tooltip expansion "block" (rect_left (target_rect tgt))
            (rect_bottom (target_rect tgt) + 5))
  /\ nextTimer s ∈ timers (handleMouseOver tgt (handleMouseOut (handleMouseOut s)))
  /\ element (tooltipState
                (onTimeout (nextTimer s)
                   (handleMouseOver tgt (handleMouseOut (handleMouseOut s)))))
     = Some (Tooltip expansion "none" (rect_left (target_rect tgt))
               (rect_bottom (target_rect tgt) + 5)).
Proof.
  intros Hm [t Ht] He Htrim.
  assert (truthy expansion = true) as Hte.
  { apply truthy_true. intros ->. done. }
  assert (nextTimer s ∈ timers (handleMouseOver tgt (handleMouseOut (handleMouseOut s))))
    as Hin.
  { rewrite (handleMouseOver_timers _ _ _ Hm).
    rewrite (handleMouseOut_shown s t Ht).
    rewrite (handleMouseOut_shown _ t) by done. simpl.
    apply list_elem_of_filter. split; [lia|].
    apply elem_of_app. left. apply elem_of_app. right. apply list_elem_of_here. }
  assert (element (tooltipState (handleMouseOver tgt (handleMouseOut (handleMouseOut s))))
          = Some (Tooltip expansion "block" (rect_left (target_rect tgt))
                    (rect_bottom (target_rect tgt) + 5))) as Hshow.
  { rewrite (handleMouseOver_marked _ _ _ Hm). cbv zeta.
    rewrite (handleMouseOut_shown s t Ht).
    rewrite (handleMouseOut_shown _ t) by done. simpl.
    rewrite He, Hte, Htrim. done. }
  split; [done|]. split; [done|].
  unfold onTimeout. rewrite bool_decide_eq_true_2 by done.
  simpl. by rewrite Hshow.
Qed.

Lemma earlier_hide_still_fires_witness :
  element (tooltipState
             (onTimeout 0
                (handleMouseOver gpuB (handleMouseOut (handleMouseOut answered)))))
  = Some (Tooltip "Graphics Processing Unit" "none" 30 45).
Proof.
  refine (proj2 (proj2 (earlier_hide_still_fires gpuB "GPU"
                          "Graphics Processing Unit" answered _ _ _ _))).
  - by apply marked_markSpan.
  - by eexists.
  - vm_compute. reflexivity.
  - vm_compute. reflexivity.
Defined.

(** *** Switching off *)

Lemma capitals_not_empty w : capitals w -> of_chars w ≠ "".
Proof. by intros (a & b & rest & -> & _). Qed.

(** X12: switching the extension off takes the marker class from every
    element of the page and does nothing else: the handler sets no flag
    and leaves the cache, the tooltip, the timers, the suspended hovers,
    the posted requests and the console as they are.  In the page as the switch leaves it, a hover over any
    node does nothing, whatever the state of the cache: no request, no
    tooltip, no timer cleared.  The switch does not last, though: the
    observer goes on.  An element the page inserts afterwards is an added
    element for the observer, whose callback runs [processPage] on it; a
    word of capitals in its text is marked, and a hover over that span
    posts a request to the frame when the term is neither cached nor
    pending. *)
Theorem switching_off_does_not_last s :
  exists s',
    handle (SETTINGS_CHANGED false) s = Some s'
    /\ (forall e box s'', within e (body s') ->
          handleMouseOver (Target e box) s'' = s'')
    /\ tooltipState s' = tooltipState s /\ cache s' = cache s
    /\ timers s' = timers s /\ nextTimer s' = nextTimer s
    /\ awaiting s' = awaiting s /\ nextPromise s' = nextPromise s
    /\ posted s' = posted s /\ contentWindow s' = contentWindow s
    /\ console s' = console s
    /\ forall tag pre w post box,
         acceptNode tag [] = true ->
         capitals w -> openBefore pre -> headWord post = false ->
         shouldSkipAcronym (of_chars w) = false -> pre ++ post <> [] ->
         exists frs,
           observed [ChildList [Element tag [] None
                                  [Text (of_chars (pre ++ w ++ post))]]]
           = [Element tag [] None [Text (of_chars (pre ++ w ++ post))]]
           /\ processPage (Element tag [] None
                             [Text (of_chars (pre ++ w ++ post))])
              = Some (Element tag [] None [Element "SPAN" [] None frs])
           /\ markSpan (of_chars w) ∈ frs
           /\ (contentWindow s = true ->
                expansions (cache s) !! of_chars w = None ->
                pending (cache s) !! of_chars w = None ->
                posted (handleMouseOver (Target (markSpan (of_chars w)) box) s')
                = posted s' ++ [EXPAND_ACRONYM (of_chars w)]).
Proof.
  eexists. split; [done|]. split.
  { intros e box s'' H. simpl in H.
    apply within_unmarked in H. unfold handleMouseOver. simpl.
    destruct e as [t|tag classes acronym children]; [done|].
    unfold classList_contains. by rewrite bool_decide_eq_false_2. }
  do 9 (split; [done|]).
  intros tag pre w post box Hacc Hcap Hpre Hpost Hskip Hlonger.
  destruct (Detection.capitals_scan pre w post Hcap Hpre Hpost Hskip Hlonger)
    as (r & frs & Hr & Hc & Hin & _).
  exists frs. split; [done|]. split; [|split; [done|]].
  - unfold processPage. simpl. rewrite Hacc, Hr. simpl. by rewrite Hc.
  - intros Hcw He Hp.
    pose proof (marked_markSpan (of_chars w) box (capitals_not_empty w Hcap)) as Hm.
    rewrite (handleMouseOver_marked _ _ _ Hm). cbv zeta.
    match goal with |- context [clearTimeout ?i ?x] =>
      destruct (clearTimeout_frame i x) as ((Hc0 & _ & _ & Hp0 & _) & Hcw0 & _);
      set (s0 := clearTimeout i x) in *
    end.
    simpl in Hc0, Hp0, Hcw0.
    rewrite Hc0, He. unfold onMiss. rewrite Hc0, Hp. simpl.
    by rewrite Hcw0, Hcw, Hp0.
Qed.

Lemma switching_off_does_not_last_witness :
  exists s' frs,
    handle (SETTINGS_CHANGED false) answered = Some s'
    /\ processPage (Element "P" [] None [Text "the new SSD is in"])
       = Some (Element "P" [] None [Element "SPAN" [] None frs])
    /\ markSpan "SSD" ∈ frs
    /\ posted (handleMouseOver (Target (markSpan "SSD") (Rect 0 0)) s')
       = posted s' ++ [EXPAND_ACRONYM "SSD"].
Proof.
  destruct (switching_off_does_not_last answered)
    as (s' & Hs' & _ & _ & _ & _ & _ & _ & _ & _ & _ & _ & H).
  destruct (H "P" (chars "the new ") (chars "SSD") (chars " is in") (Rect 0 0))
    as (frs & _ & Hp & Hin & Hpost).
  - reflexivity.
  - exists "S"%char, "S"%char, (chars "D"). split; [reflexivity|].
    split; [reflexivity|]. split; [reflexivity|].
    repeat constructor; by left.
  - split; [reflexivity|discriminate].
  - reflexivity.
  - vm_compute. reflexivity.
  - discriminate.
  - exists s', frs. split; [exact Hs'|]. split; [exact Hp|]. split; [exact Hin|].
    apply Hpost; reflexivity.
Defined.

End Tooltips.

(** ** Requests and the hovers that wait for them *)

Module Requests.
Import JsString Dom AcronymExpander ExpansionFrame Notions Samples.
Import PageFacts Coordinator Invariants MoreSamples Frame Tooltips.

Lemma marked_inj tgt a b : marked tgt a -> marked tgt b -> a = b.
Proof.
  intros (? & ? & ? & H1 & _) (? & ? & ? & H2 & _).
  rewrite H1 in H2. by injection H2.
Qed.

Lemma waiter_unique (l : list (nat * target)) p x y :
  NoDup l.*1 -> (p, x) ∈ l -> (p, y) ∈ l -> x = y.
Proof.
  induction l as [|[q z] l IH]; simpl; intros Hnd Hx Hy.
  - by apply elem_of_nil in Hx.
  - apply NoDup_cons in Hnd as [Hq Hnd].
    apply elem_of_cons in Hx as [Hx|Hx]; apply elem_of_cons in Hy as [Hy|Hy].
    + congruence.
    + injection Hx as -> ->. exfalso. apply Hq.
      apply list_elem_of_fmap. by exists (q, y).
    + injection Hy as -> ->. exfalso. apply Hq.
      apply list_elem_of_fmap. by exists (q, x).
    + by apply IH.
Qed.

Lemma NoDup_filter_fst (P : nat * target -> Prop) `{forall x, Decision (P x)}
    (l : list (nat * target)) :
  NoDup l.*1 -> NoDup (filter P l).*1.
Proof.
  induction l as [|a l IH]; simpl; [done|]. intros Hnd.
  apply NoDup_cons in Hnd as [Ha Hnd]. rewrite filter_cons.
  case_decide; [|by apply IH]. simpl. apply NoDup_cons. split; [|by apply IH].
  intros Hin. apply Ha.
  apply list_elem_of_fmap in Hin as (x & -> & Hx).
  apply list_elem_of_filter in Hx as [_ Hx].
  apply list_elem_of_fmap. by exists x.
Qed.

(** No handler touches the frame's window. *)
Lemma afterAwait_window expansion tgt s :
  contentWindow (afterAwait expansion tgt s) = contentWindow s.
Proof. unfold afterAwait. by destruct (_ && _). Qed.

Lemma resume_window p expansion s :
  contentWindow (resume p expansion s) = contentWindow s.
Proof.
  unfold resume.
  change (contentWindow s)
    with (contentWindow (set_awaiting (filter (fun a => a.1 ≠ p)) s)).
  generalize (set_awaiting (filter (fun a => a.1 ≠ p)) s).
  induction (filter (fun a => a.1 = p) (awaiting s)) as [|a w IH];
    intros s0; simpl; [done|].
  by rewrite IH, afterAwait_window.
Qed.

Lemma handle_window e s s' :
  handle e s = Some s' -> contentWindow s' = contentWindow s.
Proof.
  intros He.
  destruct e as [tgt| |source msg|id|enabled]; simpl in He.
  - injection He as <-. unfold handleMouseOver.
    destruct (target_node tgt) as [t|tag classes [acronym|] children]; try done;
      [|by destruct (negb _)].
    destruct (negb (classList_contains classes markerClass)); [done|].
    destruct (negb (truthy acronym)); [done|]. cbv zeta.
    destruct (clearTimeout_frame (hideTimeout (tooltipState s)) s)
      as (_ & <- & _).
    set (s1 := clearTimeout (hideTimeout (tooltipState s)) s) in *.
    assert (forall a, contentWindow (onMiss a tgt s1) = contentWindow s1) as Hmiss.
    { intros a. unfold onMiss. by destruct (pending (cache s1) !! a). }
    destruct (expansions (cache s1) !! acronym) as [e|]; [|apply Hmiss].
    destruct (negb (truthy e)); [apply Hmiss|].
    by destruct (truthy (trim e)).
  - injection He as <-. unfold handleMouseOut.
    by destruct (element (tooltipState s)).
  - injection He as <-. unfold onWindowMessage.
    destruct (negb _); [done|].
    destruct msg as [a|a e]; [done|]. cbv zeta.
    change (pending (cache (set_cache _ s))) with (pending (cache s)).
    destruct (pending (cache s) !! a) as [p|]; [|done].
    by rewrite resume_window.
  - injection He as <-. unfold onTimeout. by case_bool_decide.
  - unfold handleSettingsChange in He.
    destruct (negb enabled); simpl in He; [by injection He as <-|].
    destruct (processPage (body s)); simpl in He; [|done].
    by injection He as <-.
Qed.

Lemma coherent_same s s' :
  cache s' = cache s -> awaiting s' = awaiting s ->
  nextPromise s' = nextPromise s -> posted s' = posted s ->
  contentWindow s' = contentWindow s ->
  coherent s -> coherent s'.
Proof.
  intros Hc Ha Hn Hp Hw [H1 H2 H3 H4].
  split; rewrite ?Hc, ?Ha, ?Hn, ?Hp, ?Hw; done.
Qed.

Lemma coherent_request tgt acronym s s' :
  newRequest tgt acronym s s' -> contentWindow s' = contentWindow s ->
  coherent s -> coherent s'.
Proof.
  intros (Hm & Hpn & _ & Hc & Ha & Hn & Hp & _) Hw [H1 H2 H3 H4].
  split; rewrite ?Hc, ?Ha, ?Hn, ?Hp, ?Hw; simpl.
  - rewrite fmap_app. apply NoDup_app. split; [done|]. split.
    + intros p Hin Hp'. apply list_elem_of_singleton in Hp'. subst p.
      apply list_elem_of_fmap in Hin as ([q t] & Hq & Hin). simpl in Hq. subst q.
      destruct (H2 _ _ Hin) as [Hlt _]. lia.
    + apply NoDup_singleton.
  - intros p t Hin. apply elem_of_app in Hin as [Hin|Hin].
    + destruct (H2 _ _ Hin) as (Hlt & a & Hma & Hpa). split; [lia|].
      exists a. split; [done|].
      rewrite lookup_insert_ne; [done|]. intros <-. by rewrite Hpn in Hpa.
    + apply list_elem_of_singleton in Hin. injection Hin as -> ->.
      split; [lia|]. exists acronym. split; [done|]. apply lookup_insert_eq.
  - intros a p Hpa. destruct (decide (a = acronym)) as [->|Hne].
    + rewrite lookup_insert_eq in Hpa. injection Hpa as <-.
      exists tgt. split; [|done]. apply elem_of_app. right. apply list_elem_of_here.
    + rewrite lookup_insert_ne in Hpa by done.
      destruct (H3 _ _ Hpa) as (t & Hin & Hma). exists t. split; [|done].
      apply elem_of_app. by left.
  - intros Hcw. rewrite Hcw. rewrite length_app. simpl. rewrite H4 by done. lia.
Qed.

Lemma coherent_result source acronym expansion s :
  coherent s ->
  coherent (onWindowMessage source (EXPANSION_RESULT acronym expansion) s).
Proof.
  intros Hcoh.
  destruct (window_eqb source (frameWindow s)) eqn:Hsrc;
    [|by rewrite onWindowMessage_ignored].
  pose proof (handle_window (WindowMessage source (EXPANSION_RESULT acronym expansion))
                s _ eq_refl) as Hw.
  destruct (onWindowMessage_result source acronym expansion s Hsrc)
    as (He & Hp & Ha & Hn & Hpo & _).
  destruct Hcoh as [H1 H2 H3 H4].
  set (s' := onWindowMessage source (EXPANSION_RESULT acronym expansion) s) in *.
  destruct (pending (cache s) !! acronym) as [p|] eqn:Hpa.
  - split; rewrite ?Hp, ?Ha, ?Hn, ?Hpo, ?Hw.
    + by apply NoDup_filter_fst.
    + intros q t Hin. apply list_elem_of_filter in Hin as [Hq Hin]. simpl in Hq.
      destruct (H2 _ _ Hin) as (Hlt & a & Hma & Hqa). split; [done|].
      exists a. split; [done|].
      rewrite lookup_delete_ne; [done|]. intros <-. congruence.
    + intros a q Hqa.
      destruct (decide (a = acronym)) as [->|Hne];
        [by rewrite lookup_delete_eq in Hqa|].
      rewrite lookup_delete_ne in Hqa by done.
      destruct (H3 _ _ Hqa) as (t & Hin & Hma). exists t. split; [|done].
      apply list_elem_of_filter. split; [|done]. simpl. intros ->.
      destruct (H3 _ _ Hpa) as (t' & Hin' & Hma').
      pose proof (waiter_unique _ _ _ _ H1 Hin Hin') as ->.
      by apply Hne, (marked_inj t').
    + done.
  - split; rewrite ?Hp, ?Ha, ?Hn, ?Hpo, ?Hw; try done.
    + intros q t Hin. destruct (H2 _ _ Hin) as (Hlt & a & Hma & Hqa).
      split; [done|]. exists a. split; [done|].
      rewrite lookup_delete_ne; [done|]. intros <-. congruence.
    + intros a q Hqa.
      destruct (decide (a = acronym)) as [->|Hne];
        [by rewrite lookup_delete_eq in Hqa|].
      rewrite lookup_delete_ne in Hqa by done. by apply H3.
Qed.

Lemma coherent_handle e s s' :
  handle e s = Some s' -> coherent s -> coherent s'.
Proof.
  intros He Hcoh. pose proof (handle_window _ _ _ He) as Hw.
  destruct e as [tgt| |source msg|id|enabled]; simpl in He.
  - injection He as <-.
    destruct (handleMouseOver_cases tgt s) as [(? & ? & ? & ? & _)|[a Hnew]].
    + by eapply coherent_same.
    + by eapply coherent_request.
  - injection He as <-. eapply coherent_same; [..|exact Hcoh]; try done;
      unfold handleMouseOut; by destruct (element (tooltipState s)).
  - injection He as <-. destruct msg as [a|a e].
    + unfold onWindowMessage. by destruct (negb _).
    + by apply coherent_result.
  - injection He as <-. eapply coherent_same; [..|exact Hcoh]; try done;
      unfold onTimeout; by case_bool_decide.
  - unfold handleSettingsChange in He.
    destruct (negb enabled); simpl in He;
      [injection He as <-; by apply (coherent_same s)|].
    destruct (processPage (body s)); simpl in He; [|done].
    injection He as <-. by apply (coherent_same s).
Qed.

Lemma coherent_initial d : coherent (initial d).
Proof.
  split; simpl; try done.
  - constructor.
  - intros p tgt H. by apply elem_of_nil in H.
Qed.

Lemma coherent_handleAll es : forall s s',
  coherent s -> handleAll es s = Some s' -> coherent s'.
Proof.
  induction es as [|e es IH]; intros s s' H0 H; simpl in H.
  - by injection H as <-.
  - destruct (handle e s) as [s1|] eqn:E; [|done]. simpl in H.
    eapply IH; [|exact H]. by eapply coherent_handle.
Qed.

(** X16: whatever the events, requests and suspended hovers correspond
    one to one: every hover that is waiting waits for the promise stored
    under the term of its own target, every pending entry has a hover
    waiting for it, no two waiting hovers share a promise, and as many
    requests have been posted to the frame as promises were created. *)
Theorem requests_and_waiters_correspond d es s :
  handleAll es (initial d) = Some s -> coherent s.
Proof. apply coherent_handleAll, coherent_initial. Qed.

Lemma requests_and_waiters_correspond_witness :
  exists s,
    handleAll [MouseOver gpuA; MouseOver xyz; MouseOver gpuB;
               fromFrame (EXPANSION_RESULT "XYZ" "")] (initial paragraph) = Some s
    /\ awaiting s = [(0, gpuA)]
    /\ coherent s.
Proof.
  eexists. split; [vm_compute; reflexivity|]. split; [reflexivity|].
  eapply (requests_and_waiters_correspond paragraph
            [MouseOver gpuA; MouseOver xyz; MouseOver gpuB;
             fromFrame (EXPANSION_RESULT "XYZ" "")]).
  vm_compute. reflexivity.
Defined.

(** *** Requests against answers *)

Lemma requestsFor_snoc term msgs msg :
  requestsFor term (msgs ++ [msg])
  = requestsFor term msgs + (if isRequestFor term msg then 1 else 0).
Proof.
  unfold requestsFor. rewrite filter_app, length_app. f_equal.
  destruct (isRequestFor term msg) eqn:E.
  - by rewrite filter_cons_True.
  - rewrite filter_cons_False; [done|]. by rewrite E.
Qed.

Lemma answersFor_cons term e es :
  answersFor term (e :: es)
  = (if isFrameAnswerFor term e then 1 else 0) + answersFor term es.
Proof.
  unfold answersFor.
  destruct (isFrameAnswerFor term e) eqn:E.
  - by rewrite filter_cons_True.
  - rewrite filter_cons_False; [done|]. by rewrite E.
Qed.

Lemma requests_step term e s s' :
  contentWindow s = true -> handle e s = Some s' ->
  requestsFor term (posted s') + inFlightFor term s
  <= requestsFor term (posted s) + inFlightFor term s'
     + (if isFrameAnswerFor term e then 1 else 0).
Proof.
  intros Hcw He. unfold inFlightFor.
  destruct e as [tgt| |source msg|id|enabled]; simpl in He.
  - injection He as <-.
    destruct (handleMouseOver_cases tgt s)
      as [(-> & _ & _ & -> & _)|(a & _ & Hpn & _ & -> & _ & _ & -> & _)];
      [simpl; lia|].
    rewrite Hcw, requestsFor_snoc. simpl.
    destruct (String.eqb_spec a term) as [->|Hne].
    + rewrite Hpn, lookup_insert_eq. simpl. lia.
    + rewrite lookup_insert_ne by done. simpl. lia.
  - injection He as <-. unfold handleMouseOut.
    destruct (element (tooltipState s)); simpl; lia.
  - injection He as <-.
    destruct (window_eqb source (frameWindow s)) eqn:Hsrc;
      [|rewrite onWindowMessage_ignored by done;
        destruct (isFrameAnswerFor term _); lia].
    destruct msg as [a|a e].
    { unfold onWindowMessage. rewrite Hsrc. simpl.
      destruct source as [[|]|]; simpl; lia. }
    destruct (onWindowMessage_result source a e s Hsrc)
      as (_ & -> & _ & _ & -> & _).
    unfold frameWindow in Hsrc. rewrite Hcw in Hsrc.
    destruct source as [[|]|]; try done. simpl.
    destruct (String.eqb_spec a term) as [->|Hne].
    + rewrite lookup_delete_eq. destruct (pending (cache s) !! term); simpl; lia.
    + rewrite lookup_delete_ne by done. lia.
  - injection He as <-. unfold onTimeout. case_bool_decide; simpl; lia.
  - unfold handleSettingsChange in He.
    destruct (negb enabled); simpl in He; [injection He as <-; simpl; lia|].
    destruct (processPage (body s)); simpl in He; [|done].
    injection He as <-. simpl. lia.
Qed.

Lemma requests_steps term es : forall s s',
  contentWindow s = true -> handleAll es s = Some s' ->
  requestsFor term (posted s') + inFlightFor term s
  <= requestsFor term (posted s) + inFlightFor term s' + answersFor term es.
Proof.
  induction es as [|e es IH]; intros s s' Hcw H; simpl in H.
  - injection H as <-. unfold answersFor. simpl. lia.
  - destruct (handle e s) as [s1|] eqn:E; [|done]. simpl in H.
    pose proof (requests_step term e s s1 Hcw E) as H1.
    pose proof (handle_window _ _ _ E) as Hw. rewrite Hcw in Hw.
    pose proof (IH s1 s' Hw H) as H2.
    rewrite answersFor_cons. lia.
Qed.

(** X17: a term is asked for again only after the frame has answered the
    request before: at every moment the requests posted for a term are at
    most the answers received from the frame for it, plus one while a
    request is pending. *)
Theorem requests_follow_answers d es s term :
  handleAll es (initial d) = Some s ->
  requestsFor term (posted s) <= answersFor term es + inFlightFor term s.
Proof.
  intros H. pose proof (requests_steps term es (initial d) s eq_refl H) as Hs.
  change (inFlightFor term (initial d)) with 0 in Hs.
  change (requestsFor term (posted (initial d))) with 0 in Hs. lia.
Qed.

Lemma requests_follow_answers_witness :
  exists s,
    handleAll [MouseOver xyz; MouseOver xyz; fromFrame (EXPANSION_RESULT "XYZ" "");
               MouseOver xyz] (initial paragraph) = Some s
    /\ requestsFor "XYZ" (posted s) = 2
    /\ requestsFor "XYZ" (posted s)
       <= answersFor "XYZ" [MouseOver xyz; MouseOver xyz;
                            fromFrame (EXPANSION_RESULT "XYZ" ""); MouseOver xyz]
          + inFlightFor "XYZ" s.
Proof.
  eexists. split; [vm_compute; reflexivity|]. split; [reflexivity|].
  eapply (requests_follow_answers paragraph).
  vm_compute. reflexivity.
Defined.

(** X18: the cache of expansions only grows: whatever the events, a term
    that has an entry keeps one. *)
Theorem cache_only_grows es : forall s s' term,
  handleAll es s = Some s' ->
  is_Some (expansions (cache s) !! term) ->
  is_Some (expansions (cache s') !! term).
Proof.
  induction es as [|e es IH]; intros s s' term H Hin; simpl in H.
  - by injection H as <-.
  - destruct (handle e s) as [s1|] eqn:E; [|done]. simpl in H.
    eapply IH; [exact H|]. by eapply expansions_never_evicted.
Qed.

Lemma cache_only_grows_witness :
  exists s,
    handleAll [MouseOut; MouseOver xyz; fromFrame (EXPANSION_RESULT "XYZ" "");
               SETTINGS_CHANGED false; Timeout 0] answered = Some s
    /\ is_Some (expansions (cache s) !! "GPU").
Proof.
  eexists. split; [vm_compute; reflexivity|].
  eapply (cache_only_grows
            [MouseOut; MouseOver xyz; fromFrame (EXPANSION_RESULT "XYZ" "");
             SETTINGS_CHANGED false; Timeout 0] answered).
  - vm_compute. reflexivity.
  - by eexists.
Defined.

(** *** What the frame does with each request *)

Lemma frame_answers_when_settled a ai aiSession :
  a ≠ "" ->
  (modelSettles ai aiSession = true ->
   exists e, (onMessage true (EXPAND_ACRONYM a) ai aiSession).2
             = [EXPANSION_RESULT a e])
  /\ (modelSettles ai aiSession = false ->
      (onMessage true (EXPAND_ACRONYM a) ai aiSession).2 = []).
Proof.
  intros Ha. unfold onMessage, modelSettles. simpl.
  apply truthy_true in Ha. rewrite Ha. simpl.
  destruct (if aiSession then Returns () else create ai) as [|[]|];
    [split; [by eexists|done]| |by split].
  destruct (prompt ai) as [|response|];
    [split; [by eexists|done]| |by split].
  split; [|done]. intros _. destruct (includes _ _); by eexists.
Qed.

Lemma posted_requests e s s' :
  handle e s = Some s' ->
  Forall (fun msg => exists a, msg = EXPAND_ACRONYM a /\ a ≠ "") (posted s) ->
  Forall (fun msg => exists a, msg = EXPAND_ACRONYM a /\ a ≠ "") (posted s').
Proof.
  intros He H.
  destruct e as [tgt| |source msg|id|enabled]; simpl in He.
  - injection He as <-.
    destruct (handleMouseOver_cases tgt s)
      as [(_ & _ & _ & -> & _)|(a & Hm & _ & _ & _ & _ & _ & -> & _)]; [done|].
    destruct (contentWindow s); [|done].
    apply Forall_app. split; [done|]. constructor; [|constructor].
    exists a. split; [done|]. by destruct Hm as (? & ? & ? & _ & _ & ?).
  - injection He as <-. unfold handleMouseOut.
    by destruct (element (tooltipState s)).
  - injection He as <-.
    destruct (window_eqb source (frameWindow s)) eqn:Hsrc;
      [|by rewrite onWindowMessage_ignored].
    destruct msg as [a|a e].
    + unfold onWindowMessage. by rewrite Hsrc.
    + by destruct (onWindowMessage_result source a e s Hsrc)
        as (_ & _ & _ & _ & -> & _).
  - injection He as <-. unfold onTimeout. by case_bool_decide.
  - unfold handleSettingsChange in He.
    destruct (negb enabled); simpl in He; [by injection He as <-|].
    destruct (processPage (body s)); simpl in He; [|done].
    by injection He as <-.
Qed.

(** X19: every message the page posts to the frame is a request that
    carries a non-empty acronym.  For such a request the frame's listener
    posts exactly one result, for that acronym, when its calls into the
    language model settle (the creation of the session throws, or it
    returns and the prompt throws or returns); when one of the awaited
    calls never settles the listener posts nothing: it has no timeout, so
    that request stays without an answer. *)
Theorem posted_requests_and_their_answers d es s msg ai aiSession :
  handleAll es (initial d) = Some s -> msg ∈ posted s ->
  exists a,
    msg = EXPAND_ACRONYM a /\ a ≠ ""
    /\ (modelSettles ai aiSession = true ->
        exists e, (onMessage true msg ai aiSession).2 = [EXPANSION_RESULT a e])
    /\ (modelSettles ai aiSession = false ->
        (onMessage true msg ai aiSession).2 = []).
Proof.
  intros H Hin.
  assert (forall es s0 s1,
            Forall (fun msg => exists a, msg = EXPAND_ACRONYM a /\ a ≠ "") (posted s0) ->
            handleAll es s0 = Some s1 ->
            Forall (fun msg => exists a, msg = EXPAND_ACRONYM a /\ a ≠ "") (posted s1))
    as Hall.
  { clear. induction es as [|e es IH]; intros s0 s1 H0 H; simpl in H.
    - by injection H as <-.
    - destruct (handle e s0) as [s2|] eqn:E; [|done]. simpl in H.
      eapply IH; [|exact H]. by eapply posted_requests. }
  pose proof (Hall es (initial d) s (Forall_nil_2 _) H) as Hp.
  rewrite Forall_forall in Hp. destruct (Hp msg Hin) as (a & -> & Ha).
  destruct (frame_answers_when_settled a ai aiSession Ha) as [H1 H2].
  exists a. by repeat split.
Qed.

Lemma posted_requests_and_their_answers_witness :
  (exists a,
     EXPAND_ACRONYM "GPU" = EXPAND_ACRONYM a /\ a ≠ ""
     /\ (modelSettles broken false = true ->
         exists e, (onMessage true (EXPAND_ACRONYM "GPU") broken false).2
                   = [EXPANSION_RESULT a e])
     /\ (modelSettles broken false = false ->
         (onMessage true (EXPAND_ACRONYM "GPU") broken false).2 = []))
  /\ (exists a,
        EXPAND_ACRONYM "GPU" = EXPAND_ACRONYM a /\ a ≠ ""
        /\ (modelSettles silentModel false = true ->
            exists e, (onMessage true (EXPAND_ACRONYM "GPU") silentModel false).2
                      = [EXPANSION_RESULT a e])
        /\ (modelSettles silentModel false = false ->
            (onMessage true (EXPAND_ACRONYM "GPU") silentModel false).2 = [])).
Proof.
  split.
  - apply (posted_requests_and_their_answers paragraph [MouseOver gpuA] hovered).
    + vm_compute. reflexivity.
    + apply list_elem_of_here.
  - apply (posted_requests_and_their_answers paragraph [MouseOver gpuA] hovered).
    + vm_compute. reflexivity.
    + apply list_elem_of_here.
Defined.

(** *** From the hover to the tooltip, through the frame *)

Lemma no_waiter_for_next s :
  coherent s ->
  filter (fun a => a.1 = nextPromise s) (awaiting s) = []
  /\ filter (fun a => a.1 ≠ nextPromise s) (awaiting s) = awaiting s.
Proof.
  intros [_ H2 _ _].
  assert (Forall (fun a => a.1 ≠ nextPromise s) (awaiting s)) as Hall.
  { apply Forall_forall. intros [p t] Hin. simpl.
    destruct (H2 _ _ Hin) as [Hlt _]. lia. }
  clear H2. induction Hall as [|a l Ha _ [IH1 IH2]]; [done|].
  rewrite !filter_cons. rewrite decide_False, decide_True by done.
  by rewrite IH1, IH2.
Qed.

Lemma frame_answer acronym ai aiSession response :
  acronym ≠ "" -> modelAnswers ai aiSession response ->
  includes (toLowerCase (trim response)) "not a tech term" = false ->
  (onMessage true (EXPAND_ACRONYM acronym) ai aiSession).2
  = [EXPANSION_RESULT acronym (trim response)].
Proof.
  intros Ha [Hc Hp] Hi. unfold onMessage. simpl.
  apply truthy_true in Ha. rewrite Ha. simpl.
  rewrite Hc, Hp, Hi. simpl. unfold sendExpansionResult. by rewrite trim_idem.
Qed.

Lemma handleAll_window es : forall s s',
  handleAll es s = Some s' -> contentWindow s' = contentWindow s.
Proof.
  induction es as [|e es IH]; intros s s' H; simpl in H.
  - by injection H as <-.
  - destruct (handle e s) as [s1|] eqn:E; [|done]. simpl in H.
    rewrite (IH _ _ H). by eapply handle_window.
Qed.

Lemma expansions_kept term e s s' :
  contentWindow s = true ->
  isFrameAnswerFor term e = false -> handle e s = Some s' ->
  expansions (cache s') !! term = expansions (cache s) !! term.
Proof.
  intros Hcw Hans.
  destruct e as [tgt| |source msg|id|enabled]; simpl.
  - intros [= <-].
    by destruct (handleMouseOver_cases tgt s)
      as [(-> & _)|(a & _ & _ & _ & -> & _)].
  - intros [= <-]. unfold handleMouseOut.
    by destruct (element (tooltipState s)).
  - intros [= <-].
    destruct (window_eqb source (frameWindow s)) eqn:Hw;
      [|by rewrite onWindowMessage_ignored].
    destruct msg as [a|a x]; [by unfold onWindowMessage; rewrite Hw|].
    destruct (onWindowMessage_result source a x s Hw) as (-> & _).
    unfold frameWindow in Hw. rewrite Hcw in Hw.
    destruct source as [[|]|]; try done. simpl in Hans.
    apply String.eqb_neq in Hans. by rewrite lookup_insert_ne.
  - intros [= <-]. unfold onTimeout. by destruct (bool_decide _).
  - unfold handleSettingsChange. destruct enabled; simpl.
    + destruct (processPage (body s)); [|done]. by intros [= <-].
    + by intros [= <-].
Qed.

Lemma expansions_kept_all term es : forall s s',
  contentWindow s = true ->
  Forall (fun e => isFrameAnswerFor term e = false) es ->
  handleAll es s = Some s' ->
  expansions (cache s') !! term = expansions (cache s) !! term.
Proof.
  induction es as [|e es IH]; intros s s' Hcw Hes H; simpl in H.
  - by injection H as <-.
  - inversion Hes as [|? ? He Hes']; subst.
    destruct (handle e s) as [s1|] eqn:E; [|done]. simpl in H.
    pose proof (handle_window _ _ _ E) as Hw. rewrite Hcw in Hw.
    rewrite (IH _ _ Hw Hes' H). by eapply expansions_kept.
Qed.

(** X20: the round trip of one expansion, under the conditions it needs.
    The page has reached a state [s] by any events; the hovered target is
    a marked span for [acronym]; the cache has no expansion and no pending
    request for [acronym]; the model answers [response] (a session exists
    or is created, and the prompt returns), the trimmed answer is not
    empty and does not contain [not a tech term].  Then the hover posts
    one request; the frame answers it with the trimmed answer; on that
    answer the tooltip shows the expansion below the hovered span, the
    expansion is cached, the pending entry is gone and the waiting hover
    is released.  From then on, after any events among which the frame
    sends no further result for [acronym], a hover over a span marked
    with [acronym] shows the cached expansion and posts nothing.  A
    further result from the frame for the term would overwrite the
    entry. *)
Theorem expansion_round_trip d es0 s tgt acronym ai aiSession response :
  handleAll es0 (initial d) = Some s ->
  marked tgt acronym ->
  expansions (cache s) !! acronym = None ->
  pending (cache s) !! acronym = None ->
  modelAnswers ai aiSession response ->
  includes (toLowerCase (trim response)) "not a tech term" = false ->
  trim response ≠ "" ->
  exists s1 s2,
    handle (MouseOver tgt) s = Some s1
    /\ posted s1 = posted s ++ [EXPAND_ACRONYM acronym]
    /\ (onMessage true (EXPAND_ACRONYM acronym) ai aiSession).2
       = [EXPANSION_RESULT acronym (trim response)]
    /\ handle (WindowMessage (Some FrameWindow)
                 (EXPANSION_RESULT acronym (trim response))) s1 = Some s2
    /\ element (tooltipState s2)
       = Some (Tooltip (trim response) "block" (rect_left (target_rect tgt))
                 (rect_bottom (target_rect tgt) + 5))
    /\ expansions (cache s2) !! acronym = Some (trim response)
    /\ pending (cache s2) = pending (cache s)
    /\ awaiting s2 = awaiting s
    /\ posted s2 = posted s1
    /\ forall es s3 tgt',
         Forall (fun e => isFrameAnswerFor acronym e = false) es ->
         handleAll es s2 = Some s3 ->
         marked tgt' acronym ->
         posted (handleMouseOver tgt' s3) = posted s3
         /\ element (tooltipState (handleMouseOver tgt' s3))
            = Some (Tooltip (trim response) "block" (rect_left (target_rect tgt'))
                      (rect_bottom (target_rect tgt') + 5)).
Proof.
  intros Hreach Hm He Hp Hmodel Hinc Htrim.
  assert (coherent s) as Hcoh
    by (eapply coherent_handleAll; [apply (coherent_initial d)|exact Hreach]).
  assert (contentWindow s = true) as Hcw
    by (by rewrite (handleAll_window _ _ _ Hreach)).
  assert (acronym ≠ "") as Ha by (by destruct Hm as (? & ? & ? & _ & _ & ?)).
  assert (truthy (trim response) = true) as Ht1 by (by apply truthy_true).
  assert (truthy (trim (trim response)) = true) as Ht2 by (by rewrite trim_idem).
  destruct (no_waiter_for_next s Hcoh) as [Hw1 Hw2].
  destruct (clearTimeout_frame (hideTimeout (tooltipState s)) s)
    as ((Hc0 & Ha0 & Hn0 & Hp0 & _) & Hcw0 & _ & Hts0).
  assert (handleMouseOver tgt s
          = requestExpansion acronym tgt
              (clearTimeout (hideTimeout (tooltipState s)) s)) as Hs1.
  { rewrite (handleMouseOver_marked _ _ _ Hm). cbv zeta.
    rewrite Hc0, He. unfold onMiss. by rewrite Hc0, Hp. }
  set (s0 := clearTimeout (hideTimeout (tooltipState s)) s) in *.
  eexists _, _. split; [simpl; by rewrite Hs1|].
  split; [simpl; by rewrite Hcw0, Hcw, Hp0|].
  split; [by apply frame_answer|].
  split; [done|].
  rewrite <- Hn0, <- Ha0 in Hw1, Hw2.
  assert (filter (fun a => a.1 = nextPromise s0)
            (awaiting s0 ++ [(nextPromise s0, tgt)]) = [(nextPromise s0, tgt)])
    as F1.
  { rewrite filter_app, Hw1, filter_cons, filter_nil. by rewrite decide_True. }
  assert (filter (fun a => a.1 ≠ nextPromise s0)
            (awaiting s0 ++ [(nextPromise s0, tgt)]) = awaiting s0)
    as F2.
  { rewrite filter_app, Hw2, filter_cons, filter_nil.
    rewrite decide_False by (simpl; tauto). apply app_nil_r. }
  unfold onWindowMessage, frameWindow. simpl. rewrite Hcw0, Hcw. simpl.
  rewrite lookup_insert_eq. unfold resume. simpl. rewrite F1. simpl.
  unfold afterAwait. rewrite Ht1, Ht2. simpl. rewrite F2.
  split; [done|]. split; [apply lookup_insert_eq|].
  split; [by rewrite Hc0, delete_insert_id|].
  split; [done|]. split; [by rewrite Hcw0, Hcw|].
  intros es s3 tgt' Hes Hs3 Hm'.
  match type of Hs3 with handleAll _ ?x = _ =>
    pose proof (expansions_kept_all acronym es x s3) as Hkept
  end.
  simpl in Hkept. rewrite Hcw0, Hcw, lookup_insert_eq in Hkept.
  specialize (Hkept eq_refl Hes Hs3).
  rewrite (handleMouseOver_marked _ _ _ Hm'). cbv zeta.
  match goal with |- context [clearTimeout ?i ?x] =>
    destruct (clearTimeout_frame i x) as ((Hc1 & _ & _ & Hp1 & _) & _ & _ & Hts1);
    set (s4 := clearTimeout i x) in *
  end.
  rewrite Hc1, Hkept, Ht1. simpl. rewrite Ht2. simpl.
  by rewrite Hp1.
Qed.

Lemma expansion_round_trip_witness :
  exists s1 s2,
    handle (MouseOver xyz) hovered = Some s1
    /\ handle (WindowMessage (Some FrameWindow)
                 (EXPANSION_RESULT "XYZ" (trim "XYZ: Example Zone: a made-up term")))
         s1 = Some s2
    /\ element (tooltipState s2)
       = Some (Tooltip (trim "XYZ: Example Zone: a made-up term") "block" 50 (60 + 5))
    /\ forall s3,
         handleAll [MouseOut; fromFrame (EXPANSION_RESULT "GPU" "");
                    WindowMessage (Some OtherWindow) (EXPANSION_RESULT "XYZ" "");
                    Timeout 0] s2
         = Some s3 ->
         posted (handleMouseOver xyz s3) = posted s3.
Proof.
  destruct (expansion_round_trip paragraph [MouseOver gpuA] hovered xyz "XYZ"
              tech false "XYZ: Example Zone: a made-up term")
    as (s1 & s2 & H1 & _ & _ & H2 & H3 & _ & _ & _ & _ & H4).
  - vm_compute. reflexivity.
  - by apply marked_markSpan.
  - reflexivity.
  - reflexivity.
  - split; reflexivity.
  - vm_compute. reflexivity.
  - vm_compute. discriminate.
  - exists s1, s2. split; [exact H1|]. split; [exact H2|]. split; [exact H3|].
    intros s3 Hs3.
    apply (H4 [MouseOut; fromFrame (EXPANSION_RESULT "GPU" "");
               WindowMessage (Some OtherWindow) (EXPANSION_RESULT "XYZ" "");
               Timeout 0] s3 xyz).
    + repeat constructor.
    + exact Hs3.
    + by apply marked_markSpan.
Defined.

End Requests.
